(** * import_snapshot.py: a shallow embedding and its verified properties

    The script synchronises a vendored directory with an upstream Git
    repository.  This development embeds

    - the Python string and [re] operations the script relies on,
    - [pathlib.PurePath.match] as used by [must_ignore],
    - the classes [GitRepo] and [AndroidMetadata],
    - the orchestrator [main],

    and proves the properties stated about them.

    Conventions.

    - A Python [str] is a list of characters; a character is a code point
      below 256 (the record files are ASCII in practice).
    - A [PurePath] is the list of its components.  The paths git lists
      and the names given on the command line are relative; the
      directory of the script is given by its components below the root.
    - Effects are threaded through a state-and-exception monad over an
      explicit [world]: the files of the working tree as a map from path
      to text, the directories that exist, the fields of the metadata
      object and the log of what the script printed, ran, created,
      removed and copied.  A file lives at its path whether or not the
      directories above it are recorded, and a copy onto a path writes
      the file at that path: the directories inside the working tree are
      not represented, so [shutil.copy] never meets one.  Statements that
      speak of the files after a copy say which paths they take to be
      places for files.
    - The script runs where the line separator is LF: reading the
      record in text mode turns CR LF and CR into LF, and writing it in
      text mode writes LF as it is.
    - What the script cannot decide is an [environment]: the return code
      and output of each process, the files of a checkout, the date.
    - Calls to [logging] are left out: they change nothing the
      properties speak of. *)

From Stdlib Require Import Ascii String List Bool Arith Lia Decimal.
From stdpp Require Import gmap strings list.

Set Default Proof Using "Type".
Open Scope list_scope.

(** ** Python strings *)

Module Py.

Definition str := list ascii.

(** A literal of the source text. *)
Definition lit (s : string) : str := list_ascii_of_string s.
Arguments lit _ : simpl never.

Definition dq : ascii := "034"%char.        (* the double quote *)
Definition backslash : ascii := "092"%char.
Definition slash : ascii := "/"%char.

Definition code (a : ascii) : nat := nat_of_ascii a.

(** [str.isspace] on one character, which is also the class [\s] of a
    [str] pattern: the ASCII white space, the separators 28..31, NEL (133)
    and the no-break space (160). *)
Definition isspace (a : ascii) : bool :=
  let n := code a in
  ((9 <=? n) && (n <=? 13)) || ((28 <=? n) && (n <=? 32))
  || (n =? 133) || (n =? 160).

(** [s.startswith(pre)], returning what follows the prefix. *)
Fixpoint strip_prefix (pre s : str) : option str :=
  match pre, s with
  | [], _ => Some s
  | c :: pre', a :: s' => if Ascii.eqb c a then strip_prefix pre' s' else None
  | _ :: _, [] => None
  end.

Definition startswith (s pre : str) : bool :=
  match strip_prefix pre s with Some _ => true | None => false end.

(** [s.removeprefix(pre)]. *)
Definition removeprefix (s pre : str) : str :=
  match strip_prefix pre s with Some r => r | None => s end.

(** [sub in s]. *)
Fixpoint contains (sub s : str) : bool :=
  startswith s sub ||
  match s with
  | [] => false
  | _ :: s' => contains sub s'
  end.

(** Adds a character in front of the first piece. *)
Definition push (a : ascii) (ps : list str) : list str :=
  match ps with
  | [] => [[a]]
  | p :: ps' => (a :: p) :: ps'
  end.

(** [s.split(sep, maxsplit)] for a non-empty [sep]; [maxsplit = None] is
    the unbounded [s.split(sep)].  The scan goes left to right; after a
    separator is found its remaining [length sep - 1] characters are
    skipped, so separators never overlap. *)
Fixpoint split_go (sep : str) (maxsplit : option nat) (skip : nat) (s : str)
  : list str :=
  match s with
  | [] => [[]]
  | a :: s' =>
      match skip with
      | S k => split_go sep maxsplit k s'
      | O =>
          match maxsplit with
          | Some O => [s]
          | _ =>
              if startswith s sep
              then [] :: split_go sep (pred <$> maxsplit) (length sep - 1) s'
              else push a (split_go sep maxsplit 0 s')
          end
      end
  end.

Definition split (s sep : str) (maxsplit : option nat) : list str :=
  split_go sep maxsplit 0 s.

(** Line boundaries of [str.splitlines]. *)
Definition is_linebreak (a : ascii) : bool :=
  let n := code a in
  ((10 <=? n) && (n <=? 13)) || ((28 <=? n) && (n <=? 30)) || (n =? 133).

(** [s.splitlines()]: a line ends at a line boundary, CR LF counts as
    one, and a trailing boundary opens no empty last line. *)
Fixpoint splitlines_go (cur : str) (s : str) : list str :=
  match s with
  | [] => match cur with [] => [] | _ => [rev cur] end
  | a :: s' =>
      if is_linebreak a then
        rev cur ::
        match s' with
        | b :: s'' =>
            if (code a =? 13) && (code b =? 10)
            then splitlines_go [] s''
            else splitlines_go [] s'
        | [] => []
        end
      else splitlines_go (a :: cur) s'
  end.

Definition splitlines (s : str) : list str := splitlines_go [] s.

Fixpoint lstrip (s : str) : str :=
  match s with
  | a :: s' => if isspace a then lstrip s' else s
  | [] => []
  end.

(** [s.strip()]. *)
Definition strip (s : str) : str := rev (lstrip (rev (lstrip s))).

(** [sep.join(parts)]. *)
Fixpoint join (sep : str) (parts : list str) : str :=
  match parts with
  | [] => []
  | [p] => p
  | p :: ps => p ++ sep ++ join sep ps
  end.

(** What reading a file in text mode does to its line ends (universal
    newlines): CR LF and a lone CR become LF. *)
Fixpoint universal_newlines (s : str) : str :=
  match s with
  | [] => []
  | a :: s' =>
      if code a =? 13 then
        "010"%char ::
        match s' with
        | b :: s'' =>
            if code b =? 10 then universal_newlines s'' else universal_newlines s'
        | [] => []
        end
      else a :: universal_newlines s'
  end.

Definition digit_char (d : nat) : ascii := ascii_of_nat (48 + d).

Fixpoint uint_str (u : Decimal.uint) : str :=
  match u with
  | Decimal.Nil => []
  | Decimal.D0 u => digit_char 0 :: uint_str u
  | Decimal.D1 u => digit_char 1 :: uint_str u
  | Decimal.D2 u => digit_char 2 :: uint_str u
  | Decimal.D3 u => digit_char 3 :: uint_str u
  | Decimal.D4 u => digit_char 4 :: uint_str u
  | Decimal.D5 u => digit_char 5 :: uint_str u
  | Decimal.D6 u => digit_char 6 :: uint_str u
  | Decimal.D7 u => digit_char 7 :: uint_str u
  | Decimal.D8 u => digit_char 8 :: uint_str u
  | Decimal.D9 u => digit_char 9 :: uint_str u
  end.

(** [str(n)] for a non-negative integer. *)
Definition str_of_nat (n : nat) : str := uint_str (Nat.to_uint n).

End Py.

(** ** The fragment of Python's [re] the script uses

    Every pattern of the script is a sequence of literal characters and
    greedy stars over a character class (white space, any character but
    the double quote, any character but the closing brace), with at most
    one capturing group.  The matcher is the backtracking one of
    [re]: a star first takes as many characters as it can and gives them
    back one at a time while the rest of the pattern fails. *)

Module Re.
Import Py.

Inductive item :=
| Chr (c : ascii)                (* a literal character *)
| Cls (p : ascii -> bool)        (* one character of a class *)
| Star (p : ascii -> bool).      (* greedy star over a class *)

Definition pattern := list item.

(** [rmatch pat k s] matches [pat] at the start of [s] and hands what is
    left to the continuation [k]; a failing continuation makes the matcher
    backtrack. *)
Fixpoint rmatch {R : Type} (pat : pattern) (k : str -> option R) (s : str)
  : option R :=
  match pat with
  | [] => k s
  | Chr c :: pat' =>
      match s with
      | a :: s' => if Ascii.eqb a c then rmatch pat' k s' else None
      | [] => None
      end
  | Cls p :: pat' =>
      match s with
      | a :: s' => if p a then rmatch pat' k s' else None
      | [] => None
      end
  | Star p :: pat' =>
      (fix star (s : str) : option R :=
         match s with
         | a :: s' =>
             if p a then
               match star s' with
               | Some r => Some r
               | None => rmatch pat' k s
               end
             else rmatch pat' k s
         | [] => rmatch pat' k []
         end) s
  end.

(** The text between two positions of a string, both given as suffixes. *)
Definition upto (s rest : str) : str := firstn (length s - length rest) s.

(** A pattern with one capturing group: [before (group1) after]. *)
Record gpattern := GPattern {
  before : pattern;
  group1 : pattern;
  after : pattern
}.

(** A match object: [group(0)], [group(1)] and the text after the match. *)
Record rmatched := RMatched {
  group0 : str;
  grp1 : str;
  rest : str
}.

(** [pattern.match(s)] at the start of [s]. *)
Definition match_at (p : gpattern) (s : str) : option rmatched :=
  rmatch (before p)
    (fun s1 => rmatch (group1 p)
       (fun s2 => rmatch (after p)
          (fun s3 => Some (RMatched (upto s s3) (upto s1 s2) s3)) s2) s1) s.

(** A pattern without a group. *)
Definition plain (pat : pattern) : gpattern := GPattern pat [] [].

(** [re.search(p, s)]: the match at the leftmost position that has one. *)
Fixpoint search (p : gpattern) (s : str) : option rmatched :=
  match match_at p s with
  | Some m => Some m
  | None =>
      match s with
      | [] => None
      | _ :: s' => search p s'
      end
  end.

(** The scan shared by [re.findall] and [re.sub]: the matches from left to
    right, without overlap.  After a match the characters it covers are
    skipped; an empty match advances by one character. *)
Fixpoint finditer_go (p : gpattern) (skip : nat) (s : str) : list rmatched :=
  match skip with
  | S k =>
      match s with
      | [] => []
      | _ :: s' => finditer_go p k s'
      end
  | O =>
      match match_at p s with
      | Some m =>
          m :: match s with
               | [] => []
               | _ :: s' => finditer_go p (length (group0 m) - 1) s'
               end
      | None =>
          match s with
          | [] => []
          | _ :: s' => finditer_go p 0 s'
          end
      end
  end.

(** [re.findall(p, s)] for a pattern with one group: the texts of the
    group. *)
Definition findall (p : gpattern) (s : str) : list str :=
  grp1 <$> finditer_go p 0 s.

(** A parsed replacement template: literal text and references to the
    whole match. *)
Inductive piece :=
| TLit (l : str)
| TWhole.

Definition expand (t : list piece) (m : str) : str :=
  concat ((fun pc => match pc with TLit l => l | TWhole => m end) <$> t).

(** [re.sub] with an already parsed template. *)
Fixpoint sub_go (p : pattern) (t : list piece) (skip : nat) (s : str) : str :=
  match skip with
  | S k =>
      match s with
      | [] => []
      | _ :: s' => sub_go p t k s'
      end
  | O =>
      match match_at (plain p) s with
      | Some m =>
          expand t (group0 m) ++
          match s with
          | [] => []
          | a :: s' =>
              match group0 m with
              | [] => a :: sub_go p t 0 s'
              | _ :: m' => sub_go p t (length m') s'
              end
          end
      | None =>
          match s with
          | [] => []
          | a :: s' => a :: sub_go p t 0 s'
          end
      end
  end.

End Re.

(** ** How a call ends *)

Inductive exn :=
| ValueError
| IndexError
| TypeError
| AssertionError
| FileNotFoundError
| CalledProcessError
| ReError.

(** A call returns a value, leaves through [sys.exit(msg)], or raises an
    exception that nothing in the script catches. *)
Inductive outcome (A : Type) :=
| Ok (a : A)
| Exit (msg : Py.str)
| Raise (e : exn).
Arguments Ok {A} a.
Arguments Exit {A} msg.
Arguments Raise {A} e.

(** ** Replacement templates of [re.sub]

    [re.sub] processes the backslash escapes of its replacement string
    (CPython 3.12, [re/_parser.py], [parse_template]) for a pattern
    without groups: the only group reference that exists is the one to
    the whole match. *)

Module Template.
Import Py Re.

Definition is_octal (a : ascii) : bool := (48 <=? code a) && (code a <=? 55).
Definition is_digit (a : ascii) : bool := (48 <=? code a) && (code a <=? 57).
Definition is_ascii_letter (a : ascii) : bool :=
  ((65 <=? code a) && (code a <=? 90)) || ((97 <=? code a) && (code a <=? 122)).
Definition octal (a : ascii) : nat := code a - 48.
Definition chr (n : nat) : ascii := ascii_of_nat n.

(** The name of a group reference: the text up to the closing bracket. *)
Fixpoint getuntil (stop : ascii) (s : str) : option str :=
  match s with
  | [] => None
  | a :: s' => if Ascii.eqb a stop then Some [] else cons a <$> getuntil stop s'
  end.

(** The character an escape letter stands for. *)
Definition escape_letter (c : ascii) : option ascii :=
  if Ascii.eqb c "a" then Some (chr 7)
  else if Ascii.eqb c "b" then Some (chr 8)
  else if Ascii.eqb c "f" then Some (chr 12)
  else if Ascii.eqb c "n" then Some (chr 10)
  else if Ascii.eqb c "r" then Some (chr 13)
  else if Ascii.eqb c "t" then Some (chr 9)
  else if Ascii.eqb c "v" then Some (chr 11)
  else if Ascii.eqb c backslash then Some backslash
  else None.

(** [str.isidentifier] on the characters below 256: a letter or an
    underscore, then letters, digits, underscores and the middle dot;
    the letters are the ASCII ones and those of Latin-1. *)
Definition is_id_start (a : ascii) : bool :=
  let n := code a in
  is_ascii_letter a || (n =? 95) || (n =? 170) || (n =? 181) || (n =? 186)
  || ((192 <=? n) && (n <=? 214)) || ((216 <=? n) && (n <=? 246))
  || (248 <=? n).

Definition is_id_continue (a : ascii) : bool :=
  is_id_start a || is_digit a || (code a =? 183).

Definition isidentifier (s : str) : bool :=
  match s with
  | [] => false
  | a :: r => is_id_start a && forallb is_id_continue r
  end.

(** The group reference that follows a backslash and the letter g.  A
    decimal name is the number of a group, and the pattern has the group
    0 only; any other name must be an identifier, and then names a group
    the pattern does not have, which is an IndexError and not the error
    of [re]. *)
Definition group_reference (r : str) : outcome (piece * nat) :=
  match r with
  | b :: r' =>
      if Ascii.eqb b "<" then
        match getuntil ">" r' with
        | Some name =>
            if negb (length name =? 0) && forallb is_digit name then
              if forallb (Ascii.eqb "0") name
              then Ok (TWhole, 3 + length name)
              else Raise ReError
            else if isidentifier name then Raise IndexError
            else Raise ReError
        | None => Raise ReError
        end
      else Raise ReError
  | [] => Raise ReError
  end.

(** The escape that follows a backslash: the piece it stands for and the
    number of characters it takes after the backslash, or the exception
    the parser raises. *)
Definition escape_at (s : str) : outcome (piece * nat) :=
  match s with
  | [] => Raise ReError
  | c :: r =>
      if Ascii.eqb c "g" then group_reference r
      else if Ascii.eqb c "0" then
        match r with
        | d1 :: r1 =>
            if is_octal d1 then
              match r1 with
              | d2 :: _ =>
                  if is_octal d2
                  then Ok (TLit [chr (8 * octal d1 + octal d2)], 3)
                  else Ok (TLit [chr (octal d1)], 2)
              | [] => Ok (TLit [chr (octal d1)], 2)
              end
            else Ok (TLit [chr 0], 1)
        | [] => Ok (TLit [chr 0], 1)
        end
      else if is_digit c then
        match r with
        | d2 :: d3 :: _ =>
            if is_octal c && is_octal d2 && is_octal d3 then
              let v := 64 * octal c + 8 * octal d2 + octal d3 in
              if v <=? 255 then Ok (TLit [chr v], 3) else Raise ReError
            else Raise ReError
        | _ => Raise ReError
        end
      else
        match escape_letter c with
        | Some a => Ok (TLit [a], 1)
        | None =>
            if is_ascii_letter c then Raise ReError
            else Ok (TLit [backslash; c], 1)
        end
  end.

(** One more piece in front of the pieces that follow, when they parse. *)
Definition and_then (pc : piece) (rest : outcome (list piece))
  : outcome (list piece) :=
  match rest with
  | Ok t => Ok (pc :: t)
  | Exit msg => Exit msg
  | Raise e => Raise e
  end.

Fixpoint parse_go (skip : nat) (s : str) : outcome (list piece) :=
  match s with
  | [] => Ok []
  | a :: s' =>
      match skip with
      | S k => parse_go k s'
      | O =>
          if Ascii.eqb a backslash then
            match escape_at s' with
            | Ok (pc, n) => and_then pc (parse_go n s')
            | Exit msg => Exit msg
            | Raise e => Raise e
            end
          else and_then (TLit [a]) (parse_go 0 s')
      end
  end.

Definition parse_template (repl : str) : outcome (list piece) := parse_go 0 repl.

End Template.

(** [re.sub(pattern, repl, s)]: the template is parsed first, so a bad
    template raises even when nothing matches. *)
Definition re_sub (p : Re.pattern) (repl s : Py.str) : outcome Py.str :=
  match Template.parse_template repl with
  | Ok t => Ok (Re.sub_go p t 0 s)
  | Exit msg => Exit msg
  | Raise e => Raise e
  end.

(** ** Pure paths *)

Module PurePath.
Import Py.

(** A relative path: its components, outermost first. *)
Definition path := list str.

(** [PurePath(s)] of a relative [s]: empty components and single dots are
    dropped. *)
Definition of_str (s : str) : path :=
  filter (fun c => c <> [] /\ c <> lit ".") (split s [slash] None).

(** [str(p)]. *)
Definition to_str (p : path) : str :=
  match p with
  | [] => lit "."
  | _ => join [slash] p
  end.

(** [p / q]. *)
Definition joinpath (p q : path) : path := p ++ q.

(** [p.parent]. *)
Definition parent (p : path) : path := removelast p.

(** [fnmatch.fnmatchcase(name, pat)] for the wildcards the script uses:
    a star is any run of characters, a question mark any one character,
    anything else stands for itself (no pattern of the script has a
    bracket expression). *)
Fixpoint fnmatchcase_go (pat name : str) : bool :=
  match pat with
  | [] => match name with [] => true | _ => false end
  | c :: pat' =>
      if Ascii.eqb c "*" then
        (fix star (n : str) : bool :=
           fnmatchcase_go pat' n ||
           match n with
           | [] => false
           | _ :: n' => star n'
           end) name
      else
        match name with
        | [] => false
        | a :: n' =>
            (Ascii.eqb c "?" || Ascii.eqb c a) && fnmatchcase_go pat' n'
        end
  end.

Definition fnmatchcase (name pat : str) : bool := fnmatchcase_go pat name.

(** The components of the path and of the pattern are compared from the
    right, as long as the pattern has components. *)
Fixpoint match_rev (parts pats : list str) {struct pats} : bool :=
  match pats with
  | [] => true
  | pat :: pats' =>
      match parts with
      | [] => false
      | part :: parts' => fnmatchcase part pat && match_rev parts' pats'
      end
  end.

(** [p.match(pattern)] for a relative path and a relative pattern that
    is not empty, which the four patterns of the script are: a double star
    is an ordinary component here and matches one component, as a single
    star does.  (For an empty pattern Python raises ValueError, and an
    absolute pattern never matches a relative path.) *)
Definition pmatch (p : path) (pattern : str) : bool :=
  let pats := of_str pattern in
  if length p <? length pats then false
  else match_rev (rev p) (rev pats).

End PurePath.

(** ** The world the script runs in *)

Import Py.
Abbreviation path := PurePath.path.

(** What the script does to its environment, in order. *)
Inductive event :=
| Print (msg : str)               (* print(msg) *)
| Run (cmd : list str)            (* subprocess.run(cmd, ...) *)
| Mkdir (p : path)                (* p.mkdir(parents=True, exist_ok=True) *)
| Rmtree (p : path)               (* shutil.rmtree(p) *)
| Unlink (p : path)               (* p.unlink(missing_ok=True) *)
| Copy (src dst : path)           (* shutil.copy(src, dst) *)
| WriteText (p : path) (s : str). (* the file p is rewritten with s *)

(** A finished process: [returncode] and [stdout]. *)
Record CompletedProcess := Completed {
  returncode : Z;
  stdout : str
}.

Record date := Date { year : nat; month : nat; day : nat }.

(** What the script cannot decide: the answers of the processes it starts,
    the files a checkout holds once it is cloned, and the clock. *)
Record environment := Environment {
  process : list str -> CompletedProcess;
  checkout : path -> gmap path str;
  now : date
}.

(** The fields of an [AndroidMetadata] object. *)
Record AndroidMetadata := Metadata {
  _metadata_path : path;
  _content : option str;
  _url : option str;
  _paths : option (list str)
}.

(** The working tree as a map from file path to file text, the
    directories of the scratch area that exist, the metadata object and
    the log of events. *)
Record world := World {
  files : gmap path str;
  existing : gset path;
  meta : AndroidMetadata;
  events : list event
}.

Definition set_files (f : gmap path str -> gmap path str) (w : world) : world :=
  World (f (files w)) (existing w) (meta w) (events w).
Definition set_existing (f : gset path -> gset path) (w : world) : world :=
  World (files w) (f (existing w)) (meta w) (events w).
Definition set_meta (f : AndroidMetadata -> AndroidMetadata) (w : world) : world :=
  World (files w) (existing w) (f (meta w)) (events w).
Definition log (e : event) (w : world) : world :=
  World (files w) (existing w) (meta w) (events w ++ [e]).

(** ** The monad of the script: state and early exit *)

Definition M (A : Type) : Type := world -> outcome A * world.

Definition ret {A} (a : A) : M A := fun w => (Ok a, w).

Definition bind {A B} (m : M A) (f : A -> M B) : M B :=
  fun w =>
    match m w with
    | (Ok a, w') => f a w'
    | (Exit msg, w') => (Exit msg, w')
    | (Raise e, w') => (Raise e, w')
    end.

Notation "'do' x <- m ; k" := (bind m (fun x => k))
  (at level 10, x name, m at level 100, k at level 200).
Notation "m >> k" := (bind m (fun _ => k))
  (at level 60, right associativity).

Definition sys_exit {A} (msg : str) : M A := fun w => (Exit msg, w).
Definition raise {A} (e : exn) : M A := fun w => (Raise e, w).
Definition emit (e : event) : M unit := fun w => (Ok tt, log e w).
Definition get {A} (f : world -> A) : M A := fun w => (Ok (f w), w).
Definition modify (f : world -> world) : M unit := fun w => (Ok tt, f w).
Definition print (msg : str) : M unit := emit (Print msg).
Definition when (b : bool) (m : M unit) : M unit := if b then m else ret tt.

(** [for x in xs: body(x)]. *)
Fixpoint for_each {A} (xs : list A) (body : A -> M unit) : M unit :=
  match xs with
  | [] => ret tt
  | x :: xs' => body x >> for_each xs' body
  end.

Definition outcome_of {A} (r : outcome A * world) : outcome A := fst r.
Definition world_of {A} (r : outcome A * world) : world := snd r.

(** [p.exists()]. *)
Definition path_exists (p : path) (w : world) : bool :=
  bool_decide (p ∈ existing w) || bool_decide (is_Some (files w !! p)).

(** The directory and all the directories above it. *)
Fixpoint ancestors (p : path) : list path :=
  match p with
  | [] => [[]]
  | c :: p' => [] :: (cons c <$> ancestors p')
  end.

(** [p.mkdir(parents=True, exist_ok=True)]. *)
Definition mkdir (p : path) : M unit :=
  emit (Mkdir p) >>
  modify (set_existing (fun d => d ∪ list_to_set (ancestors p))).

(** [shutil.rmtree(p)]: the directory and all that is below it go. *)
Definition rmtree (p : path) : M unit :=
  emit (Rmtree p) >>
  modify (set_existing (filter (fun q => ¬ p `prefix_of` q))) >>
  modify (set_files (filter (fun kv => ¬ p `prefix_of` kv.1))).

(** [p.unlink(missing_ok=missing_ok)]. *)
Definition unlink (p : path) (missing_ok : bool) : M unit :=
  emit (Unlink p) >>
  do present <- get (fun w => bool_decide (is_Some (files w !! p)));
  if present then modify (set_files (delete p))
  else if missing_ok then ret tt else raise FileNotFoundError.

Section Script.
Variable E : environment.

(** [shutil.copy(src, dst)], the source being a file of the checkout at
    [base] and [dst] the place of a file: were [dst] an existing
    directory, [shutil.copy] would copy into it, which the map of files
    does not represent. *)
Definition shutil_copy (base rel dst : path) : M unit :=
  emit (Copy (PurePath.joinpath base rel) dst) >>
  match checkout E base !! rel with
  | Some text => modify (set_files (insert dst text))
  | None => raise FileNotFoundError
  end.

(** [subprocess.run(cmd, check=check, text=True)]. *)
Definition subprocess_run (cmd : list str) (check : bool) : M CompletedProcess :=
  emit (Run cmd) >>
  let r := process E cmd in
  if check && negb (returncode r =? 0)%Z then raise CalledProcessError
  else ret r.


(** *** class GitRepo *)

Record GitRepo := Repo { base : path }.

(** [self._git(cmd, check=check)]. *)
Definition _git (self : GitRepo) (cmd : list str) (check : bool)
  : M CompletedProcess :=
  subprocess_run ([lit "git"; lit "-C"; PurePath.to_str (base self)] ++ cmd) check.

(** [text.splitlines()[0]]. *)
Definition first_line (text : str) : M str :=
  match splitlines text with
  | [] => raise IndexError
  | l :: _ => ret l
  end.

Definition get_hash_for_version (self : GitRepo) (version : str) : M str :=
  do r <- _git self [lit "show-ref"; lit "--hash"; version] true;
  do l <- first_line (stdout r);
  ret (strip l).

Definition git_ref_name_for_version (self : GitRepo) (version : str)
  : M (option str) :=
  do r <- _git self [lit "describe"; lit "--all"; lit "--exact-match"; version]
            false;
  do l <- first_line (stdout r);
  let ref := strip l in
  if startswith ref (lit "tags/") then ret (Some (removeprefix ref (lit "tags/")))
  else if startswith ref (lit "heads/")
       then ret (Some (removeprefix ref (lit "heads/")))
       else ret None.

Definition get_files (self : GitRepo) (version : str) (paths : list str)
  : M (list path) :=
  do r <- _git self
            ([lit "ls-tree"; lit "-r"; lit "--name-only";
              version ++ lit "^{tree}"] ++ paths) true;
  ret (PurePath.of_str <$> splitlines (stdout r)).

Definition assert_no_uncommitted_changes (self : GitRepo) : M unit :=
  do r <- _git self [lit "diff-files"; lit "--quiet"; lit "--ignore-submodules"]
            false;
  when (negb (returncode r =? 0)%Z) (sys_exit (lit "Error: Your tree is dirty")) >>
  do r <- _git self [lit "diff-index"; lit "--quiet"; lit "--ignore-submodules";
                     lit "--cached"; lit "HEAD"] false;
  when (negb (returncode r =? 0)%Z)
       (sys_exit (lit "Error: You have staged changes")).

(** The command line of the clone. *)
Definition clone_cmd (self : GitRepo) (url : str) (version : option str)
    (paths : list str) : list str :=
  [lit "git"; lit "clone"; lit "--filter=blob:none"; lit "--depth=1"]
  ++ (if bool_decide (paths = []) then [] else [lit "--sparse"])
  ++ (match version with
      | Some v => if bool_decide (v = lit "HEAD") then [] else [lit "-b"; v]
      | None => []
      end)
  ++ [url; PurePath.to_str (base self)].

(** [url] is [None] when the record names no URL; [subprocess.run] then
    refuses the command line. *)
Definition sparse_depth1_clone (self : GitRepo) (url : option str)
    (version : option str) (paths : list str) (force_clean : bool) : M unit :=
  mkdir (PurePath.parent (base self)) >>
  do there <- get (path_exists (base self));
  when (force_clean && there) (rmtree (base self)) >>
  do there <- get (path_exists (base self));
  if there then ret tt
  else
    match url with
    | None => raise TypeError
    | Some u =>
        subprocess_run (clone_cmd self u version paths) true >>
        modify (set_existing (fun d => d ∪ {[ base self ]})) >>
        if bool_decide (paths = []) then ret tt
        else _git self ([lit "sparse-checkout"; lit "add"] ++ paths) true >> ret tt
    end.

Definition add (self : GitRepo) (p : path) : M unit :=
  _git self [lit "add"; PurePath.to_str p] true >> ret tt.

Definition commit_cmd (message : str) (allow_empty auto_add : bool) : list str :=
  [lit "commit"; lit "-m"; message]
  ++ (if allow_empty then [lit "--allow-empty"] else [])
  ++ (if auto_add then [lit "-a"] else []).

Definition commit (self : GitRepo) (message : str) (allow_empty auto_add : bool)
  : M unit :=
  _git self (commit_cmd message allow_empty auto_add) true >> ret tt.

(** *** class AndroidMetadata *)

Definition lits (s : string) : Re.pattern := Re.Chr <$> lit s.
Definition not_char (c : ascii) (a : ascii) : bool := negb (Ascii.eqb a c).
Definition ws : Re.item := Re.Star isspace.

(** The pattern of a URL entry: the words url, type:, GIT and value:
    with optional white space around the braces and between the words,
    and the quoted URL as its group. *)
Definition URL_PATTERN : Re.gpattern :=
  Re.GPattern
    (lits "url" ++ [ws] ++ lits "{" ++ [ws] ++ lits "type:" ++ [ws]
     ++ lits "GIT" ++ [ws] ++ lits "value:" ++ [ws] ++ [Re.Chr dq])
    [Re.Star (not_char dq)]
    ([Re.Chr dq; ws] ++ lits "}").

(** The version field, with the version as its group. *)
Definition VERSION_PATTERN : Re.gpattern :=
  Re.GPattern (lits "version: " ++ [Re.Chr dq]) [Re.Star (not_char dq)] [Re.Chr dq].

(** The same field as [update_version_and_import_date] writes it: no
    group. *)
Definition VERSION_FIELD : Re.pattern :=
  lits "version: " ++ [Re.Chr dq; Re.Star (not_char dq); Re.Chr dq].

Definition DATE_FIELD : Re.pattern :=
  lits "last_upgrade_date {" ++ [Re.Star (not_char "}"); Re.Chr "}"].

Definition version_field (version : str) : str :=
  lit "version: " ++ [dq] ++ version ++ [dq].

Definition date_field (d : date) : str :=
  lit "last_upgrade_date { year: " ++ str_of_nat (year d)
  ++ lit " month: " ++ str_of_nat (month d)
  ++ lit " day: " ++ str_of_nat (day d) ++ lit " }".

(** [AndroidMetadata(metadata_path)]. *)
Definition AndroidMetadata_init (metadata_path : path) : M unit :=
  do there <- get (path_exists metadata_path);
  if there then modify (set_meta (fun _ => Metadata metadata_path None None None))
  else raise AssertionError.

Definition set_content (c : str) (m : AndroidMetadata) : AndroidMetadata :=
  Metadata (_metadata_path m) (Some c) (_url m) (_paths m).
Definition set_url (u : str) (m : AndroidMetadata) : AndroidMetadata :=
  Metadata (_metadata_path m) (_content m) (Some u) (_paths m).
Definition set_paths (ps : list str) (m : AndroidMetadata) : AndroidMetadata :=
  Metadata (_metadata_path m) (_content m) (_url m) (Some ps).

(** The file is opened in text mode ('rt'): its line ends are read as
    LF. *)
Definition _read_content : M unit :=
  do m <- get meta;
  match _content m with
  | Some _ => ret tt
  | None =>
      do f <- get (fun w => files w !! _metadata_path m);
      match f with
      | Some raw => modify (set_meta (set_content (universal_newlines raw)))
      | None => raise FileNotFoundError
      end
  end.

(** The file is opened in text mode ('wt'): every LF is written as the
    line separator of the system, which is LF itself where the script
    runs. *)
Definition _write_content : M unit :=
  do m <- get meta;
  match _content m with
  | Some text =>
      emit (WriteText (_metadata_path m) text) >>
      modify (set_files (insert (_metadata_path m) text))
  | None => ret tt
  end.

(** [self._content] where a string is needed. *)
Definition content : M str :=
  do m <- get meta;
  match _content m with
  | Some text => ret text
  | None => raise TypeError
  end.

Definition lift {A} (o : outcome A) : M A := fun w => (o, w).

(** The body of the loop up to the comparison: the base URL and the path
    of one URL entry. *)
Definition split_url (url : str) : outcome (str * option str) :=
  let rest_after_ref (base_url path : str) :=
    match split path (lit "/") (Some 1) with
    | [_; path'] => Ok (base_url, Some path')
    | _ => Raise ValueError
    end in
  if contains (lit "/-/tree/") url then
    match split url (lit "/-/tree/") None with
    | [base_url; path] => rest_after_ref base_url path
    | _ => Raise ValueError
    end
  else if contains (lit "/+/") url then
    match split url (lit "/+/") None with
    | [base_url; path] => rest_after_ref base_url path
    | _ => Raise ValueError
    end
  else Ok (url, None).

(** Truth value of an optional string. *)
Definition truthy (o : option str) : bool :=
  match o with
  | Some (_ :: _) => true
  | _ => false
  end.

Definition inconsistent_msg (mp : path) (u : option str) (base_url : str) : str :=
  lit "Error: Inconsistent git URLs in " ++ PurePath.to_str mp ++ lit " ("
  ++ default (lit "None") u ++ lit " vs " ++ base_url ++ lit ")".

(** The loop of [_read_raw_git_urls] over the URL entries. *)
Fixpoint urls_loop (urls : list str) (paths : list str) : M (list str) :=
  match urls with
  | [] => ret paths
  | url :: urls' =>
      do bp <- lift (split_url url);
      do m <- get meta;
      if truthy (_url m) && negb (bool_decide (_url m = Some bp.1))
      then sys_exit (inconsistent_msg (_metadata_path m) (_url m) bp.1)
      else
        modify (set_meta (set_url bp.1)) >>
        urls_loop urls' (if truthy bp.2 then paths ++ [default [] bp.2] else paths)
  end.

Definition _read_raw_git_urls : M unit :=
  do m <- get meta;
  match _url m with
  | Some _ => ret tt
  | None =>
      _read_content >>
      do text <- content;
      do paths <- urls_loop (Re.findall URL_PATTERN text) [];
      modify (set_meta (set_paths paths))
  end.

Definition current_version_msg (mp : path) : str :=
  lit "Error: Unable to determine current version from " ++ PurePath.to_str mp.

Definition current_version : M str :=
  _read_content >>
  do text <- content;
  match Re.search VERSION_PATTERN text with
  | None =>
      do m <- get meta;
      sys_exit (current_version_msg (_metadata_path m))
  | Some m => ret (Re.grp1 m)
  end.

Definition git_url : M (option str) :=
  _read_raw_git_urls >>
  do m <- get meta;
  ret (_url m).

Definition git_paths : M (list str) :=
  _read_raw_git_urls >>
  do m <- get meta;
  match _paths m with
  | Some ps => ret ps
  | None => raise TypeError
  end.

Definition update_version_and_import_date (version : str) : M unit :=
  _read_content >>
  do text <- content;
  do text1 <- lift (re_sub VERSION_FIELD (version_field version) text);
  modify (set_meta (set_content text1)) >>
  do text2 <- lift (re_sub DATE_FIELD (date_field (now E)) text1);
  modify (set_meta (set_content text2)) >>
  _write_content.

(** *** must_ignore *)

Definition IGNORE_PATTERNS : list str :=
  [lit "METADATA"; lit "MODULE_LICENSE_*"; lit "**/OWNERS"; lit "**/Android.bp"].

(** The decision of [must_ignore]. *)
Definition ignored (p : path) : bool :=
  existsb (PurePath.pmatch p) IGNORE_PATTERNS.

(** The notice is the text of the source as it stands: it is no format
    string, so the braces are printed. *)
Definition must_ignore (p : path) : M bool :=
  let ignore := ignored p in
  when ignore (print (lit "Ignoring source {path}")) >>
  ret ignore.

(** *** main *)

(** The parsed command line, and the directory of the script. *)
Record Args := MkArgs {
  script_dir : path;
  group : str;
  version : str;
  force_clean : bool;
  remove_old_files : bool
}.

Definition nl : ascii := "010"%char.

(** [a or b] for an optional string [a]. *)
Definition py_or (a : option str) (b : str) : str :=
  if truthy a then default [] a else b.

(** [f'{x}'] of an optional string. *)
Definition fmt (o : option str) : str := default (lit "None") o.

Definition commit_message (grp : str) (ref : option str) (hash : str) : str :=
  lit "Update to " ++ grp ++ lit " protocols " ++ py_or ref hash ++ [nl; nl]
  ++ lit "This imports " ++ hash ++ lit " from the upstream repository."
  ++ [nl; nl] ++ lit "Test: Builds" ++ [nl].

(** The loop that deletes the files of the old snapshot that the new one
    no longer has. *)
Definition remove_old (target_group_path : path)
    (import_old_files import_new_files : list path) : M unit :=
  let files_to_remove : gset path :=
    list_to_set import_old_files ∖ list_to_set import_new_files in
  for_each (elements files_to_remove) (fun p =>
    do skip <- must_ignore p;
    if skip then ret tt
    else unlink (PurePath.joinpath target_group_path p) true).

(** The loop that copies the files of the new snapshot. *)
Definition copy_new (target_git import_new_git : GitRepo)
    (target_group_path : path) (import_new_files : list path) : M unit :=
  for_each import_new_files (fun p =>
    do skip <- must_ignore p;
    if skip then ret tt
    else
      let dst := PurePath.joinpath target_group_path p in
      mkdir (PurePath.parent dst) >>
      shutil_copy (base import_new_git) p dst >>
      add target_git (PurePath.joinpath target_group_path p)).

Definition main (args : Args) : M unit :=
  let base := script_dir args in
  do there <- get (path_exists base);
  (if there then ret tt else raise AssertionError) >>
  print (lit "Importing " ++ group args ++ lit " Wayland protocols at "
         ++ version args ++ lit " to " ++ group args) >>
  let target_git := Repo base in
  assert_no_uncommitted_changes target_git >>
  let target_group_path := PurePath.joinpath base (PurePath.of_str (group args)) in
  AndroidMetadata_init (PurePath.joinpath target_group_path [lit "METADATA"]) >>
  do url <- git_url;
  print (lit "Cloning " ++ fmt url ++ lit " [sparse/limited] at " ++ version args) >>
  let import_dir :=
    PurePath.joinpath (PurePath.joinpath base [lit ".import"])
                      (PurePath.of_str (group args)) in
  let import_new_git :=
    Repo (PurePath.joinpath import_dir (PurePath.of_str (version args))) in
  do url <- git_url;
  do paths <- git_paths;
  sparse_depth1_clone import_new_git url (Some (version args)) paths
                      (force_clean args) >>
  do import_new_hash <- get_hash_for_version import_new_git (version args);
  do import_new_ref_name <- git_ref_name_for_version import_new_git (version args);
  print (lit "Synced " ++ [dq] ++ import_new_hash ++ lit " ("
         ++ fmt import_new_ref_name ++ lit ")" ++ [dq]) >>
  do paths <- git_paths;
  do import_new_files <- get_files import_new_git import_new_hash paths;
  (if remove_old_files args then
     do url <- git_url;
     do old <- current_version;
     print (lit "Cloning " ++ fmt url ++ lit " [sparse/limited] at prior " ++ old) >>
     do old <- current_version;
     let import_old_git := Repo (PurePath.joinpath import_dir (PurePath.of_str old)) in
     do url <- git_url;
     do old <- current_version;
     do paths <- git_paths;
     sparse_depth1_clone import_old_git url (Some old) paths (force_clean args) >>
     do old <- current_version;
     do import_old_hash <- get_hash_for_version import_old_git old;
     print (lit "Synced " ++ [dq] ++ import_old_hash ++ [dq]) >>
     do paths <- git_paths;
     do import_old_files <- get_files import_old_git import_old_hash paths;
     remove_old target_group_path import_old_files import_new_files
   else ret tt) >>
  copy_new target_git import_new_git target_group_path import_new_files >>
  update_version_and_import_date (py_or import_new_ref_name import_new_hash) >>
  add target_git (PurePath.joinpath target_group_path [lit "METADATA"]) >>
  commit target_git (commit_message (group args) import_new_ref_name import_new_hash)
         true true.

End Script.

(** ** Notions used in the statements *)

Definition empty_world : world := World ∅ ∅ (Metadata [] None None None) [].

(** The characters fnmatch gives a meaning to. *)
Definition wildcard (c : ascii) : bool := Ascii.eqb c "*" || Ascii.eqb c "?".

(** Whether the file [name] below the directories [dirs] is protected,
    told from the name and from whether there is a directory at all. *)
Definition protected_name (dirs : path) (name : str) : bool :=
  bool_decide (name = lit "METADATA")
  || startswith name (lit "MODULE_LICENSE_")
  || (negb (bool_decide (dirs = []))
      && (bool_decide (name = lit "OWNERS") || bool_decide (name = lit "Android.bp"))).

(** The events a run adds to the log. *)
Definition events_since (w w' : world) : list event :=
  drop (length (events w)) (events w').

(** What [sparse_depth1_clone] runs once the old checkout is out of the
    way: the clone, and the sparse-checkout command when the clone
    succeeds and there are paths. *)
Definition clone_events (E : environment) (self : GitRepo) (url : option str)
    (version : option str) (paths : list str) : list event :=
  match url with
  | None => []
  | Some u =>
      Run (clone_cmd self u version paths) ::
      (if (returncode (process E (clone_cmd self u version paths)) =? 0)%Z
          && negb (bool_decide (paths = []))
       then [Run ([lit "git"; lit "-C"; PurePath.to_str (base self)]
                  ++ [lit "sparse-checkout"; lit "add"] ++ paths)]
       else [])
  end.

(** An environment for the examples: every process succeeds and prints
    nothing, the checkouts are empty. *)
Definition quiet_env : environment :=
  Environment (fun _ => Completed 0 []) (fun _ => ∅) (Date 2024 11 4).

(** The deletion and the copy of [main], one after the other. *)
Definition sync (E : environment) (target_git import_new_git : GitRepo)
    (target_group_path : path) (import_old_files import_new_files : list path)
  : M unit :=
  remove_old target_group_path import_old_files import_new_files >>
  copy_new E target_git import_new_git target_group_path import_new_files.

Definition notice : event := Print (lit "Ignoring source {path}").

(** The events of the deletion loop over the paths [l]. *)
Definition remove_events (target : path) (l : list path) : list event :=
  (fun p => if ignored p then notice else Unlink (PurePath.joinpath target p)) <$> l.

(** The paths the deletion loop unlinks. *)
Definition unlinked (target : path) (l : list path) : list path :=
  PurePath.joinpath target <$> filter (fun p => ignored p = false) l.

Definition add_cmd (target_git : GitRepo) (p : path) : list str :=
  [lit "git"; lit "-C"; PurePath.to_str (base target_git)]
  ++ [lit "add"; PurePath.to_str p].

(** What the copy loop does over the paths [l]: how it ends, the events
    it logs and the files it writes.  It stops at the first file that the
    checkout lacks or that git refuses to stage. *)
Fixpoint copy_plan (E : environment) (target_git import_new_git : GitRepo)
    (target : path) (l : list path)
  : outcome unit * list event * list (path * str) :=
  match l with
  | [] => (Ok tt, [], [])
  | p :: l' =>
      let rest := copy_plan E target_git import_new_git target l' in
      if ignored p then (rest.1.1, notice :: rest.1.2, rest.2)
      else
        let dst := PurePath.joinpath target p in
        let tried := [Mkdir (PurePath.parent dst);
                      Copy (PurePath.joinpath (base import_new_git) p) dst] in
        match checkout E (base import_new_git) !! p with
        | None => (Raise FileNotFoundError, tried, [])
        | Some text =>
            if (returncode (process E (add_cmd target_git dst)) =? 0)%Z
            then (rest.1.1, tried ++ Run (add_cmd target_git dst) :: rest.1.2,
                  (dst, text) :: rest.2)
            else (Raise CalledProcessError,
                  tried ++ [Run (add_cmd target_git dst)], [(dst, text)])
        end
  end.

(** Writing files one after the other. *)
Definition write_all (ws : list (path * str)) (m : gmap path str) : gmap path str :=
  foldl (fun m kv => <[kv.1 := kv.2]> m) m ws.

Definition unlink_all (qs : list path) (m : gmap path str) : gmap path str :=
  foldl (fun m q => delete q m) m qs.

(** Every event of the copy loop is the notice or belongs to a file of
    the new snapshot that is not protected. *)
Definition copy_event (tg ng : GitRepo) (target : path) (l : list path)
    (e : event) : Prop :=
  e = notice
  \/ exists p, p ∈ l /\ ignored p = false
       /\ (e = Mkdir (PurePath.parent (PurePath.joinpath target p))
           \/ e = Copy (PurePath.joinpath (base ng) p) (PurePath.joinpath target p)
           \/ e = Run (add_cmd tg (PurePath.joinpath target p))).

(** What is left of a string after its longest prefix of characters
    satisfying [p]. *)
Fixpoint drop_while (p : ascii -> bool) (s : str) : str :=
  match s with
  | a :: s' => if p a then drop_while p s' else s
  | [] => []
  end.

(** A field: the opening text, a body free of the closing character, and
    the closing character. *)
Definition field (opening : str) (closing : ascii) (m : str) : Prop :=
  exists body, m = opening ++ body ++ [closing] /\ closing ∉ body.

(** The pattern of such a field. *)
Definition field_pattern (opening : str) (closing : ascii) : Re.pattern :=
  (Re.Chr <$> opening) ++ [Re.Star (not_char closing); Re.Chr closing].

(** The same field with its body as the group. *)
Definition field_gpattern (opening : str) (closing : ascii) : Re.gpattern :=
  Re.GPattern (Re.Chr <$> opening) [Re.Star (not_char closing)] [Re.Chr closing].

(** The field at the start of a string: its body and what follows it. *)
Definition field_at (opening : str) (closing : ascii) (s : str)
  : option (str * str) :=
  match strip_prefix opening s with
  | Some r =>
      match drop_while (not_char closing) r with
      | _ :: rest => Some (Re.upto r (drop_while (not_char closing) r), rest)
      | [] => None
      end
  | None => None
  end.

(** The record text the metadata object works on: the text it has read
    already, or else the text of its file as text mode reads it. *)
Definition record_of (w : world) : option str :=
  match _content (meta w) with
  | Some text => Some text
  | None => universal_newlines <$> files w !! _metadata_path (meta w)
  end.

(** A version field with the version [v] starts at position [i] of the
    text. *)
Definition version_at (text : str) (i : nat) (v : str) : Prop :=
  exists post, drop i text = version_field v ++ post /\ dq ∉ v.

Definition VERSION_OPENING : str := lit "version: " ++ [dq].
Definition DATE_OPENING : str := lit "last_upgrade_date {".
Arguments VERSION_OPENING : simpl never.
Arguments DATE_OPENING : simpl never.

(** [rewrites P r s t]: the text [t] is the text [s] where every piece
    that satisfies [P], taken from left to right and without overlap, has
    been replaced by [r]; a character is kept, where it was, only when no
    such piece starts at it. *)
Inductive rewrites (P : str -> Prop) (r : str) : str -> str -> Prop :=
| rewrites_nil : rewrites P r [] []
| rewrites_keep a s t :
    (forall m rest, a :: s = m ++ rest -> ~ P m) ->
    rewrites P r s t -> rewrites P r (a :: s) (a :: t)
| rewrites_piece m s t : P m -> rewrites P r s t -> rewrites P r (m ++ s) (r ++ t).

(** A world whose only file is the record, with a metadata object that
    has read nothing yet. *)
Definition record_world (text : str) : world :=
  World {[ [lit "METADATA"] := text ]} ∅
        (Metadata [lit "METADATA"] None None None) [].

(** The two delimiters of a URL with a path. *)
Definition TREE : str := lit "/-/tree/".
Definition PLUS : str := lit "/+/".
Arguments TREE : simpl never.
Arguments PLUS : simpl never.

(** In [pre ++ sep ++ post] the separator does not start before the end
    of [pre]. *)
Definition first_here (sep pre : str) : bool :=
  negb (contains sep (pre ++ removelast sep)).

(** The forms of a URL entry that [_read_raw_git_urls] takes apart, with
    the base URL and the path it gets from each: a base, one delimiter
    that occurs nowhere else, a ref without a slash, a slash and a path
    that is not empty; or a URL without any delimiter. *)
Inductive url_form : str -> str -> option str -> Prop :=
| form_tree base ref p :
    first_here TREE base = true ->
    contains TREE (ref ++ [slash] ++ p) = false ->
    slash ∉ ref ->
    p <> [] ->
    url_form (base ++ TREE ++ ref ++ [slash] ++ p) base (Some p)
| form_plus base ref p :
    contains TREE (base ++ PLUS ++ ref ++ [slash] ++ p) = false ->
    first_here PLUS base = true ->
    contains PLUS (ref ++ [slash] ++ p) = false ->
    slash ∉ ref ->
    p <> [] ->
    url_form (base ++ PLUS ++ ref ++ [slash] ++ p) base (Some p)
| form_plain url :
    contains TREE url = false ->
    contains PLUS url = false ->
    url_form url url None.

(** Two worlds that differ at most in what the metadata object has
    worked out about the URLs. *)
Definition same_but_meta (w w' : world) : Prop :=
  files w' = files w /\ events w' = events w /\ existing w' = existing w
  /\ _content (meta w') = _content (meta w)
  /\ _paths (meta w') = _paths (meta w)
  /\ _metadata_path (meta w') = _metadata_path (meta w).

(** The URL entries of a record have the given forms. *)
Definition url_forms (text : str) (forms : list (str * option str)) : Prop :=
  Forall2 (fun url bf => url_form url bf.1 bf.2)
          (Re.findall URL_PATTERN text) forms.

(** An event that is not the run of a clone. *)
Definition no_clone (e : event) : Prop :=
  forall self u v ps, e <> Run (clone_cmd self u v ps).

(** Where [main] looks for the record. *)
Definition metadata_path_of (args : Args) : path :=
  PurePath.joinpath
    (PurePath.joinpath (script_dir args) (PurePath.of_str (group args)))
    [lit "METADATA"].

(** The text of a URL entry of a record. *)
Definition url_entry (url : str) : str :=
  lit "url { type: GIT value: " ++ [dq] ++ url ++ [dq] ++ lit " }".

(** Whether an event is the run of a git clone. *)
Definition is_clone (e : event) : bool :=
  match e with
  | Run (g :: c :: _) => bool_decide (g = lit "git") && bool_decide (c = lit "clone")
  | _ => false
  end.

(** The scenario of an import from version 1.0, with the files a.txt and
    b.txt, to version 2.0, with the files b.txt and c.txt. *)
Definition scenario_env : environment :=
  Environment (fun _ => Completed 0 [])
              (fun _ => {[ [lit "b.txt"] := lit "b of 2.0";
                           [lit "c.txt"] := lit "c of 2.0" ]})
              (Date 2024 11 4).

Definition scenario_world : world :=
  World {[ [lit "tree"; lit "group"; lit "a.txt"] := lit "a of 1.0";
           [lit "tree"; lit "group"; lit "b.txt"] := lit "b of 1.0" ]}
        ∅ (Metadata [] None None None) [].


(** ** Notions used in the further properties *)

(** A condition on the world that only the path of the metadata object
    can change. *)
Definition stable (I : world -> Prop) : Prop :=
  forall w w', _metadata_path (meta w') = _metadata_path (meta w) -> I w -> I w'.

(** [logs I P m J]: started in a world where [I] holds, the call [m]
    adds to the log only events that satisfy [P], and [J] holds when it
    returns. *)
Definition logs (I : world -> Prop) (P : event -> Prop) {A} (m : M A)
    (J : world -> Prop) : Prop :=
  forall w, I w ->
    (exists evs, events (world_of (m w)) = events w ++ evs /\ Forall P evs)
    /\ (forall a, outcome_of (m w) = Ok a -> J (world_of (m w))).

(** The metadata object is the one of the record at [mp]. *)
Definition record_at (mp : path) (w : world) : Prop :=
  _metadata_path (meta w) = mp.

(** What [main] may add to the log: it runs git only, removes a tree
    only when a clean fetch is asked for, unlinks only when old files
    are to be removed, and rewrites no file but the record. *)
Definition main_event (args : Args) (e : event) : Prop :=
  match e with
  | Print _ | Mkdir _ | Copy _ _ => True
  | Run cmd => head cmd = Some (Py.lit "git")
  | Rmtree _ => force_clean args = true
  | Unlink _ => remove_old_files args = true
  | WriteText q _ => q = metadata_path_of args
  end.

(** An event that is no run of a program other than git. *)
Definition runs_git_only (e : event) : Prop :=
  match e with
  | Run cmd => head cmd = Some (Py.lit "git")
  | _ => True
  end.

Definition is_unlink (e : event) : bool :=
  match e with Unlink _ => true | _ => false end.

Definition is_rmtree (e : event) : bool :=
  match e with Rmtree _ => true | _ => false end.

(** An event that rewrites no file but the one at [mp]. *)
Definition writes_only (mp : path) (e : event) : Prop :=
  match e with
  | WriteText q _ => q = mp
  | _ => True
  end.

(** The first line [main] prints. *)
Definition banner (args : Args) : event :=
  Print (Py.lit "Importing " ++ group args ++ Py.lit " Wayland protocols at "
         ++ version args ++ Py.lit " to " ++ group args).

(** The two commands of [assert_no_uncommitted_changes] in the
    repository at [b]. *)
Definition diff_files_cmd (b : path) : list str :=
  [Py.lit "git"; Py.lit "-C"; PurePath.to_str b; Py.lit "diff-files";
   Py.lit "--quiet"; Py.lit "--ignore-submodules"].

Definition diff_index_cmd (b : path) : list str :=
  [Py.lit "git"; Py.lit "-C"; PurePath.to_str b; Py.lit "diff-index";
   Py.lit "--quiet"; Py.lit "--ignore-submodules"; Py.lit "--cached";
   Py.lit "HEAD"].

(** The command lines of [get_files], [get_hash_for_version] and
    [git_ref_name_for_version] in the repository [self]. *)
Definition ls_tree_cmd (self : GitRepo) (version : str) (paths : list str)
  : list str :=
  [Py.lit "git"; Py.lit "-C"; PurePath.to_str (base self); Py.lit "ls-tree";
   Py.lit "-r"; Py.lit "--name-only"; version ++ Py.lit "^{tree}"] ++ paths.

Definition show_ref_cmd (self : GitRepo) (version : str) : list str :=
  [Py.lit "git"; Py.lit "-C"; PurePath.to_str (base self); Py.lit "show-ref";
   Py.lit "--hash"; version].

Definition describe_cmd (self : GitRepo) (version : str) : list str :=
  [Py.lit "git"; Py.lit "-C"; PurePath.to_str (base self); Py.lit "describe";
   Py.lit "--all"; Py.lit "--exact-match"; version].

(** Lines as a process prints them: each one ended by a newline. *)
Definition printed (lines : list str) : str :=
  concat ((fun l => l ++ [nl]) <$> lines).

(** A text without a line boundary. *)
Definition one_line (l : str) : Prop :=
  Forall (fun c => Py.is_linebreak c = false) l.

(** The working tree at [b] has neither changes that are not staged nor
    staged changes. *)
Definition clean_tree (E : environment) (b : path) : Prop :=
  returncode (process E (diff_files_cmd b)) = 0%Z
  /\ returncode (process E (diff_index_cmd b)) = 0%Z.

(** The log ends with the write of the record, its staging and a commit
    with --allow-empty and -a, and the record file holds the text
    written. *)
Definition completed (args : Args) (w : world) : Prop :=
  exists evs text message,
    events w
    = evs ++ [WriteText (metadata_path_of args) text;
              Run (add_cmd (Repo (script_dir args)) (metadata_path_of args));
              Run ([Py.lit "git"; Py.lit "-C"; PurePath.to_str (script_dir args)]
                   ++ commit_cmd message true true)]
    /\ files w !! metadata_path_of args = Some text.

(** A first import that runs to its end: every git command succeeds and
    prints the one line abc, the checkout holds the file abc, and the
    record names one URL and the version 1.0. *)
Definition import_env : environment :=
  Environment (fun _ => Completed 0 (Py.lit "abc" ++ [nl]))
              (fun _ => {[ [Py.lit "abc"] := Py.lit "text of abc" ]})
              (Date 2024 11 4).

Definition import_args : Args :=
  MkArgs [Py.lit "tree"] (Py.lit "group") (Py.lit "2.0") true true.

Definition import_world : world :=
  World {[ [Py.lit "tree"; Py.lit "group"; Py.lit "METADATA"]
           := url_entry (Py.lit "https://example.org/repo") ++ [nl]
              ++ version_field (Py.lit "1.0") ++ [nl] ]}
        {[ [Py.lit "tree"] ]} (Metadata [] None None None) [].

(** An import from version 1.0 to version 2.0.  In the checkout of 1.0
    every git command prints the line old.txt, everywhere else the line
    new.txt; the checkouts hold the file new.txt.  The vendored directory
    holds the record and the file old.txt, and the checkouts of both
    versions exist already. *)
Definition upgrade_env : environment :=
  Environment
    (fun cmd =>
       Completed 0 (if bool_decide (Py.lit "tree/.import/group/1.0" ∈ cmd)
                    then Py.lit "old.txt" ++ [nl]
                    else Py.lit "new.txt" ++ [nl]))
    (fun _ => {[ [Py.lit "new.txt"] := Py.lit "text of new.txt" ]})
    (Date 2024 11 4).

Definition upgrade_world : world :=
  World {[ [Py.lit "tree"; Py.lit "group"; Py.lit "METADATA"]
           := url_entry (Py.lit "https://example.org/repo") ++ [nl]
              ++ version_field (Py.lit "1.0") ++ [nl];
           [Py.lit "tree"; Py.lit "group"; Py.lit "old.txt"]
           := Py.lit "text of old.txt" ]}
        {[ [Py.lit "tree"];
           [Py.lit "tree"; Py.lit ".import"; Py.lit "group"; Py.lit "1.0"];
           [Py.lit "tree"; Py.lit ".import"; Py.lit "group"; Py.lit "2.0"] ]}
        (Metadata [] None None None) [].

(** The directories of a world: those it records, and every path that
    has a file below it. *)
Definition is_directory (w : world) (d : path) : Prop :=
  d ∈ existing w
  \/ exists k, is_Some (files w !! k) /\ d `prefix_of` k /\ d <> k.

(** The paths of [l] that [must_ignore] does not skip can hold files
    below [target]: none of them is a directory, and none lies below a
    file. *)
Definition file_places (w : world) (target : path) (l : list path) : Prop :=
  forall p, p ∈ l -> ignored p = false ->
    ~ is_directory w (PurePath.joinpath target p)
    /\ forall d, d `prefix_of` PurePath.joinpath target p ->
                 d <> PurePath.joinpath target p -> files w !! d = None.

(** No path of [l] lies below another one. *)
Definition prefix_free (l : list path) : Prop :=
  forall p q, p ∈ l -> q ∈ l -> p `prefix_of` q -> p = q.

(** The directory [main] clones the new version into. *)
Definition scratch_of (args : Args) : path :=
  PurePath.joinpath
    (PurePath.joinpath (PurePath.joinpath (script_dir args) [Py.lit ".import"])
                       (PurePath.of_str (group args)))
    (PurePath.of_str (version args)).

(** The line [main] prints before the first clone when the record names
    no URL. *)
Definition cloning_none (args : Args) : event :=
  Print (Py.lit "Cloning " ++ Py.lit "None" ++ Py.lit " [sparse/limited] at "
         ++ version args).


(** * Properties *)

(** ** Strings *)

Section StringFacts.
Import Py.

Lemma eqb_ascii_true a b : Ascii.eqb a b = true <-> a = b.
Proof. apply Ascii.eqb_eq. Qed.

Lemma strip_prefix_app pre s : strip_prefix pre (pre ++ s) = Some s.
Proof.
  induction pre as [|c pre IH]; simpl; [done|].
  by rewrite Ascii.eqb_refl.
Qed.

Lemma strip_prefix_Some pre s r : strip_prefix pre s = Some r -> s = pre ++ r.
Proof.
  revert s; induction pre as [|c pre IH]; intros [|a s]; simpl; try congruence.
  destruct (Ascii.eqb c a) eqn:Hc; [|done].
  apply Ascii.eqb_eq in Hc as ->. intros H. by rewrite (IH _ H).
Qed.

Lemma startswith_true s pre : startswith s pre = true <-> exists r, s = pre ++ r.
Proof.
  unfold startswith. split.
  - destruct (strip_prefix pre s) eqn:H; [|done].
    intros _. eexists. by apply strip_prefix_Some.
  - intros [r ->]. by rewrite strip_prefix_app.
Qed.

Lemma startswith_app pre r : startswith (pre ++ r) pre = true.
Proof. apply startswith_true. by exists r. Qed.

Lemma contains_unfold sub s :
  contains sub s =
  startswith s sub || match s with [] => false | _ :: s' => contains sub s' end.
Proof. by destruct s. Qed.

Lemma contains_true sub s :
  contains sub s = true <-> exists a b, s = a ++ sub ++ b.
Proof.
  split.
  - induction s as [|c s IH]; simpl.
    + rewrite orb_false_r. intros [r ->]%startswith_true. by exists [], r.
    + intros [[r ->]%startswith_true | H]%orb_true_iff.
      * by exists [], r.
      * destruct (IH H) as (a & b & ->). by exists (c :: a), b.
  - intros (a & b & ->). induction a as [|c a IH].
    + rewrite contains_unfold. simpl. by rewrite startswith_app.
    + rewrite contains_unfold. simpl. rewrite IH. apply orb_true_r.
Qed.

Lemma contains_false sub s a b : contains sub s = false -> s <> a ++ sub ++ b.
Proof.
  intros H ->. assert (contains sub (a ++ sub ++ b) = true); [|congruence].
  apply contains_true. eauto.
Qed.

End StringFacts.

(** ** Protected files *)

Section Protected.
Import Py PurePath.

Lemma fnmatch_literal pat name :
  forallb (fun c => negb (wildcard c)) pat = true ->
  fnmatchcase_go pat name = bool_decide (name = pat).
Proof.
  revert name; induction pat as [|c pat IH]; intros name Hp; simpl in *.
  - destruct name; [by rewrite bool_decide_eq_true_2 | by rewrite bool_decide_eq_false_2].
  - apply andb_true_iff in Hp as [Hc Hp]. unfold wildcard in Hc.
    apply negb_true_iff, orb_false_iff in Hc as [-> Hq].
    destruct name as [|a name]; [by rewrite bool_decide_eq_false_2|].
    rewrite Hq, IH by done. simpl.
    destruct (Ascii.eqb c a) eqn:Hca; simpl.
    + apply Ascii.eqb_eq in Hca as ->.
      apply bool_decide_ext. split; congruence.
    + symmetry. apply bool_decide_eq_false_2. intros [= -> _].
      by rewrite Ascii.eqb_refl in Hca.
Qed.

Lemma fnmatch_star_unfold pat name :
  fnmatchcase_go ("*"%char :: pat) name =
  fnmatchcase_go pat name
  || match name with [] => false | _ :: n' => fnmatchcase_go ("*"%char :: pat) n' end.
Proof. by destruct name. Qed.

Lemma fnmatch_star_any name : fnmatchcase_go (lit "*") name = true.
Proof.
  change (lit "*") with ["*"%char].
  induction name as [|a name IH]; [done|].
  rewrite fnmatch_star_unfold, IH. apply orb_true_r.
Qed.

Lemma fnmatch_stars_any name : fnmatchcase name (lit "**") = true.
Proof.
  unfold fnmatchcase. change (lit "**") with ("*"%char :: lit "*").
  by rewrite fnmatch_star_unfold, fnmatch_star_any.
Qed.

Lemma fnmatch_prefix l name :
  forallb (fun c => negb (wildcard c)) l = true ->
  fnmatchcase_go (l ++ lit "*") name = startswith name l.
Proof.
  revert name; induction l as [|c l IH]; intros name Hl; simpl in *.
  - rewrite fnmatch_star_any. by destruct name.
  - apply andb_true_iff in Hl as [Hc Hl]. unfold wildcard in Hc.
    apply negb_true_iff, orb_false_iff in Hc as [-> Hq].
    destruct name as [|a name]; [done|].
    rewrite Hq, IH by done. unfold startswith. simpl.
    by destruct (Ascii.eqb c a).
Qed.

Lemma ignored_nil : ignored [] = false.
Proof. by vm_compute. Qed.

Local Opaque lit fnmatchcase.

Lemma pmatch_one dirs name pat :
  of_str pat = [pat] ->
  pmatch (dirs ++ [name]) pat = fnmatchcase name pat.
Proof.
  intros Hp. unfold pmatch. rewrite Hp, length_app, rev_app_distr. simpl.
  replace (length dirs + 1 <? 1) with false by (symmetry; apply Nat.ltb_ge; lia).
  apply andb_true_r.
Qed.

Lemma pmatch_below (dirs : path) name pat leaf :
  of_str pat = [lit "**"; leaf] ->
  pmatch (dirs ++ [name]) pat = negb (bool_decide (dirs = [])) && fnmatchcase name leaf.
Proof.
  intros Hp. unfold pmatch. rewrite Hp, length_app, rev_app_distr. simpl.
  destruct dirs as [|d dirs _] using rev_ind; [done|].
  rewrite bool_decide_eq_false_2 by (by destruct dirs).
  rewrite length_app, rev_app_distr. simpl.
  replace (length dirs + 1 + 1 <? 2) with false by (symmetry; apply Nat.ltb_ge; lia).
  rewrite fnmatch_stars_any. simpl. apply andb_true_r.
Qed.

Local Transparent lit fnmatchcase.

End Protected.

Section ProtectedClaims.
Import Py PurePath.

Lemma ignored_by_name dirs name :
  ignored (dirs ++ [name]) = protected_name dirs name.
Proof.
  unfold ignored, IGNORE_PATTERNS, protected_name. cbn [existsb].
  rewrite !pmatch_one by (by vm_compute).
  rewrite (pmatch_below _ _ _ (lit "OWNERS")) by (by vm_compute).
  rewrite (pmatch_below _ _ _ (lit "Android.bp")) by (by vm_compute).
  unfold fnmatchcase.
  rewrite (fnmatch_literal (lit "METADATA")) by (by vm_compute).
  rewrite (fnmatch_literal (lit "OWNERS")) by (by vm_compute).
  rewrite (fnmatch_literal (lit "Android.bp")) by (by vm_compute).
  change (lit "MODULE_LICENSE_*") with (lit "MODULE_LICENSE_" ++ lit "*").
  rewrite fnmatch_prefix by (by vm_compute).
  rewrite orb_false_r.
  repeat match goal with
         | |- context [@bool_decide ?P ?d] => destruct (@bool_decide P d)
         end;
    by destruct (startswith name (lit "MODULE_LICENSE_")).
Qed.

Lemma must_ignore_outcome p w : outcome_of (must_ignore p w) = Ok (ignored p).
Proof. unfold must_ignore, when, bind, print, emit, ret. by destruct (ignored p). Qed.

(** What [must_ignore] answers, told from the name of the file and from
    whether it lies in a directory. *)
Lemma must_ignore_right_anchored (dirs : path) (name : str) (w : world) :
  outcome_of (must_ignore (dirs ++ [name]) w) = Ok (protected_name dirs name).
Proof. by rewrite must_ignore_outcome, ignored_by_name. Qed.

(** C8, the code at the failing input: OWNERS and Android.bp at the top
    level of the imported tree are not skipped, while the same names one
    directory down are, and so are METADATA and a MODULE_LICENSE file at
    the top level and further down. *)
Theorem must_ignore_top_level_owners :
  outcome_of (must_ignore [lit "OWNERS"] empty_world) = Ok false
  /\ outcome_of (must_ignore [lit "Android.bp"] empty_world) = Ok false
  /\ outcome_of (must_ignore [lit "sub"; lit "OWNERS"] empty_world) = Ok true
  /\ outcome_of (must_ignore [lit "sub"; lit "Android.bp"] empty_world) = Ok true
  /\ outcome_of (must_ignore [lit "METADATA"] empty_world) = Ok true
  /\ outcome_of (must_ignore [lit "MODULE_LICENSE_MIT"] empty_world) = Ok true
  /\ outcome_of (must_ignore [lit "sub"; lit "dir"; lit "METADATA"] empty_world)
     = Ok true.
Proof. by vm_compute. Qed.

End ProtectedClaims.

(** ** Running the monad *)

Section MonadFacts.

Lemma bind_Ok {A B} (m : M A) (f : A -> M B) w a w' :
  m w = (Ok a, w') -> bind m f w = f a w'.
Proof. unfold bind. by intros ->. Qed.

Lemma bind_Exit {A B} (m : M A) (f : A -> M B) w msg w' :
  m w = (Exit msg, w') -> bind m f w = (Exit msg, w').
Proof. unfold bind. by intros ->. Qed.

Lemma bind_Raise {A B} (m : M A) (f : A -> M B) w e w' :
  m w = (Raise e, w') -> bind m f w = (Raise e, w').
Proof. unfold bind. by intros ->. Qed.

Lemma events_since_log w e : events_since w (log e w) = [e].
Proof. unfold events_since, log. simpl. by rewrite drop_app_length. Qed.

Lemma events_since_app w w' l :
  events w' = events w ++ l -> events_since w w' = l.
Proof. unfold events_since. intros ->. by rewrite drop_app_length. Qed.

End MonadFacts.

(** ** Checkouts *)

Section Clone.
Import PurePath.
Variable E : environment.

Lemma path_exists_mkdir b p w :
  path_exists b w = true -> path_exists b (world_of (mkdir p w)) = true.
Proof.
  unfold path_exists, mkdir, world_of. simpl.
  intros [H|H]%orb_true_iff; apply orb_true_iff; [left|by right].
  apply bool_decide_eq_true in H. apply bool_decide_eq_true. set_solver.
Qed.

Lemma path_exists_rmtree b w : path_exists b (world_of (rmtree b w)) = false.
Proof.
  unfold path_exists, rmtree, world_of. simpl. apply orb_false_iff; split.
  - apply bool_decide_eq_false. rewrite elem_of_filter. by intros [H _].
  - apply bool_decide_eq_false. intros [x Hx].
    apply map_lookup_filter_Some in Hx as [_ Hx]. by apply Hx.
Qed.

End Clone.

Section CloneClaims.
Import PurePath.
Variable E : environment.




End CloneClaims.


(** ** Naming a revision *)

Section RefNameClaims.

(** C5, the code at the failing input: when git describe finds no name
    it prints nothing on its standard output, whatever its return code,
    and [git_ref_name_for_version] then raises IndexError where it takes
    the first line; it does not return [None]. *)
Theorem git_ref_name_for_version_no_output
    (rc : Z) (trees : path -> gmap path str) (today : date)
    (self : GitRepo) (revision : str) (w : world) :
  outcome_of (git_ref_name_for_version
                (Environment (fun _ => Completed rc []) trees today)
                self revision w)
  = Raise IndexError.
Proof. reflexivity. Qed.

(** A name that is neither a tag nor a branch does give [None], and the
    caller then uses the commit id. *)
Lemma git_ref_name_for_version_other_ref
    (trees : path -> gmap path str) (today : date) (self : GitRepo)
    (revision hash : str) (w : world) :
  let E := Environment (fun _ => Completed 0 (lit "remotes/origin/main" ++ [nl]))
                       trees today in
  outcome_of (git_ref_name_for_version E self revision w) = Ok None
  /\ py_or None hash = hash.
Proof. split; reflexivity. Qed.

End RefNameClaims.

(** ** The deletion and the copy *)

Section Files.
Import PurePath.
Variable E : environment.

Lemma set_files_id f w : f (files w) = files w -> set_files f w = w.
Proof. destruct w. unfold set_files. simpl. by intros ->. Qed.

Lemma must_ignore_run p w :
  must_ignore p w = (Ok (ignored p), if ignored p then log notice w else w).
Proof. unfold must_ignore, when, bind, print, emit, ret, notice. by destruct (ignored p). Qed.

Lemma unlink_missing_ok q w :
  unlink q true w = (Ok tt, set_files (delete q) (log (Unlink q) w)).
Proof.
  unfold unlink, bind, emit, get, modify, ret. simpl.
  case_bool_decide as H; [done|].
  rewrite set_files_id; [done|]. simpl. apply delete_id.
  by apply eq_None_not_Some.
Qed.

Lemma remove_events_cons target p l :
  remove_events target (p :: l)
  = (if ignored p then notice else Unlink (joinpath target p))
    :: remove_events target l.
Proof. done. Qed.

Lemma unlinked_cons target p l :
  unlinked target (p :: l)
  = if ignored p then unlinked target l
    else joinpath target p :: unlinked target l.
Proof.
  unfold unlinked. rewrite filter_cons.
  destruct (ignored p); [by rewrite decide_False | by rewrite decide_True].
Qed.

Lemma remove_loop target l w :
  exists w',
    for_each l (fun p =>
      do skip <- must_ignore p;
      if skip then ret tt else unlink (joinpath target p) true) w = (Ok tt, w')
    /\ events w' = events w ++ remove_events target l
    /\ files w' = unlink_all (unlinked target l) (files w).
Proof.
  revert w; induction l as [|p l IH]; intros w.
  - exists w. by rewrite app_nil_r.
  - cbn [for_each]. unfold bind at 1. unfold bind at 1.
    rewrite must_ignore_run, remove_events_cons, unlinked_cons.
    destruct (ignored p) eqn:Hp.
    + destruct (IH (log notice w)) as (w' & Hrun & Hev & Hf).
      exists w'. split; [exact Hrun|]. rewrite Hev, Hf. simpl.
      by rewrite <- app_assoc.
    + rewrite unlink_missing_ok.
      destruct (IH (set_files (delete (joinpath target p)) (log (Unlink (joinpath target p)) w)))
        as (w' & Hrun & Hev & Hf).
      exists w'. split; [exact Hrun|]. rewrite Hev, Hf. simpl.
      by rewrite <- app_assoc.
Qed.

Lemma remove_old_run target old new w :
  let l := elements (list_to_set old ∖ list_to_set new : gset path) in
  exists w',
    remove_old target old new w = (Ok tt, w')
    /\ events w' = events w ++ remove_events target l
    /\ files w' = unlink_all (unlinked target l) (files w).
Proof. apply remove_loop. Qed.

Lemma guarded_run (body : M unit) p w :
  (do skip <- must_ignore p; if skip then ret tt else body) w
  = if ignored p then (Ok tt, log notice w) else body w.
Proof. unfold bind. rewrite must_ignore_run. by destruct (ignored p). Qed.

(** One file of the copy loop. *)
Lemma copy_one tg ng target p w :
  let dst := joinpath target p in
  let w1 := log (Copy (joinpath (base ng) p) dst)
              (set_existing (fun d => d ∪ list_to_set (ancestors (parent dst)))
                 (log (Mkdir (parent dst)) w)) in
  (mkdir (parent dst) >> shutil_copy E (base ng) p dst >> add E tg dst) w
  = match checkout E (base ng) !! p with
    | None => (Raise FileNotFoundError, w1)
    | Some text =>
        let w2 := log (Run (add_cmd tg dst)) (set_files (insert dst text) w1) in
        if (returncode (process E (add_cmd tg dst)) =? 0)%Z
        then (Ok tt, w2) else (Raise CalledProcessError, w2)
    end.
Proof.
  unfold mkdir, shutil_copy, add, _git, subprocess_run, bind, emit, modify,
    raise, ret. simpl.
  destruct (checkout E (base ng) !! p) as [text|]; simpl; [|done].
  unfold add_cmd. simpl.
  by match goal with |- context [(?a =? 0)%Z] => destruct (a =? 0)%Z end.
Qed.

Lemma copy_loop tg ng target l w :
  let plan := copy_plan E tg ng target l in
  exists w',
    copy_new E tg ng target l w = (plan.1.1, w')
    /\ events w' = events w ++ plan.1.2
    /\ files w' = write_all plan.2 (files w).
Proof.
  unfold copy_new.
  revert w; induction l as [|p l IH]; intros w.
  - exists w. by rewrite app_nil_r.
  - cbn [for_each copy_plan]. unfold bind at 1.
    rewrite guarded_run.
    destruct (ignored p) eqn:Hp.
    + destruct (IH (log notice w)) as (w' & Hrun & Hev & Hf).
      exists w'. split; [exact Hrun|]. rewrite Hev, Hf. simpl.
      by rewrite <- app_assoc.
    + rewrite copy_one.
      destruct (checkout E (base ng) !! p) as [text|] eqn:Hc; cbn zeta.
      * destruct (returncode (process E (add_cmd tg (joinpath target p))) =? 0)%Z
          eqn:Hrc.
        -- match goal with
           | |- context [for_each l ?body ?w0] => destruct (IH w0) as (w' & Hrun & Hev & Hf)
           end.
           exists w'. split; [exact Hrun|]. rewrite Hev, Hf. simpl.
           by rewrite <- !app_assoc.
        -- eexists. split; [done|]. simpl. by rewrite <- !app_assoc.
      * eexists. split; [done|]. simpl. by rewrite <- !app_assoc.
Qed.

End Files.

Section FileMaps.
Import PurePath.

Lemma lookup_unlink_all (qs : list path) (m : gmap path str) (q : path) :
  unlink_all qs m !! q = if bool_decide (q ∈ qs) then None else m !! q.
Proof.
  revert m; induction qs as [|q0 qs IH]; intros m.
  - by rewrite bool_decide_eq_false_2 by apply not_elem_of_nil.
  - cbn [unlink_all foldl]. fold (unlink_all qs (delete q0 m)). rewrite IH.
    destruct (decide (q ∈ qs)) as [Hq|Hq].
    + by rewrite !bool_decide_eq_true_2 by (try right; done).
    + rewrite (bool_decide_eq_false_2 _ Hq).
      destruct (decide (q = q0)) as [->|Hne].
      * rewrite bool_decide_eq_true_2 by left. apply lookup_delete_eq.
      * rewrite bool_decide_eq_false_2 by (intros [->|?]%elem_of_cons; done).
        by apply lookup_delete_ne.
Qed.

Lemma write_all_cons (k : path) (v : str) (ws : list (path * str))
    (m : gmap path str) :
  write_all ((k, v) :: ws) m = write_all ws (<[k:=v]> m).
Proof. done. Qed.



Lemma lookup_write_all_other (ws : list (path * str)) (m : gmap path str) (q : path) :
  q ∉ ws.*1 -> write_all ws m !! q = m !! q.
Proof.
  revert m; induction ws as [|[k v] ws IH]; intros m Hq; [done|].
  rewrite write_all_cons, IH by (intros ?; apply Hq; by right).
  apply lookup_insert_ne. intros ->. apply Hq. by left.
Qed.

End FileMaps.

Section SyncClaims.
Import PurePath.
Variable E : environment.

Lemma remove_events_unlink target (l : list path) (q : path) :
  Unlink q ∈ remove_events target l <-> q ∈ unlinked target l.
Proof.
  induction l as [|p l IH].
  - split; intros H; by apply elem_of_nil in H.
  - rewrite remove_events_cons, unlinked_cons, elem_of_cons.
    unfold notice. destruct (ignored p).
    + rewrite IH. split; [by intros [?|?] | by right].
    + rewrite elem_of_cons, IH.
      split; (intros [H|H]; [left; congruence | by right]).
Qed.

Lemma remove_events_no_copy target (l : list path) src dst :
  Copy src dst ∉ remove_events target l.
Proof.
  induction l as [|p l IH]; [apply not_elem_of_nil|].
  rewrite remove_events_cons, elem_of_cons. unfold notice.
  by destruct (ignored p); intros [?|?].
Qed.

Lemma elem_of_unlinked target (l : list path) (q : path) :
  q ∈ unlinked target l
  <-> exists p, q = joinpath target p /\ p ∈ l /\ ignored p = false.
Proof.
  unfold unlinked. rewrite list_elem_of_fmap.
  split; intros (p & Hq & Hp); exists p.
  - apply list_elem_of_filter in Hp as [? ?]. done.
  - split; [done|]. apply list_elem_of_filter. tauto.
Qed.

Lemma copy_event_mono tg ng target p (l : list path) e :
  copy_event tg ng target l e -> copy_event tg ng target (p :: l) e.
Proof.
  intros [->|(p' & Hin & Hp & He)]; [by left|].
  right. exists p'. split; [by right|done].
Qed.

Lemma copy_plan_events tg ng target (l : list path) :
  Forall (copy_event tg ng target l) (copy_plan E tg ng target l).1.2.
Proof.
  induction l as [|p l IH]; [constructor|].
  pose proof (Forall_impl _ _ _ IH (copy_event_mono tg ng target p l)) as IH'.
  clear IH.
  assert (forall e, e ∈ [Mkdir (parent (joinpath target p));
                         Copy (joinpath (base ng) p) (joinpath target p);
                         Run (add_cmd tg (joinpath target p))] ->
                    ignored p = false -> copy_event tg ng target (p :: l) e) as Hmine.
  { intros e He Hp. right. exists p. split; [by left|]. split; [done|].
    repeat (apply elem_of_cons in He as [He|He]; [tauto|]).
    by apply elem_of_nil in He. }
  cbn [copy_plan].
  destruct (ignored p) eqn:Hp; simpl.
  { constructor; [by left|done]. }
  destruct (checkout E (base ng) !! p); [destruct (_ =? _)%Z|]; simpl.
  - repeat (constructor; [apply Hmine; [|done]; repeat constructor|]). done.
  - repeat (constructor; [apply Hmine; [|done]; repeat constructor|]). constructor.
  - repeat (constructor; [apply Hmine; [|done]; repeat constructor|]). constructor.
Qed.

Lemma copy_plan_no_unlink tg ng target (l : list path) (q : path) :
  Unlink q ∉ (copy_plan E tg ng target l).1.2.
Proof.
  intros H. pose proof (copy_plan_events tg ng target l) as Hall.
  rewrite Forall_forall in Hall. destruct (Hall _ H) as [?|(p & _ & _ & [?|[?|?]])];
    discriminate.
Qed.

Lemma copy_plan_copies tg ng target (l : list path) src (dst : path) :
  Copy src dst ∈ (copy_plan E tg ng target l).1.2 ->
  exists p, dst = joinpath target p /\ p ∈ l /\ ignored p = false.
Proof.
  intros H. pose proof (copy_plan_events tg ng target l) as Hall.
  rewrite Forall_forall in Hall.
  destruct (Hall _ H) as [?|(p & Hin & Hp & [?|[He|?]])]; try discriminate.
  injection He as _ ->. by exists p.
Qed.

Lemma copy_plan_writes tg ng target (l : list path) :
  Forall (fun kv => exists p, kv.1 = joinpath target p /\ p ∈ l /\ ignored p = false)
         (copy_plan E tg ng target l).2.
Proof.
  induction l as [|p l IH]; [constructor|].
  assert (Forall (fun kv : path * str =>
            exists p', kv.1 = joinpath target p' /\ p' ∈ p :: l /\ ignored p' = false)
            (copy_plan E tg ng target l).2) as IH'.
  { eapply Forall_impl; [exact IH|].
    intros kv (p' & ? & ? & ?); exists p'; split; [done|split; [by right|done]]. }
  clear IH.
  cbn [copy_plan].
  destruct (ignored p) eqn:Hp; simpl; [done|].
  destruct (checkout E (base ng) !! p); [destruct (_ =? _)%Z|]; simpl.
  - constructor; [|done]. exists p. split; [done|split; [by left|done]].
  - constructor; [|constructor]. exists p. split; [done|split; [by left|done]].
  - constructor.
Qed.

(** The whole step, run from [w]. *)
Lemma sync_run tg ng target old new w :
  let l := elements (list_to_set old ∖ list_to_set new : gset path) in
  let plan := copy_plan E tg ng target new in
  exists w',
    sync E tg ng target old new w = (plan.1.1, w')
    /\ events_since w w' = remove_events target l ++ plan.1.2
    /\ files w' = write_all plan.2 (unlink_all (unlinked target l) (files w)).
Proof.
  intros l plan. unfold sync.
  destruct (remove_old_run target old new w) as (w1 & Hrun1 & Hev1 & Hf1).
  destruct (copy_loop E tg ng target new w1) as (w2 & Hrun2 & Hev2 & Hf2).
  exists w2. rewrite (bind_Ok _ _ _ _ _ Hrun1). split; [exact Hrun2|]. split.
  - apply events_since_app. by rewrite Hev2, Hev1, <- app_assoc.
  - by rewrite Hf2, Hf1.
Qed.

Lemma elem_of_removed (old new : list path) (p : path) :
  p ∈ elements (list_to_set old ∖ list_to_set new : gset path)
  <-> p ∈ old /\ (p ∉ new).
Proof.
  rewrite elem_of_elements, elem_of_difference, !elem_of_list_to_set. tauto.
Qed.

Lemma written_key tg ng target (l : list path) (q : path) :
  q ∈ (copy_plan E tg ng target l).2.*1 ->
  exists p, q = joinpath target p /\ p ∈ l /\ ignored p = false.
Proof.
  intros (kv & -> & Hkv)%list_elem_of_fmap.
  pose proof (copy_plan_writes tg ng target l) as Hall.
  rewrite Forall_forall in Hall. by apply Hall.
Qed.

Lemma joinpath_inj (target p q : path) :
  joinpath target p = joinpath target q -> p = q.
Proof. apply app_inv_head. Qed.

(** The step unlinks exactly the paths of the old file set that the new
    file set lacks and that [must_ignore] does not skip; a path that
    [must_ignore] skips is neither unlinked nor the target of a copy, and
    the file at it is what it was, whatever the two file sets hold. *)
Lemma sync_deletes_old_minus_new
    (tg ng : GitRepo) (target : path) (old new : list path) (w : world) :
  let w' := world_of (sync E tg ng target old new w) in
  (forall q : path,
     Unlink q ∈ events_since w w'
     <-> exists p, q = joinpath target p /\ p ∈ old /\ (p ∉ new) /\ ignored p = false)
  /\ (forall p : path,
        ignored p = true ->
        (Unlink (joinpath target p) ∉ events_since w w')
        /\ (forall src, Copy src (joinpath target p) ∉ events_since w w')
        /\ files w' !! joinpath target p = files w !! joinpath target p).
Proof.
  destruct (sync_run tg ng target old new w) as (w' & Hrun & Hev & Hf).
  rewrite Hrun. unfold world_of. cbn [snd]. rewrite Hev.
  assert (forall q : path,
            Unlink q ∈ remove_events target
                         (elements (list_to_set old ∖ list_to_set new : gset path))
                       ++ (copy_plan E tg ng target new).1.2
            <-> exists p, q = joinpath target p /\ p ∈ old /\ (p ∉ new)
                          /\ ignored p = false) as Hunlink.
  { intros q. rewrite elem_of_app, remove_events_unlink, elem_of_unlinked.
    split.
    - intros [(p & -> & Hp & Hi)|H]; [|by apply copy_plan_no_unlink in H].
      apply elem_of_removed in Hp as [? ?]. by exists p.
    - intros (p & -> & Ho & Hn & Hi). left. exists p.
      split; [done|]. split; [by apply elem_of_removed|done]. }
  split; [exact Hunlink|].
  intros p Hp. split_and!.
  - rewrite Hunlink. intros (p' & Heq & _ & _ & Hi).
    apply joinpath_inj in Heq as <-. congruence.
  - intros src [H|H]%elem_of_app.
    + by apply remove_events_no_copy in H.
    + apply copy_plan_copies in H as (p' & Heq & _ & Hi).
      apply joinpath_inj in Heq as <-. congruence.
  - rewrite Hf, lookup_write_all_other, lookup_unlink_all.
    + rewrite bool_decide_eq_false_2; [done|].
      intros (p' & Heq & _ & Hi)%elem_of_unlinked.
      apply joinpath_inj in Heq as <-. congruence.
    + intros (p' & Heq & _ & Hi)%written_key.
      apply joinpath_inj in Heq as <-. congruence.
Qed.


Lemma bind_inv_Ok {A B} (m : M A) (f : A -> M B) w b w' :
  bind m f w = (Ok b, w') -> exists a w1, m w = (Ok a, w1) /\ f a w1 = (Ok b, w').
Proof.
  unfold bind. destruct (m w) as [[a|msg|e] w1]; [eauto|done|done].
Qed.



End SyncClaims.

(** ** The matcher *)

Section Matcher.
Import Re.

Lemma star_unfold {R} p pat (k : str -> option R) s :
  rmatch (Star p :: pat) k s =
  match s with
  | a :: s' =>
      if p a then
        match rmatch (Star p :: pat) k s' with
        | Some r => Some r
        | None => rmatch pat k s
        end
      else rmatch pat k s
  | [] => rmatch pat k []
  end.
Proof. by destruct s. Qed.

Lemma rmatch_app {R} p1 p2 (k : str -> option R) s :
  rmatch (p1 ++ p2) k s = rmatch p1 (rmatch p2 k) s.
Proof.
  revert s; induction p1 as [|[c|p|p] p1 IH]; intros s; [done|..].
  - cbn [app rmatch]. destruct s as [|a s]; [done|]. by rewrite IH.
  - cbn [app rmatch]. destruct s as [|a s]; [done|]. by rewrite IH.
  - change ((Star p :: p1) ++ p2) with (Star p :: (p1 ++ p2)).
    induction s as [|a s IHs].
    + rewrite !(star_unfold _ _ _ []). apply IH.
    + rewrite !(star_unfold _ _ _ (a :: s)), IHs, IH. done.
Qed.

Lemma rmatch_lits {R} l pat (k : str -> option R) s :
  rmatch ((Chr <$> l) ++ pat) k s =
  match strip_prefix l s with
  | Some r => rmatch pat k r
  | None => None
  end.
Proof.
  revert s; induction l as [|c l IH]; intros s; [done|].
  cbn [fmap list_fmap app rmatch strip_prefix].
  destruct s as [|a s]; [done|].
  rewrite (Ascii.eqb_sym a c). destruct (Ascii.eqb c a); [apply IH|done].
Qed.

(** A star is deterministic when what follows it cannot start with a
    character of its class. *)
Lemma rmatch_star {R} p pat (k : str -> option R) s :
  (forall a s', p a = true -> rmatch pat k (a :: s') = None) ->
  rmatch (Star p :: pat) k s = rmatch pat k (drop_while p s).
Proof.
  intros Hk. induction s as [|a s IH]; [done|].
  rewrite star_unfold. cbn [drop_while].
  destruct (p a) eqn:Hp; [|done].
  rewrite IH. destruct (rmatch pat k (drop_while p s)) eqn:Hm; [done|].
  by apply Hk.
Qed.

Lemma drop_while_app p body a s :
  forallb p body = true -> p a = false ->
  drop_while p (body ++ a :: s) = a :: s.
Proof.
  intros Hb Ha. induction body as [|b body IH]; simpl in *.
  - by rewrite Ha.
  - apply andb_true_iff in Hb as [-> Hb]. by apply IH.
Qed.

Lemma drop_while_split p s :
  exists body, s = body ++ drop_while p s /\ forallb p body = true.
Proof.
  induction s as [|a s (body & Hs & Hb)]; [by exists []|].
  simpl. destruct (p a) eqn:Hp.
  - exists (a :: body). simpl. by rewrite Hp, Hb, <- Hs.
  - by exists [].
Qed.

Lemma drop_while_head p s a s' : drop_while p s = a :: s' -> p a = false.
Proof.
  induction s as [|b s IH]; [done|]. simpl.
  destruct (p b) eqn:Hp; [done|]. by intros [= <- _].
Qed.

Lemma not_char_all c body :
  forallb (not_char c) body = true <-> c ∉ body.
Proof.
  induction body as [|b body IH]; simpl.
  - split; [intros _; apply not_elem_of_nil|done].
  - rewrite andb_true_iff, IH, not_elem_of_cons. unfold not_char.
    rewrite negb_true_iff. split; intros [H ?]; split; try done.
    + intros ->. by rewrite Ascii.eqb_refl in H.
    + apply Ascii.eqb_neq. congruence.
Qed.

(** Matching a field pattern: the opening, then everything up to the
    first closing character. *)
Lemma rmatch_field {R} opening c (k : str -> option R) s :
  rmatch (field_pattern opening c) k s =
  match strip_prefix opening s with
  | Some r =>
      match drop_while (not_char c) r with
      | _ :: rest => k rest
      | [] => None
      end
  | None => None
  end.
Proof.
  unfold field_pattern. rewrite rmatch_lits.
  destruct (strip_prefix opening s) as [r|]; [|done].
  rewrite rmatch_star.
  - cbn [rmatch]. destruct (drop_while (not_char c) r) as [|a rest] eqn:Hd; [done|].
    apply drop_while_head in Hd. unfold not_char in Hd.
    apply negb_false_iff in Hd. by rewrite Hd.
  - intros a s' Ha. cbn [rmatch]. unfold not_char in Ha.
    apply negb_true_iff in Ha. by rewrite Ha.
Qed.

Lemma upto_app (a r : str) : upto (a ++ r) r = a.
Proof.
  unfold upto. rewrite length_app.
  replace (length a + length r - length r) with (length a) by lia.
  apply take_app_length.
Qed.

Lemma upto_self (r : str) : upto r r = [].
Proof. unfold upto. by rewrite Nat.sub_diag. Qed.

Lemma field_at_Some opening c s body rest :
  field_at opening c s = Some (body, rest)
  <-> s = opening ++ body ++ c :: rest /\ c ∉ body.
Proof.
  unfold field_at. split.
  - destruct (strip_prefix opening s) as [r|] eqn:Hs; [|done].
    apply strip_prefix_Some in Hs as ->.
    destruct (drop_while_split (not_char c) r) as (b & Hr & Hb).
    destruct (drop_while (not_char c) r) as [|a rest'] eqn:Hd; [done|].
    intros [= <- <-]. rewrite Hr, upto_app.
    apply drop_while_head in Hd. unfold not_char in Hd.
    apply negb_false_iff, Ascii.eqb_eq in Hd as ->.
    split; [done|]. by apply not_char_all.
  - intros [-> Hb]. rewrite strip_prefix_app.
    apply not_char_all in Hb.
    rewrite drop_while_app; [|done|unfold not_char; by rewrite Ascii.eqb_refl].
    by rewrite upto_app.
Qed.

Lemma rmatch_nil {R} (k : str -> option R) s : rmatch [] k s = k s.
Proof. done. Qed.

Lemma rmatch_chr {R} c (k : str -> option R) s :
  rmatch [Chr c] k s =
  match s with
  | a :: s' => if Ascii.eqb a c then k s' else None
  | [] => None
  end.
Proof. by destruct s. Qed.

Lemma match_at_field_gpattern opening c s :
  match_at (field_gpattern opening c) s =
  (fun br => RMatched (opening ++ br.1 ++ [c]) br.1 br.2) <$> field_at opening c s.
Proof.
  assert (forall (R : Type) (k : str -> option R) a s',
            not_char c a = true -> rmatch [] (rmatch [Chr c] k) (a :: s') = None)
    as Hstop.
  { intros R k a s' Ha. rewrite rmatch_nil, rmatch_chr. unfold not_char in Ha.
    apply negb_true_iff in Ha. by rewrite Ha. }
  unfold match_at, field_gpattern. cbn [before group1 after].
  rewrite <- (app_nil_r (Chr <$> opening)), rmatch_lits.
  destruct (field_at opening c s) as [[body rest']|] eqn:Hf.
  - apply field_at_Some in Hf as [-> Hb]. apply not_char_all in Hb.
    rewrite strip_prefix_app, rmatch_nil.
    rewrite (rmatch_star _ [] (fun s2 => rmatch [Chr c] _ s2))
      by (intros; by apply Hstop).
    rewrite drop_while_app; [|done|unfold not_char; by rewrite Ascii.eqb_refl].
    rewrite rmatch_nil, rmatch_chr, Ascii.eqb_refl. simpl. f_equal.
    rewrite upto_app.
    replace (opening ++ body ++ c :: rest') with ((opening ++ body ++ [c]) ++ rest')
      by (by rewrite <- !app_assoc).
    by rewrite upto_app.
  - unfold field_at in Hf.
    destruct (strip_prefix opening s) as [r|]; [|done].
    rewrite rmatch_nil.
    rewrite (rmatch_star _ [] (fun s2 => rmatch [Chr c] _ s2))
      by (intros; by apply Hstop).
    by destruct (drop_while (not_char c) r) as [|a rest'] eqn:Hd.
Qed.

Lemma match_at_field_pattern opening c s :
  match_at (plain (field_pattern opening c)) s =
  (fun br => RMatched (opening ++ br.1 ++ [c]) [] br.2) <$> field_at opening c s.
Proof.
  unfold match_at, plain. cbn [before group1 after rmatch].
  rewrite rmatch_field. unfold field_at.
  destruct (strip_prefix opening s) as [r|] eqn:Hs; [|done].
  apply strip_prefix_Some in Hs as ->.
  destruct (drop_while_split (not_char c) r) as (b & Hr & Hb).
  destruct (drop_while (not_char c) r) as [|a rest'] eqn:Hd; [done|].
  simpl. f_equal. rewrite upto_self. f_equal.
  apply drop_while_head in Hd. unfold not_char in Hd.
  apply negb_false_iff, Ascii.eqb_eq in Hd as ->.
  rewrite Hr, upto_app.
  replace (opening ++ b ++ c :: rest') with ((opening ++ b ++ [c]) ++ rest')
    by (by rewrite <- !app_assoc).
  by rewrite upto_app.
Qed.

End Matcher.

(** ** Reading the record *)

Section Record.
Import Re.

Lemma read_content_run w text :
  record_of w = Some text ->
  _read_content w = (Ok tt, set_meta (set_content text) w)
  \/ (_read_content w = (Ok tt, w) /\ _content (meta w) = Some text).
Proof.
  unfold record_of, _read_content, bind, get, modify, ret.
  destruct (_content (meta w)) as [t|] eqn:Hc.
  - intros [= ->]. by right.
  - destruct (files w !! _metadata_path (meta w)) as [raw|]; [|done].
    intros [= <-]. by left.
Qed.

(** After [_read_content] the object holds the text; nothing else has
    changed. *)
Lemma read_content_then {A} (k : str -> M A) w text :
  record_of w = Some text ->
  exists w1,
    (_read_content >> do text <- content; k text) w = k text w1
    /\ files w1 = files w /\ events w1 = events w /\ existing w1 = existing w
    /\ _content (meta w1) = Some text
    /\ _url (meta w1) = _url (meta w) /\ _paths (meta w1) = _paths (meta w)
    /\ _metadata_path (meta w1) = _metadata_path (meta w).
Proof.
  intros Hr. destruct (read_content_run w text Hr) as [Hrun|[Hrun Hc]].
  - exists (set_meta (set_content text) w).
    rewrite (bind_Ok _ _ _ _ _ Hrun). split; [|done].
    unfold content, bind, get. by simpl.
  - exists w. rewrite (bind_Ok _ _ _ _ _ Hrun). split; [|done].
    unfold content, bind, get. simpl. by rewrite Hc.
Qed.

Lemma search_first p s i m :
  (forall j, j < i -> match_at p (drop j s) = None) ->
  match_at p (drop i s) = Some m ->
  search p s = Some m.
Proof.
  revert s; induction i as [|i IH]; intros s Hno Hm.
  - destruct s; simpl in *; by rewrite Hm.
  - pose proof (Hno 0 ltac:(lia)) as H0. rewrite drop_0 in H0.
    destruct s as [|a s]; [simpl in Hm; congruence|].
    cbn [search]. rewrite H0. apply IH; [|done].
    intros j Hj. apply (Hno (S j)). lia.
Qed.

Lemma version_pattern_is_field :
  VERSION_PATTERN = field_gpattern VERSION_OPENING dq.
Proof. reflexivity. Qed.

Lemma match_at_version s :
  match_at VERSION_PATTERN s =
  (fun br => RMatched (version_field br.1) br.1 br.2)
    <$> field_at VERSION_OPENING dq s.
Proof. rewrite version_pattern_is_field. apply match_at_field_gpattern. Qed.

Lemma version_at_field text i v :
  version_at text i v
  <-> exists post, field_at VERSION_OPENING dq (drop i text) = Some (v, post).
Proof.
  unfold version_at. split; intros (post & H); exists post.
  - apply field_at_Some. destruct H as [-> Hv]. split; [|done].
    unfold version_field, VERSION_OPENING. by rewrite <- !app_assoc.
  - apply field_at_Some in H as [-> Hv]. split; [|done].
    unfold version_field, VERSION_OPENING. by rewrite <- !app_assoc.
Qed.

(** C10: [current_version] returns the version of the first version field
    of the record, whatever follows it. *)
Theorem current_version_first_occurrence
    (w : world) (text : str) (i : nat) (v : str) :
  record_of w = Some text ->
  version_at text i v ->
  (forall j u, j < i -> ~ version_at text j u) ->
  outcome_of (current_version w) = Ok v.
Proof.
  intros Hr Hat Hfirst. unfold current_version.
  destruct (read_content_then
              (fun text => match search VERSION_PATTERN text with
                           | Some m => ret (grp1 m)
                           | None => do m <- get meta;
                                     sys_exit (current_version_msg (_metadata_path m))
                           end) w text Hr) as (w1 & -> & _).
  apply version_at_field in Hat as (post & Hat).
  rewrite (search_first VERSION_PATTERN text i (RMatched (version_field v) v post)).
  - done.
  - intros j Hj. rewrite match_at_version.
    destruct (field_at VERSION_OPENING dq (drop j text)) as [[u post']|] eqn:Hf; [|done].
    exfalso. apply (Hfirst j u Hj). apply version_at_field. eauto.
  - by rewrite match_at_version, Hat.
Qed.

End Record.

(** ** Scanning a text for matches *)

Section Scan.
Import Re.

Lemma rmatch_suffix {R} pat (k : str -> option R) s r :
  rmatch pat k s = Some r -> exists pre s', s = pre ++ s' /\ k s' = Some r.
Proof.
  revert s; induction pat as [|[c|p|p] pat IH]; intros s.
  - intros H. by exists [], s.
  - cbn [rmatch]. destruct s as [|a s]; [done|].
    destruct (Ascii.eqb a c); [|done].
    intros (pre & s' & -> & Hk)%IH. by exists (a :: pre), s'.
  - cbn [rmatch]. destruct s as [|a s]; [done|].
    destruct (p a); [|done].
    intros (pre & s' & -> & Hk)%IH. by exists (a :: pre), s'.
  - induction s as [|a s IHs]; rewrite star_unfold; [apply IH|].
    destruct (p a); [|apply IH].
    destruct (rmatch (Star p :: pat) k s) as [r'|] eqn:Hs; [|apply IH].
    intros [= ->]. destruct (IHs eq_refl) as (pre & s' & -> & Hk).
    by exists (a :: pre), s'.
Qed.

Lemma match_at_split p s m : match_at p s = Some m -> s = group0 m ++ rest m.
Proof.
  unfold match_at.
  intros (pre1 & s1 & -> & (pre2 & s2 & -> & (pre3 & s3 & -> & [= <-])%rmatch_suffix)
            %rmatch_suffix)%rmatch_suffix.
  simpl. by rewrite !app_assoc, upto_app.
Qed.

Lemma sub_go_skip p t k s :
  k <= length s -> sub_go p t k s = sub_go p t 0 (drop k s).
Proof.
  revert k; induction s as [|a s IH]; intros [|k] Hk; simpl in *; try done; try lia.
  apply IH. lia.
Qed.

Lemma sub_go_match p t s m :
  match_at (plain p) s = Some m -> group0 m <> [] ->
  sub_go p t 0 s = expand t (group0 m) ++ sub_go p t 0 (rest m).
Proof.
  intros Hm Hne. pose proof (match_at_split _ _ _ Hm) as Hs.
  destruct (group0 m) as [|a m'] eqn:Hg; [done|].
  rewrite Hs. cbn [app sub_go]. rewrite <- Hs at 1. rewrite Hm, Hg. f_equal.
  rewrite sub_go_skip by (rewrite length_app; lia).
  by rewrite drop_app_length.
Qed.

Lemma sub_go_nomatch p t a s :
  match_at (plain p) (a :: s) = None ->
  sub_go p t 0 (a :: s) = a :: sub_go p t 0 s.
Proof. intros H. cbn [sub_go]. by rewrite H. Qed.

Lemma sub_go_end p t : match_at (plain p) [] = None -> sub_go p t 0 [] = [].
Proof. intros H. cbn [sub_go]. by rewrite H. Qed.

Lemma finditer_go_skip p k s :
  k <= length s -> finditer_go p k s = finditer_go p 0 (drop k s).
Proof.
  revert k; induction s as [|a s IH]; intros [|k] Hk; simpl in *; try done; try lia.
  apply IH. lia.
Qed.

Lemma finditer_go_match p s m :
  match_at p s = Some m -> group0 m <> [] ->
  finditer_go p 0 s = m :: finditer_go p 0 (rest m).
Proof.
  intros Hm Hne. pose proof (match_at_split _ _ _ Hm) as Hs.
  destruct (group0 m) as [|a m'] eqn:Hg; [done|].
  rewrite Hs. cbn [app finditer_go]. rewrite <- Hs at 1. rewrite Hm, Hg. f_equal.
  replace (length (a :: m') - 1) with (length m') by (simpl; lia).
  rewrite finditer_go_skip by (rewrite length_app; lia).
  by rewrite drop_app_length.
Qed.

Lemma finditer_go_nomatch p a s :
  match_at p (a :: s) = None ->
  finditer_go p 0 (a :: s) = finditer_go p 0 s.
Proof. intros H. cbn [finditer_go]. by rewrite H. Qed.

End Scan.

(** ** Rewriting the record *)

Section Rewrite.
Import Re Template.

Lemma parse_go_literal repl :
  forallb (not_char backslash) repl = true ->
  parse_go 0 repl = Ok ((fun a => TLit [a]) <$> repl).
Proof.
  induction repl as [|a repl IH]; [done|]. simpl.
  intros [Ha Hr]%andb_true_iff. unfold not_char in Ha.
  apply negb_true_iff in Ha. rewrite Ha, (IH Hr). done.
Qed.

Lemma expand_literal repl m : expand ((fun a => TLit [a]) <$> repl) m = repl.
Proof.
  induction repl as [|a repl IH]; [done|].
  unfold expand in *. rewrite !fmap_cons, concat_cons. by rewrite IH.
Qed.

Lemma re_sub_literal p repl s :
  forallb (not_char backslash) repl = true ->
  re_sub p repl s = Ok (sub_go p ((fun a => TLit [a]) <$> repl) 0 s).
Proof. intros H. unfold re_sub, parse_template. by rewrite parse_go_literal. Qed.

Lemma field_nonempty (opening body : str) (c : ascii) :
  opening ++ body ++ [c] <> [].
Proof. by destruct opening, body. Qed.

Lemma version_field_nonempty v : version_field v <> [].
Proof. done. Qed.

Lemma sub_field_rewrites opening c t repl s :
  (forall m, expand t m = repl) ->
  rewrites (field opening c) repl s (sub_go (field_pattern opening c) t 0 s).
Proof.
  intros Ht. remember (length s) as n eqn:Hn. revert s Hn.
  induction n as [n IH] using lt_wf_ind. intros s ->.
  pose proof (match_at_field_pattern opening c s) as Hm.
  destruct (field_at opening c s) as [[body rest']|] eqn:Hf;
    cbn [fmap option_fmap option_map fst snd] in Hm.
  - rewrite (sub_go_match _ _ _ _ Hm) by apply field_nonempty.
    cbn [group0 rest].
    apply field_at_Some in Hf as [-> Hb]. rewrite Ht.
    replace (opening ++ body ++ c :: rest') with ((opening ++ body ++ [c]) ++ rest')
      by (by rewrite <- !app_assoc).
    constructor; [by exists body|].
    apply (IH (length rest')); [|done]. rewrite !length_app. simpl. lia.
  - destruct s as [|a s].
    + rewrite sub_go_end by done. constructor.
    + rewrite sub_go_nomatch by done. constructor.
      * intros m rest' Heq (body & -> & Hb).
        assert (field_at opening c (a :: s) = Some (body, rest')) as Hsome.
        { apply field_at_Some. split; [|done]. rewrite Heq.
          by rewrite <- !app_assoc. }
        congruence.
      * apply (IH (length s)); [simpl; lia|done].
Qed.

(** A field that starts a text is determined by the text. *)
Lemma field_prefix_unique opening c (m m' s s' : str) :
  field opening c m -> field opening c m' -> m ++ s = m' ++ s' ->
  m = m' /\ s = s'.
Proof.
  intros (b & -> & Hb) (b' & -> & Hb') Heq.
  assert (field_at opening c ((opening ++ b ++ [c]) ++ s) = Some (b, s)) as H1.
  { apply field_at_Some. split; [|done]. by rewrite <- !app_assoc. }
  assert (field_at opening c ((opening ++ b ++ [c]) ++ s) = Some (b', s')) as H2.
  { apply field_at_Some. split; [|done]. rewrite Heq. by rewrite <- !app_assoc. }
  rewrite H1 in H2. by injection H2 as -> ->.
Qed.

(** The relation leaves no choice: the text after the replacement of
    the fields is a function of the text before it. *)
Lemma rewrites_field_functional opening c r s t t' :
  rewrites (field opening c) r s t -> rewrites (field opening c) r s t' -> t = t'.
Proof.
  intros H. revert t'.
  induction H as [|a s t Hno H IH|m s t Hm H IH]; intros t' H'.
  - remember [] as u eqn:Hu in H'.
    destruct H' as [|? ? ? _ _|m0 s0 t0 Hm0 _]; [done|done|].
    destruct Hm0 as (b & -> & _). by destruct opening, b.
  - remember (a :: s) as u eqn:Hu in H'.
    destruct H' as [|a0 s0 t0 _ H0|m0 s0 t0 Hm0 _]; [done| |].
    + injection Hu as -> ->. f_equal. by apply IH.
    + exfalso. by apply (Hno m0 s0).
  - remember (m ++ s) as u eqn:Hu in H'.
    destruct H' as [|a0 s0 t0 Hno0 _|m0 s0 t0 Hm0 H0].
    + destruct Hm as (b & -> & _). by destruct opening, b.
    + exfalso. by apply (Hno0 m s).
    + destruct (field_prefix_unique _ _ _ _ _ _ Hm0 Hm Hu) as [-> ->].
      f_equal. by apply IH.
Qed.

(** In particular a text that begins with a field does not keep it: the
    field is replaced and the rest is rewritten in the same way. *)
Lemma rewrites_field_replaced opening c r m s t :
  field opening c m -> rewrites (field opening c) r (m ++ s) t ->
  exists t', t = r ++ t' /\ rewrites (field opening c) r s t'.
Proof.
  intros Hm H. remember (m ++ s) as u eqn:Hu.
  destruct H as [|a0 s0 t0 Hno0 _|m0 s0 t0 Hm0 H0].
  - destruct Hm as (b & -> & _). by destruct opening, b.
  - exfalso. by apply (Hno0 m s).
  - destruct (field_prefix_unique _ _ _ _ _ _ Hm0 Hm Hu) as [-> ->]. eauto.
Qed.

Lemma version_field_is_field : VERSION_FIELD = field_pattern VERSION_OPENING dq.
Proof. reflexivity. Qed.

Lemma date_field_is_field : DATE_FIELD = field_pattern DATE_OPENING "}".
Proof. reflexivity. Qed.

Lemma version_field_opening v : version_field v = VERSION_OPENING ++ v ++ [dq].
Proof. unfold version_field, VERSION_OPENING. by rewrite <- !app_assoc. Qed.

(** When every version field holds [v] already, writing [v] changes
    nothing. *)
Lemma sub_version_same t v s :
  (forall m, expand t m = version_field v) ->
  Forall (eq v) (findall VERSION_PATTERN s) ->
  sub_go VERSION_FIELD t 0 s = s.
Proof.
  intros Ht. remember (length s) as n eqn:Hn. revert s Hn.
  induction n as [n IH] using lt_wf_ind. intros s -> Hall.
  rewrite version_field_is_field. unfold findall in Hall.
  pose proof (match_at_field_pattern VERSION_OPENING dq s) as Hm.
  pose proof (match_at_version s) as Hg.
  destruct (field_at VERSION_OPENING dq s) as [[body rest']|] eqn:Hf;
    cbn [fmap option_fmap option_map fst snd] in Hm, Hg.
  - rewrite (sub_go_match _ _ _ _ Hm) by apply field_nonempty.
    cbn [group0 rest].
    rewrite (finditer_go_match _ _ _ Hg) in Hall by apply version_field_nonempty.
    cbn [rest] in Hall. rewrite fmap_cons in Hall. cbn [grp1] in Hall.
    apply Forall_cons in Hall as [<- Hall].
    apply field_at_Some in Hf as [-> Hb]. rewrite Ht.
    rewrite <- version_field_is_field.
    rewrite (IH (length rest')); [|rewrite !length_app; simpl; lia|done|done].
    rewrite version_field_opening. by rewrite <- !app_assoc.
  - destruct s as [|a s].
    + by rewrite sub_go_end.
    + rewrite sub_go_nomatch by done.
      rewrite finditer_go_nomatch in Hall by done.
      rewrite <- version_field_is_field. f_equal.
      apply (IH (length s)); [simpl; lia|done|done].
Qed.

Lemma uint_str_plain u : forallb (not_char backslash) (uint_str u) = true.
Proof. induction u; simpl; by rewrite ?IHu. Qed.

Lemma date_field_plain d : forallb (not_char backslash) (date_field d) = true.
Proof.
  unfold date_field, str_of_nat. rewrite !forallb_app, !uint_str_plain.
  by vm_compute.
Qed.

Lemma version_field_plain v :
  forallb (not_char backslash) v = true ->
  forallb (not_char backslash) (version_field v) = true.
Proof.
  intros Hv. unfold version_field. rewrite !forallb_app, Hv. by vm_compute.
Qed.

End Rewrite.

Section UpdateClaims.
Import Re Template.
Variable E : environment.

(** C2, as amended: the update works on the record as text mode reads
    it, with CR LF and CR read as LF.  For a version without backslashes
    it is two passes.  The first replaces every version field of that
    text, from left to right and not only the first one, by the field of
    the new version; the second replaces every date block of the
    resulting text by the block of the current date.  Each pass keeps a
    character, where it was, exactly when no field starts at it, and only
    the record file is written.  When every version field of the record
    holds the new version already, the first pass changes nothing. *)
Theorem update_version_and_import_date_frame
    (w : world) (text v : str) :
  record_of w = Some text ->
  backslash ∉ v ->
  exists text1 text2 w',
    update_version_and_import_date E v w = (Ok tt, w')
    /\ files w' = <[_metadata_path (meta w) := text2]> (files w)
    /\ rewrites (field VERSION_OPENING dq) (version_field v) text text1
    /\ rewrites (field DATE_OPENING "}") (date_field (now E)) text1 text2
    /\ (Forall (eq v) (findall VERSION_PATTERN text) -> text1 = text)
    /\ (_content (meta w) = None ->
        exists raw, files w !! _metadata_path (meta w) = Some raw
                    /\ text = universal_newlines raw).
Proof.
  intros Hr Hv. apply not_char_all in Hv.
  assert (_content (meta w) = None ->
          exists raw, files w !! _metadata_path (meta w) = Some raw
                      /\ text = universal_newlines raw) as Hraw.
  { intros Hc. unfold record_of in Hr. rewrite Hc in Hr.
    destruct (files w !! _metadata_path (meta w)) as [raw|]; [|done].
    exists raw. by injection Hr as <-. }
  set (t1 := (fun a => TLit [a]) <$> version_field v).
  set (t2 := (fun a => TLit [a]) <$> date_field (now E)).
  exists (sub_go VERSION_FIELD t1 0 text).
  exists (sub_go DATE_FIELD t2 0 (sub_go VERSION_FIELD t1 0 text)).
  unfold update_version_and_import_date.
  destruct (read_content_then
              (fun text =>
                 do text1 <- lift (re_sub VERSION_FIELD (version_field v) text);
                 modify (set_meta (set_content text1)) >>
                 do text2 <- lift (re_sub DATE_FIELD (date_field (now E)) text1);
                 modify (set_meta (set_content text2)) >> _write_content)
              w text Hr) as (w1 & -> & Hf & _ & _ & _ & _ & _ & Hmp).
  unfold bind at 1. unfold lift at 1.
  rewrite (re_sub_literal _ _ _ (version_field_plain v Hv)). fold t1.
  unfold bind at 1. unfold modify at 1. unfold bind at 1. unfold lift at 1.
  rewrite (re_sub_literal _ _ _ (date_field_plain (now E))). fold t2.
  unfold bind, modify, _write_content, bind, get, emit, modify, ret. simpl.
  eexists. split; [reflexivity|]. simpl. rewrite Hf, Hmp.
  split; [done|]. split_and!.
  - rewrite version_field_is_field. apply sub_field_rewrites.
    intros m. apply expand_literal.
  - rewrite date_field_is_field. apply sub_field_rewrites.
    intros m. apply expand_literal.
  - apply sub_version_same. intros m. apply expand_literal.
  - exact Hraw.
Qed.

End UpdateClaims.

Section RecordExamples.
Import Re.

Lemma not_in_plain c (s : str) : forallb (not_char c) s = true -> c ∉ s.
Proof. apply not_char_all. Qed.

(** A record with the versions 1.0 and 2.0, in this order. *)
Lemma current_version_first_occurrence_witness :
  let text := lit "id: 7 " ++ version_field (lit "1.0") ++ [nl]
              ++ version_field (lit "2.0") in
  record_of (record_world text) = Some text
  /\ version_at text 6 (lit "1.0")
  /\ outcome_of (current_version (record_world text)) = Ok (lit "1.0").
Proof.
  intros text.
  assert (record_of (record_world text) = Some text) as Hr by (by vm_compute).
  assert (version_at text 6 (lit "1.0")) as Hat.
  { exists ([nl] ++ version_field (lit "2.0")).
    split; [by vm_compute|]. apply not_in_plain. by vm_compute. }
  split; [exact Hr|]. split; [exact Hat|].
  apply (current_version_first_occurrence (record_world text) text 6 (lit "1.0") Hr Hat).
  intros j u Hj (post & Heq & _).
  do 6 (destruct j as [|j]; [vm_compute in Heq; discriminate|]). lia.
Defined.

(** C2, the claim as stated fails: a record with two version fields, 1
    and 2, and no date block.  The recorded version is 1; updating with 1
    rewrites the second field as well, so the record is not left as it
    was. *)
Lemma update_with_recorded_version_changes_record :
  let text := version_field (lit "1") ++ [nl] ++ version_field (lit "2") ++ [nl] in
  let w := record_world text in
  outcome_of (current_version w) = Ok (lit "1")
  /\ search (plain DATE_FIELD) text = None
  /\ files (world_of (update_version_and_import_date quiet_env (lit "1") w))
       !! [lit "METADATA"]
     = Some (version_field (lit "1") ++ [nl] ++ version_field (lit "1") ++ [nl])
  /\ files (world_of (update_version_and_import_date quiet_env (lit "1") w))
       !! [lit "METADATA"]
     <> Some text.
Proof.
  intros text w.
  assert (files (world_of (update_version_and_import_date quiet_env (lit "1") w))
            !! [lit "METADATA"]
          = Some (version_field (lit "1") ++ [nl] ++ version_field (lit "1") ++ [nl]))
    as Hnew by (by vm_compute).
  split; [by vm_compute|]. split; [by vm_compute|]. split; [exact Hnew|].
  rewrite Hnew. intros H. vm_compute in H. discriminate.
Qed.

(** A record at version 1.0, updated to 2.0. *)
Lemma update_version_and_import_date_frame_witness :
  let text := version_field (lit "1.0") ++ [nl]
              ++ lit "last_upgrade_date { year: 2020 month: 1 day: 2 }" ++ [nl] in
  let w := record_world text in
  record_of w = Some text
  /\ exists text1 text2 w',
       update_version_and_import_date quiet_env (lit "2.0") w = (Ok tt, w')
       /\ files w' = <[_metadata_path (meta w) := text2]> (files w)
       /\ rewrites (field VERSION_OPENING dq) (version_field (lit "2.0")) text text1
       /\ rewrites (field DATE_OPENING "}") (date_field (now quiet_env)) text1 text2
       /\ (Forall (eq (lit "2.0")) (findall VERSION_PATTERN text) -> text1 = text).
Proof.
  intros text w.
  assert (record_of w = Some text) as Hr by (by vm_compute).
  split; [exact Hr|].
  destruct (update_version_and_import_date_frame quiet_env w text (lit "2.0") Hr)
    as (text1 & text2 & w' & H1 & H2 & H3 & H4 & H5 & _).
  { apply not_in_plain. by vm_compute. }
  by exists text1, text2, w'.
Defined.

(** A version that refers to a group by a name the pattern does not
    have: [re.sub] raises IndexError, not its own error, and nothing is
    written. *)
Lemma update_with_unknown_group_name :
  let w := record_world (version_field (lit "1")) in
  let r := update_version_and_import_date quiet_env
             (backslash :: lit "g<name>") w in
  outcome_of r = Raise IndexError /\ files (world_of r) = files w.
Proof. split; reflexivity. Qed.

(** A record whose line ends with CR LF, at version 1 and updated with
    the version 1: the file is written with LF, so it is not left as it
    was. *)
Lemma update_writes_line_feeds :
  let cr := ascii_of_nat 13 in
  let raw := version_field (lit "1") ++ [cr; nl] in
  let w := record_world raw in
  files (world_of (update_version_and_import_date quiet_env (lit "1") w))
    !! [lit "METADATA"]
  = Some (version_field (lit "1") ++ [nl]).
Proof. by vm_compute. Qed.

End RecordExamples.

(** ** Splitting *)

Section Split.

Lemma split_go_skip sep ms k s :
  split_go sep ms k s = split_go sep ms 0 (drop k s).
Proof.
  revert k; induction s as [|a s IH]; intros [|k]; simpl; try done.
Qed.

Lemma contains_cons_false sep a s :
  contains sep (a :: s) = false ->
  startswith (a :: s) sep = false /\ contains sep s = false.
Proof. rewrite contains_unfold. by intros [? ?]%orb_false_iff. Qed.

Lemma split_nosep sep ms s :
  contains sep s = false -> split_go sep ms 0 s = [s].
Proof.
  induction s as [|a s IH]; [done|].
  intros [Hs Hc]%contains_cons_false. cbn [split_go]. rewrite Hs, (IH Hc).
  by destruct ms as [[|n]|].
Qed.

Lemma startswith_shorter (sep x r post : str) :
  length sep <= length (x ++ r) ->
  startswith (x ++ r ++ post) sep = true ->
  startswith (x ++ r) sep = true.
Proof.
  intros Hlen [t Ht]%startswith_true. apply startswith_true.
  rewrite app_assoc in Ht.
  apply app_eq_inv in Ht as [(k & Hk & _)|(k & Hk & _)].
  - by exists k.
  - exists []. rewrite app_nil_r.
    assert (k = []) as ->; [|by rewrite app_nil_r in Hk].
    apply (f_equal length) in Hk. rewrite length_app in Hk.
    destruct k; [done|simpl in Hk; lia].
Qed.

Lemma first_here_cons sep a pre post :
  sep <> [] ->
  first_here sep (a :: pre) = true ->
  startswith (a :: pre ++ sep ++ post) sep = false /\ first_here sep pre = true.
Proof.
  intros Hsep H. unfold first_here in *. apply negb_true_iff in H.
  apply (contains_cons_false sep a (pre ++ removelast sep)) in H as [Hs Hc].
  split; [|by rewrite Hc].
  destruct (startswith (a :: pre ++ sep ++ post) sep) eqn:Hst; [|done].
  rewrite <- Hs. symmetry.
  pose proof (app_removelast_last "/"%char Hsep) as Heq.
  apply (startswith_shorter sep (a :: pre) (removelast sep)
           ([List.last sep "/"%char] ++ post)).
  - apply (f_equal length) in Heq. rewrite length_app in Heq.
    rewrite length_app. simpl in *. lia.
  - rewrite (app_assoc (removelast sep)), <- Heq. exact Hst.
Qed.

Lemma drop_tail_sep (sep post : str) a s' :
  sep ++ post = a :: s' -> sep <> [] -> drop (length sep - 1) s' = post.
Proof.
  destruct sep as [|c sep]; [done|]. intros [= <- <-] _. simpl.
  rewrite Nat.sub_0_r. apply drop_app_length.
Qed.

(** The first piece of a split ends where the separator first occurs. *)
Lemma split_first sep ms pre post :
  sep <> [] -> ms <> Some 0 ->
  first_here sep pre = true ->
  split_go sep ms 0 (pre ++ sep ++ post)
  = pre :: split_go sep (pred <$> ms) 0 post.
Proof.
  intros Hsep Hms. induction pre as [|a pre IH]; intros Hfirst.
  - simpl. destruct (sep ++ post) as [|a s'] eqn:Hs; [by destruct sep|].
    cbn [split_go]. rewrite <- Hs, startswith_app, Hs.
    rewrite split_go_skip, (drop_tail_sep sep post a s' Hs Hsep).
    by destruct ms as [[|n]|].
  - apply (first_here_cons sep a pre post Hsep) in Hfirst as [Hs Hf].
    cbn [app split_go]. rewrite Hs, (IH Hf).
    by destruct ms as [[|n]|].
Qed.

Lemma split_twice sep pre post :
  sep <> [] ->
  first_here sep pre = true -> contains sep post = false ->
  split (pre ++ sep ++ post) sep None = [pre; post].
Proof.
  intros Hsep Hf Hc. unfold split.
  rewrite split_first by done. simpl. by rewrite split_nosep.
Qed.

Lemma first_here_slash (ref : str) : slash ∉ ref -> first_here [slash] ref = true.
Proof.
  intros H. unfold first_here. simpl. rewrite app_nil_r.
  apply negb_true_iff. destruct (contains [slash] ref) eqn:Hc; [|done].
  apply contains_true in Hc as (a & b & ->). exfalso. apply H.
  rewrite elem_of_app. right. by left.
Qed.

Lemma split_ref_path (ref p : str) :
  slash ∉ ref -> split (ref ++ [slash] ++ p) (lit "/") (Some 1) = [ref; p].
Proof.
  intros H. unfold split. change (lit "/") with [slash].
  rewrite split_first; [|done|done|by apply first_here_slash].
  simpl. by destruct p.
Qed.

Lemma split_ref_only (ref : str) :
  slash ∉ ref -> split ref (lit "/") (Some 1) = [ref].
Proof.
  intros H. unfold split. change (lit "/") with [slash].
  apply split_nosep. destruct (contains [slash] ref) eqn:Hc; [|done].
  apply contains_true in Hc as (a & b & ->). exfalso. apply H.
  rewrite elem_of_app. right. by left.
Qed.

End Split.

(** ** URL entries *)

Section Urls.

Lemma contains_here (sep pre post : str) : contains sep (pre ++ sep ++ post) = true.
Proof. apply contains_true. by exists pre, post. Qed.

Lemma split_url_form url b op : url_form url b op -> split_url url = Ok (b, op).
Proof.
  intros [base ref p Hf Hc Hr Hp|base ref p Ht Hf Hc Hr Hp|u Ht Hp];
    unfold split_url; cbn zeta;
    change (lit "/-/tree/") with TREE; change (lit "/+/") with PLUS.
  - rewrite contains_here, split_twice by done.
    by rewrite split_ref_path.
  - rewrite Ht, contains_here, split_twice by done.
    by rewrite split_ref_path.
  - by rewrite Ht, Hp.
Qed.

Lemma no_slash_no_delimiter (sep ref : str) :
  slash ∈ sep -> slash ∉ ref -> contains sep ref = false.
Proof.
  intros Hs Hr. destruct (contains sep ref) eqn:Hc; [|done].
  apply contains_true in Hc as (a & b & ->). exfalso. apply Hr.
  rewrite !elem_of_app. right. by left.
Qed.

(** A delimiter followed by a ref alone: the second unpacking fails. *)
Lemma split_url_ref_only base ref :
  first_here TREE base = true -> slash ∉ ref ->
  split_url (base ++ TREE ++ ref) = Raise ValueError.
Proof.
  intros Hf Hr. unfold split_url; cbn zeta.
  change (lit "/-/tree/") with TREE.
  rewrite contains_here, split_twice; [|done|done|].
  - by rewrite split_ref_only.
  - apply no_slash_no_delimiter; [by left|done].
Qed.

Lemma urls_loop_agree urls forms b paths w :
  Forall2 (fun url op => url_form url b op) urls forms ->
  _url (meta w) = None \/ _url (meta w) = Some b ->
  exists w',
    urls_loop urls paths w = (Ok (paths ++ omap id forms), w')
    /\ _url (meta w') = (if urls is [] then _url (meta w) else Some b)
    /\ same_but_meta w w'.
Proof.
  intros Hall. revert paths w.
  induction Hall as [|url op urls forms Hform Hall IH]; intros paths w Hu.
  - exists w. by rewrite app_nil_r.
  - cbn [urls_loop]. unfold bind at 1. unfold lift at 1.
    rewrite (split_url_form _ _ _ Hform). unfold bind at 1. unfold get at 1.
    cbn [fst snd].
    assert (truthy (_url (meta w)) && negb (bool_decide (_url (meta w) = Some b))
            = false) as ->.
    { destruct Hu as [->| ->]; [done|].
      rewrite bool_decide_eq_true_2 by done. apply andb_false_r. }
    unfold bind at 1. unfold modify at 1.
    destruct (IH (if truthy op then paths ++ [default [] op] else paths)
                 (set_meta (set_url b) w)) as (w' & Hrun & Hurl & Hsame);
      [by right|].
    exists w'. rewrite Hrun. split; [|split].
    + f_equal. f_equal.
      inversion Hform; subst; cbn [omap list_omap id truthy default];
        [destruct p; [done|by rewrite <- app_assoc]
        |destruct p; [done|by rewrite <- app_assoc]|done].
    + rewrite Hurl. by destruct urls.
    + exact Hsame.
Qed.

Lemma urls_loop_exit urls forms b paths w :
  Forall2 (fun url bf => url_form url bf.1 bf.2) urls forms ->
  _url (meta w) = Some b -> b <> [] ->
  (exists bf, bf ∈ forms /\ bf.1 <> b) ->
  exists w' b',
    urls_loop urls paths w
    = (Exit (inconsistent_msg (_metadata_path (meta w)) (Some b) b'), w')
    /\ b' <> b /\ same_but_meta w w'.
Proof.
  intros Hall. revert paths w.
  induction Hall as [|url [b1 f1] urls forms Hform Hall IH];
    intros paths w Hu Hb (bf & Hin & Hne).
  - by apply elem_of_nil in Hin.
  - cbn [urls_loop]. unfold bind at 1. unfold lift at 1.
    rewrite (split_url_form _ _ _ Hform). unfold bind at 1. unfold get at 1.
    cbn [fst snd]. rewrite Hu.
    assert (truthy (Some b) = true) as -> by (by destruct b).
    destruct (decide (b1 = b)) as [->|Hdiff].
    + rewrite bool_decide_eq_true_2 by done. cbn [negb andb].
      unfold bind at 1. unfold modify at 1.
      destruct (IH (if truthy f1 then paths ++ [default [] f1] else paths)
                   (set_meta (set_url b) w)) as (w' & b' & Hrun & Hb' & Hsame).
      * done.
      * done.
      * apply elem_of_cons in Hin as [->|Hin]; [done|]. by exists bf.
      * exists w', b'. rewrite Hrun. done.
    + rewrite bool_decide_eq_false_2 by congruence. cbn [negb andb].
      exists w, b1. done.
Qed.

Lemma read_raw_run w text :
  record_of w = Some text -> _url (meta w) = None ->
  exists w1,
    _read_raw_git_urls w
    = (do paths <- urls_loop (Re.findall URL_PATTERN text) [];
       modify (set_meta (set_paths paths))) w1
    /\ files w1 = files w /\ events w1 = events w /\ existing w1 = existing w
    /\ _url (meta w1) = None
    /\ _metadata_path (meta w1) = _metadata_path (meta w).
Proof.
  intros Hr Hu. unfold _read_raw_git_urls. unfold bind at 1. unfold get at 1.
  rewrite Hu.
  destruct (read_content_then
              (fun text => do paths <- urls_loop (Re.findall URL_PATTERN text) [];
                           modify (set_meta (set_paths paths)))
              w text Hr) as (w1 & -> & Hf & He & Hx & _ & Hu1 & _ & Hmp).
  exists w1. split; [done|]. by rewrite Hu1.
Qed.

(** C3, as amended: when every URL entry of the record has one of the
    three forms and all have the base URL [b], [git_url] returns [b] and
    [git_paths] returns the paths of the entries that have one, in order;
    a record whose entries have no delimiter yields no path. *)
Theorem git_url_and_paths_by_form
    (w : world) (text b : str) (forms : list (option str)) :
  record_of w = Some text ->
  _url (meta w) = None ->
  Forall2 (fun url op => url_form url b op) (Re.findall URL_PATTERN text) forms ->
  outcome_of (git_url w) = Ok ((fun _ => b) <$> head forms)
  /\ outcome_of (git_paths w) = Ok (omap id forms).
Proof.
  intros Hr Hu Hall.
  destruct (read_raw_run w text Hr Hu) as (w1 & Hrun & _ & _ & _ & Hu1 & _).
  destruct (urls_loop_agree _ _ _ [] w1 Hall (or_introl Hu1))
    as (w2 & Hloop & Hu2 & _).
  assert (_read_raw_git_urls w = (Ok tt, set_meta (set_paths (omap id forms)) w2))
    as Hraw.
  { rewrite Hrun. by rewrite (bind_Ok _ _ _ _ _ Hloop). }
  unfold git_url, git_paths. rewrite !(bind_Ok _ _ _ _ _ Hraw).
  unfold bind, get, ret, outcome_of. simpl. rewrite Hu2, Hu1.
  split; [|done]. by destruct Hall.
Qed.

(** C9: a URL entry that ends with the delimiter and a ref, with no
    slash after the ref, makes [git_url] and [git_paths] raise ValueError
    at the second unpacking; the run does not leave through [sys.exit]
    with a message. *)
Theorem git_url_ref_without_path
    (w : world) (text base ref : str) (more : list str) :
  record_of w = Some text ->
  _url (meta w) = None ->
  Re.findall URL_PATTERN text = (base ++ TREE ++ ref) :: more ->
  first_here TREE base = true ->
  slash ∉ ref ->
  outcome_of (git_url w) = Raise ValueError
  /\ outcome_of (git_paths w) = Raise ValueError.
Proof.
  intros Hr Hu Hall Hf Hs.
  destruct (read_raw_run w text Hr Hu) as (w1 & Hrun & _ & _ & _ & Hu1 & _).
  assert (_read_raw_git_urls w = (Raise ValueError, w1)) as Hraw.
  { rewrite Hrun, Hall. cbn [urls_loop]. unfold bind at 1 2. unfold lift.
    by rewrite (split_url_ref_only base ref Hf Hs). }
  unfold git_url, git_paths. by rewrite !(bind_Raise _ _ _ _ _ Hraw).
Qed.

Lemma read_raw_inconsistent w text b0 f0 others bf :
  record_of w = Some text -> _url (meta w) = None ->
  url_forms text ((b0, f0) :: others) ->
  b0 <> [] -> bf ∈ others -> bf.1 <> b0 ->
  exists w' b',
    _read_raw_git_urls w
    = (Exit (inconsistent_msg (_metadata_path (meta w)) (Some b0) b'), w')
    /\ b' <> b0 /\ events w' = events w.
Proof.
  intros Hr Hu Hall Hb Hin Hne. unfold url_forms in Hall.
  destruct (read_raw_run w text Hr Hu) as (w1 & Hrun & _ & He & _ & Hu1 & Hmp).
  rewrite Hrun. inversion Hall as [|url0 bf0 urls forms Hform Hrest Heq1 Heq2].
  subst bf0 forms. cbn [fst snd] in Hform.
  cbn [urls_loop]. unfold bind at 1 2. unfold lift at 1.
  rewrite (split_url_form _ _ _ Hform). unfold bind at 1. unfold get at 1.
  cbn [fst snd]. rewrite Hu1. cbn [truthy andb].
  unfold bind at 1. unfold modify at 1.
  match goal with
  | |- context [urls_loop urls ?ps ?w0] =>
      destruct (urls_loop_exit urls others b0 ps w0 Hrest eq_refl Hb)
        as (w' & b' & Hloop & Hb' & Hsame); [by exists bf|]
  end.
  exists w', b'. rewrite Hloop.
  cbn [set_meta meta set_url _metadata_path].
  rewrite Hmp. split; [done|]. split; [done|].
  destruct Hsame as (_ & -> & _). by rewrite <- He.
Qed.

End Urls.

Section MainClaims.
Import PurePath.
Variable E : environment.

Lemma git_command_no_clone self cmd :
  no_clone (Run ([lit "git"; lit "-C"; to_str (base self)] ++ cmd)).
Proof.
  intros s u v ps H. unfold clone_cmd in H. simpl in H.
  injection H as H _. vm_compute in H. discriminate.
Qed.

Lemma assert_no_uncommitted_run self w :
  exists o w' evs,
    assert_no_uncommitted_changes E self w = (o, w')
    /\ (o = Ok tt \/ exists msg, o = Exit msg)
    /\ files w' = files w
    /\ events w' = events w ++ evs /\ Forall no_clone evs.
Proof.
  unfold assert_no_uncommitted_changes, _git, subprocess_run, when, bind, emit,
    sys_exit, ret. simpl.
  repeat match goal with
         | |- context [(?a =? 0)%Z] => destruct (a =? 0)%Z; simpl
         end;
    do 2 eexists; eexists; (split; [reflexivity|]);
    (split; [eauto|]); (split; [done|]); simpl;
    (split; [by rewrite <- ?app_assoc|]);
    repeat (constructor; [apply (git_command_no_clone self)|]); constructor.
Qed.

Lemma git_url_inconsistent w text b0 f0 others bf :
  record_of w = Some text -> _url (meta w) = None ->
  url_forms text ((b0, f0) :: others) ->
  b0 <> [] -> bf ∈ others -> bf.1 <> b0 ->
  exists w' b',
    b' <> b0 /\ events w' = events w
    /\ git_url w
       = (Exit (inconsistent_msg (_metadata_path (meta w)) (Some b0) b'), w')
    /\ git_paths w
       = (Exit (inconsistent_msg (_metadata_path (meta w)) (Some b0) b'), w').
Proof.
  intros Hr Hu Hall Hb Hin Hne.
  destruct (read_raw_inconsistent w text b0 f0 others bf Hr Hu Hall Hb Hin Hne)
    as (w' & b' & Hraw & Hb' & Hev).
  exists w', b'. split; [done|]. split; [done|].
  unfold git_url, git_paths. by rewrite !(bind_Exit _ _ _ _ _ Hraw).
Qed.

Lemma main_stops_at_inconsistent_urls args w text b0 f0 others bf :
  url_forms text ((b0, f0) :: others) ->
  b0 <> [] -> bf ∈ others -> bf.1 <> b0 ->
  path_exists (script_dir args) w = true ->
  universal_newlines <$> files w !! metadata_path_of args = Some text ->
  exists msg,
    outcome_of (main E args w) = Exit msg
    /\ Forall no_clone (events_since w (world_of (main E args w))).
Proof.
  intros Hall Hb Hin Hne Hbase Hfile. unfold main. cbn zeta.
  destruct (files w !! metadata_path_of args) as [raw|] eqn:Hraw; [|done].
  fold (metadata_path_of args).
  rewrite (bind_Ok _ _ w true w) by (unfold get; by rewrite Hbase).
  rewrite (bind_Ok _ _ w tt w) by done.
  match goal with
  | |- context [print ?m] =>
      rewrite (bind_Ok (print m) _ w tt (log (Print m) w)) by done;
      set (banner := Print m)
  end.
  assert (no_clone banner) as Hbanner by (intros ? ? ? ? ?; discriminate).
  destruct (assert_no_uncommitted_run (Repo (script_dir args)) (log banner w))
    as (o & w1 & evs & Hrun & Ho & Hf & Hev & Hnc).
  assert (events_since w w1 = banner :: evs) as Hsince.
  { apply events_since_app. rewrite Hev. simpl. by rewrite <- app_assoc. }
  destruct Ho as [->|[msg ->]].
  2: { rewrite (bind_Exit _ _ _ _ _ Hrun). exists msg. split; [done|].
       unfold world_of. cbn [snd]. rewrite Hsince. by constructor. }
  rewrite (bind_Ok _ _ _ _ _ Hrun).
  set (w2 := set_meta (fun _ => Metadata (metadata_path_of args) None None None) w1).
  assert (AndroidMetadata_init (metadata_path_of args) w1 = (Ok tt, w2)) as Hinit.
  { unfold AndroidMetadata_init, bind, get, modify, path_exists.
    rewrite Hf. cbn [log files]. rewrite Hraw.
    rewrite (bool_decide_eq_true_2 (is_Some (Some raw))) by eauto.
    by rewrite orb_true_r. }
  rewrite (bind_Ok _ _ _ _ _ Hinit).
  destruct (git_url_inconsistent w2 text b0 f0 others bf) as
    (w3 & b' & _ & Hev3 & Hurl & _); try done.
  { unfold record_of, w2. cbn [set_meta meta _content _metadata_path files].
    rewrite Hf. cbn [log files]. by rewrite Hraw. }
  rewrite (bind_Exit _ _ _ _ _ Hurl). eexists. split; [done|].
  unfold world_of. cbn [snd].
  replace (events_since w w3) with (events_since w w1)
    by (unfold events_since; by rewrite Hev3).
  rewrite Hsince. by constructor.
Qed.

(** The check at work: when the URL entries of the record all have one
    of the three forms, the first has a base URL that is not empty and
    some other entry has a different one, [git_url] and [git_paths] leave
    through [sys.exit] with the message that names the two base URLs;
    [main] then leaves through [sys.exit] too, and no clone has been run
    by then. *)
Lemma inconsistent_urls_exit_before_clone
    (args : Args) (w : world) (text b0 : str) (f0 : option str)
    (others : list (str * option str)) (bf : str * option str) :
  url_forms text ((b0, f0) :: others) ->
  b0 <> [] ->
  bf ∈ others ->
  bf.1 <> b0 ->
  (forall w1,
     record_of w1 = Some text -> _url (meta w1) = None ->
     exists b',
       b' <> b0
       /\ outcome_of (git_url w1)
          = Exit (inconsistent_msg (_metadata_path (meta w1)) (Some b0) b')
       /\ outcome_of (git_paths w1)
          = Exit (inconsistent_msg (_metadata_path (meta w1)) (Some b0) b'))
  /\ (path_exists (script_dir args) w = true ->
      universal_newlines <$> files w !! metadata_path_of args = Some text ->
      exists msg,
        outcome_of (main E args w) = Exit msg
        /\ Forall no_clone (events_since w (world_of (main E args w)))).
Proof.
  intros Hall Hb Hin Hne. split.
  - intros w1 Hr Hu.
    destruct (git_url_inconsistent w1 text b0 f0 others bf Hr Hu Hall Hb Hin Hne)
      as (w' & b' & Hb' & _ & Hurl & Hpaths).
    exists b'. by rewrite Hurl, Hpaths.
  - by apply (main_stops_at_inconsistent_urls args w text b0 f0 others bf).
Qed.

End MainClaims.

(** ** The claims about URL entries at concrete records *)

Section UrlExamples.

(** C3, the claim as stated fails: the URL contains the delimiter /+/,
    and yet [git_url] does not return what is before it: both properties
    raise ValueError, because no slash follows the ref. *)
Lemma git_url_plus_ref_only_raises :
  let url := lit "https://example.org/repo/+/main" in
  let w := record_world (url_entry url) in
  contains PLUS url = true
  /\ Re.findall URL_PATTERN (url_entry url) = [url]
  /\ outcome_of (git_url w) = Raise ValueError
  /\ outcome_of (git_paths w) = Raise ValueError.
Proof. by vm_compute. Qed.

(** The URL with the path sub/dir below the ref main. *)
Lemma git_url_and_paths_by_form_witness :
  let base := lit "https://example.org/repo" in
  let text := url_entry (lit "https://example.org/repo/-/tree/main/sub/dir") in
  let w := record_world text in
  record_of w = Some text
  /\ outcome_of (git_url w) = Ok (Some base)
  /\ outcome_of (git_paths w) = Ok [lit "sub/dir"].
Proof.
  intros base text w.
  assert (record_of w = Some text) as Hr by (by vm_compute).
  split; [exact Hr|].
  assert (url_form (lit "https://example.org/repo/-/tree/main/sub/dir") base
            (Some (lit "sub/dir"))) as Hform.
  { refine (form_tree base (lit "main") (lit "sub/dir") _ _ _ _).
    - by vm_compute.
    - by vm_compute.
    - apply not_in_plain. by vm_compute.
    - intros H. vm_compute in H. discriminate. }
  assert (Forall2 (fun url op => url_form url base op)
            (Re.findall URL_PATTERN text) [Some (lit "sub/dir")]) as Hall.
  { replace (Re.findall URL_PATTERN text)
      with [lit "https://example.org/repo/-/tree/main/sub/dir"] by (by vm_compute).
    by repeat constructor. }
  exact (git_url_and_paths_by_form w text base [Some (lit "sub/dir")] Hr eq_refl Hall).
Defined.

(** A single URL without a delimiter: the whole URL is the base and
    there is no path. *)
Lemma git_paths_suffix_free :
  let url := lit "https://example.org/repo" in
  let w := record_world (url_entry url) in
  outcome_of (git_url w) = Ok (Some url) /\ outcome_of (git_paths w) = Ok [].
Proof. by vm_compute. Qed.

(** The URL that ends with the ref main. *)
Lemma git_url_ref_without_path_witness :
  let text := url_entry (lit "https://example.org/repo/-/tree/main") in
  let w := record_world text in
  record_of w = Some text
  /\ outcome_of (git_url w) = Raise ValueError
  /\ outcome_of (git_paths w) = Raise ValueError.
Proof.
  intros text w.
  assert (record_of w = Some text) as Hr by (by vm_compute).
  split; [exact Hr|].
  refine (git_url_ref_without_path w text (lit "https://example.org/repo")
            (lit "main") [] Hr eq_refl _ _ _).
  - by vm_compute.
  - by vm_compute.
  - apply not_in_plain. by vm_compute.
Defined.

(** C4, the code at the failing input: two URL entries whose base URLs
    differ, the first one empty.  The comparison is skipped for an empty
    previous URL, so [git_url] returns the second URL, and [main] goes on
    to run the clone. *)
Theorem empty_first_url_is_not_compared :
  let url := lit "https://example.org/repo" in
  let text := url_entry [] ++ [nl] ++ url_entry url in
  let args := MkArgs [lit "tree"] (lit "group") (lit "HEAD") true true in
  let w := World {[ metadata_path_of args := text ]} {[ script_dir args ]}
                 (Metadata [] None None None) [] in
  Re.findall URL_PATTERN text = [[]; url]
  /\ split_url [] = Ok ([], None)
  /\ split_url url = Ok (url, None)
  /\ outcome_of (git_url (record_world text)) = Ok (Some url)
  /\ outcome_of (git_paths (record_world text)) = Ok []
  /\ existsb is_clone (events (world_of (main quiet_env args w))) = true.
Proof. by vm_compute. Qed.

(** A record that names two repositories. *)
Lemma inconsistent_urls_exit_before_clone_witness :
  let a := lit "https://example.org/a" in
  let b := lit "https://example.org/b" in
  let text := url_entry a ++ [nl] ++ url_entry b in
  let args := MkArgs [lit "tree"] (lit "group") (lit "HEAD") true true in
  let w := World {[ metadata_path_of args := text ]} {[ script_dir args ]}
                 (Metadata [] None None None) [] in
  path_exists (script_dir args) w = true
  /\ universal_newlines <$> files w !! metadata_path_of args = Some text
  /\ exists msg,
       outcome_of (main quiet_env args w) = Exit msg
       /\ Forall no_clone (events_since w (world_of (main quiet_env args w))).
Proof.
  intros a b text args w.
  assert (path_exists (script_dir args) w = true) as Hbase by (by vm_compute).
  assert (universal_newlines <$> files w !! metadata_path_of args = Some text)
    as Hfile by (by vm_compute).
  split; [exact Hbase|]. split; [exact Hfile|].
  assert (url_forms text [(a, None); (b, None)]) as Hall.
  { unfold url_forms.
    replace (Re.findall URL_PATTERN text) with [a; b] by (by vm_compute).
    repeat constructor; by vm_compute. }
  refine (proj2 (inconsistent_urls_exit_before_clone quiet_env args w text a None
                   [(b, None)] (b, None) Hall _ _ _) Hbase Hfile).
  - intros H. vm_compute in H. discriminate.
  - by left.
  - intros H. vm_compute in H. discriminate.
Defined.

End UrlExamples.

(** ** The scenario of the import from 1.0 to 2.0 *)

Section Scenario.

(** In the scenario a.txt is unlinked and METADATA is left alone. *)
Lemma sync_deletes_old_minus_new_witness :
  let target := [lit "tree"; lit "group"] in
  let old := [[lit "a.txt"]; [lit "b.txt"]] in
  let new := [[lit "b.txt"]; [lit "c.txt"]] in
  let w' := world_of (sync scenario_env (Repo [lit "tree"])
                        (Repo [lit "tree"; lit ".import"; lit "group"; lit "2.0"])
                        target old new scenario_world) in
  Unlink (PurePath.joinpath target [lit "a.txt"]) ∈ events_since scenario_world w'
  /\ files w' !! (PurePath.joinpath target [lit "METADATA"])
     = files scenario_world !! (PurePath.joinpath target [lit "METADATA"]).
Proof.
  intros target old new w'.
  pose proof (sync_deletes_old_minus_new scenario_env (Repo [lit "tree"])
                (Repo [lit "tree"; lit ".import"; lit "group"; lit "2.0"])
                target old new scenario_world) as [Hdel Hkeep].
  split.
  - apply Hdel. exists [lit "a.txt"]. split; [done|]. split; [by left|].
    split; [|by vm_compute].
    intros H. repeat (apply elem_of_cons in H as [H|H];
                      [vm_compute in H; discriminate|]).
    by apply elem_of_nil in H.
  - apply (Hkeep [lit "METADATA"]). by vm_compute.
Defined.


(** The files after the step in this scenario: a.txt is gone, b.txt is
    overwritten and c.txt is added. *)
Lemma sync_scenario_files :
  let target := [lit "tree"; lit "group"] in
  let after :=
    files (world_of (sync scenario_env (Repo [lit "tree"])
                       (Repo [lit "tree"; lit ".import"; lit "group"; lit "2.0"])
                       target [[lit "a.txt"]; [lit "b.txt"]]
                       [[lit "b.txt"]; [lit "c.txt"]] scenario_world)) in
  after !! [lit "tree"; lit "group"; lit "a.txt"] = None
  /\ after !! [lit "tree"; lit "group"; lit "b.txt"] = Some (lit "b of 2.0")
  /\ after !! [lit "tree"; lit "group"; lit "c.txt"] = Some (lit "c of 2.0").
Proof. split_and!; vm_compute; reflexivity. Qed.

(** A version that spells the opening of a date block: the second pass
    takes everything up to the next closing brace for a date block, so
    text that belongs to neither field is lost.  The two passes are each
    faithful to the text they are given, not to the record as a whole. *)
Lemma update_with_brace_version_eats_text :
  let text := version_field (lit "1") ++ [nl] ++ lit "name: {x}" ++ [nl] in
  files (world_of (update_version_and_import_date scenario_env
                     (lit "last_upgrade_date {") (record_world text)))
    !! [lit "METADATA"]
  = Some (lit "version: " ++ [dq] ++ date_field (Date 2024 11 4) ++ [nl]).
Proof. by vm_compute. Qed.

End Scenario.

(** * Further properties *)

(** ** Matching a path from the right *)

Section MatchFromRight.
Import PurePath.

Lemma match_rev_app (parts more pats : list str) :
  length pats <= length parts ->
  match_rev (parts ++ more) pats = match_rev parts pats.
Proof.
  revert parts; induction pats as [|pat pats IH]; intros parts Hlen; [done|].
  destruct parts as [|part parts]; [simpl in Hlen; lia|].
  cbn [app match_rev]. rewrite IH; [done|]. simpl in Hlen. lia.
Qed.

(** A pattern looks at as many trailing components of the path as it
    has components itself. *)
Lemma pmatch_leading_directories (above p : path) (pattern : str) :
  length (of_str pattern) <= length p ->
  pmatch (above ++ p) pattern = pmatch p pattern.
Proof.
  intros Hlen. unfold pmatch. rewrite length_app.
  replace (length above + length p <? length (of_str pattern)) with false
    by (symmetry; apply Nat.ltb_ge; lia).
  replace (length p <? length (of_str pattern)) with false
    by (symmetry; apply Nat.ltb_ge; lia).
  rewrite rev_app_distr. apply match_rev_app.
  by rewrite !length_rev.
Qed.

(** X1: [must_ignore] decides by the last two components of the path:
    the directories above them change neither its answer nor whether it
    prints the notice. *)
Theorem must_ignore_looks_at_two_components (above p : path) (w : world) :
  2 <= length p ->
  must_ignore (above ++ p) w = must_ignore p w.
Proof.
  intros Hlen.
  assert (ignored (above ++ p) = ignored p) as Hi.
  { unfold ignored, IGNORE_PATTERNS. cbn [existsb].
    rewrite !pmatch_leading_directories; [done|..];
      (apply (Nat.le_trans _ 2); [vm_compute; lia|exact Hlen]). }
  unfold must_ignore. by rewrite Hi.
Qed.

(** An OWNERS file one directory down, seen from two directories
    higher: it is skipped either way. *)
Lemma must_ignore_looks_at_two_components_witness :
  2 <= length [lit "exo"; lit "OWNERS"]
  /\ must_ignore ([lit "unstable"; lit "components"] ++ [lit "exo"; lit "OWNERS"])
                 empty_world
     = must_ignore [lit "exo"; lit "OWNERS"] empty_world
  /\ outcome_of (must_ignore [lit "exo"; lit "OWNERS"] empty_world) = Ok true.
Proof.
  assert (2 <= length [lit "exo"; lit "OWNERS"]) as H by (simpl; lia).
  split; [exact H|]. split; [|by vm_compute].
  exact (must_ignore_looks_at_two_components [lit "unstable"; lit "components"]
           [lit "exo"; lit "OWNERS"] empty_world H).
Defined.

End MatchFromRight.

(** ** What a call adds to the log *)

Section Logs.
Import Py PurePath.
Context (P : event -> Prop).

Lemma logs_ret {A} I (a : A) : logs I P (ret a) I.
Proof. intros w HI. split; [exists []; by rewrite app_nil_r|done]. Qed.

Lemma logs_bind {A B} I J K (m : M A) (f : A -> M B) :
  logs I P m J -> (forall a, logs J P (f a) K) -> logs I P (bind m f) K.
Proof.
  intros Hm Hf w HI. destruct (Hm w HI) as [(evs & He & HP) HJ].
  unfold bind. destruct (m w) as [[a|msg|e] w'] eqn:Hmw; simpl in *.
  - destruct (Hf a w' (HJ a eq_refl)) as [(evs' & He' & HP') HK].
    split; [|done]. exists (evs ++ evs').
    rewrite He', He, app_assoc. split; [done|]. by apply Forall_app.
  - split; [by exists evs|done].
  - split; [by exists evs|done].
Qed.

Lemma logs_post {A} I J J' (m : M A) :
  (forall w, J w -> J' w) -> logs I P m J -> logs I P m J'.
Proof.
  intros HJ Hm w HI. destruct (Hm w HI) as [He Hp]. split; [done|].
  intros a Ha. eauto.
Qed.

Lemma logs_pre {A} I I' J (m : M A) :
  (forall w, I' w -> I w) -> logs I P m J -> logs I' P m J.
Proof. intros HI Hm w Hw. apply Hm, HI, Hw. Qed.

(** What holds on return can be shown apart from what is logged. *)
Lemma logs_returns {A} I J J' (m : M A) :
  logs I P m J ->
  (forall w a, I w -> outcome_of (m w) = Ok a -> J' (world_of (m w))) ->
  logs I P m J'.
Proof.
  intros Hm HJ w HI. destruct (Hm w HI) as [He _]. split; [done|].
  intros a Ha. by apply (HJ w a).
Qed.

Lemma logs_emit I e : stable I -> P e -> logs I P (emit e) I.
Proof.
  intros HS HP w HI. split; [exists [e]; by repeat constructor|].
  intros _ _. by apply (HS w).
Qed.

Lemma logs_get {A} I (f : world -> A) : logs I P (get f) I.
Proof. intros w HI. split; [exists []; by rewrite app_nil_r|done]. Qed.

Lemma logs_modify I (f : world -> world) :
  stable I ->
  (forall w, events (f w) = events w) ->
  (forall w, _metadata_path (meta (f w)) = _metadata_path (meta w)) ->
  logs I P (modify f) I.
Proof.
  intros HS He Hm w HI. split.
  - exists []. simpl. by rewrite He, app_nil_r.
  - intros _ _. by apply (HS w); [apply Hm|].
Qed.

Lemma logs_raise {A} I J e : logs I P (@raise A e) J.
Proof. intros w HI. split; [exists []; by rewrite app_nil_r|done]. Qed.

Lemma logs_exit {A} I J msg : logs I P (@sys_exit A msg) J.
Proof. intros w HI. split; [exists []; by rewrite app_nil_r|done]. Qed.

Lemma logs_lift {A} I (o : outcome A) : logs I P (lift o) I.
Proof. intros w HI. split; [exists []; by rewrite app_nil_r|done]. Qed.

Lemma logs_when I b m : logs I P m I -> logs I P (when b m) I.
Proof. destruct b; [done|]. intros _. apply logs_ret. Qed.

Lemma logs_for_each {A} I (xs : list A) body :
  (forall x, logs I P (body x) I) -> logs I P (for_each xs body) I.
Proof.
  intros Hb. induction xs as [|x xs IH]; [apply logs_ret|].
  simpl. eapply logs_bind; [apply Hb|]. by intros _.
Qed.

End Logs.

Ltac logs_case :=
  match goal with
  | |- logs _ _ (if ?b then _ else _) _ => destruct b
  | |- logs _ _ (match ?x with _ => _ end) _ => destruct x
  end.

Ltac logs_leaf :=
  first
    [ apply logs_ret | apply logs_get | apply logs_raise | apply logs_exit
    | apply logs_lift
    | apply logs_emit; [assumption|done]
    | apply logs_modify; [assumption|done|done] ].

(** Takes a call apart along its binds and its case distinctions, as far
    as the leaves are the operations of the monad. *)
Ltac logs_go :=
  repeat first
    [ logs_leaf | logs_case | apply logs_when
    | eapply logs_bind; [|intros ?] ].

Section LogsOfWorld.
Import Py PurePath.
Context (P : event -> Prop) (I : world -> Prop).
Hypothesis HS : stable I.
Set Default Proof Using "All".

Lemma logs_print s : P (Print s) -> logs I P (print s) I.
Proof. intros. unfold print. logs_go. Qed.

Lemma logs_mkdir p : P (Mkdir p) -> logs I P (mkdir p) I.
Proof. intros. unfold mkdir. logs_go. Qed.

Lemma logs_rmtree p : P (Rmtree p) -> logs I P (rmtree p) I.
Proof. intros. unfold rmtree. logs_go. Qed.

Lemma logs_unlink p ok : P (Unlink p) -> logs I P (unlink p ok) I.
Proof. intros. unfold unlink. logs_go. Qed.

Lemma logs_first_line text : logs I P (first_line text) I.
Proof. unfold first_line. logs_go. Qed.

Lemma logs_read_content : logs I P _read_content I.
Proof. unfold _read_content. logs_go. Qed.

Lemma logs_content : logs I P content I.
Proof. unfold content. logs_go. Qed.

Lemma logs_urls_loop urls ps : logs I P (urls_loop urls ps) I.
Proof.
  revert ps; induction urls as [|u urls IH]; intros ps; simpl; [logs_go|].
  eapply logs_bind; [logs_go|intros bp].
  eapply logs_bind; [logs_go|intros m].
  destruct (_ && _); [logs_go|].
  eapply logs_bind; [logs_go|intros _]. apply IH.
Qed.

Lemma logs_read_raw_git_urls : logs I P _read_raw_git_urls I.
Proof.
  unfold _read_raw_git_urls. eapply logs_bind; [logs_go|intros m].
  destruct (_url m); [logs_go|].
  eapply logs_bind; [apply logs_read_content|intros _].
  eapply logs_bind; [apply logs_content|intros text].
  eapply logs_bind; [apply logs_urls_loop|intros paths]. logs_go.
Qed.

Lemma logs_current_version : logs I P current_version I.
Proof.
  unfold current_version.
  eapply logs_bind; [apply logs_read_content|intros _].
  eapply logs_bind; [apply logs_content|intros text]. logs_go.
Qed.

Lemma logs_git_url : logs I P git_url I.
Proof.
  unfold git_url. eapply logs_bind; [apply logs_read_raw_git_urls|intros _].
  logs_go.
Qed.

Lemma logs_git_paths : logs I P git_paths I.
Proof.
  unfold git_paths. eapply logs_bind; [apply logs_read_raw_git_urls|intros _].
  logs_go.
Qed.

(** The deletion loop of [main]. *)
Hypothesis Hprint : forall s, P (Print s).

Lemma logs_must_ignore p : logs I P (must_ignore p) I.
Proof.
  unfold must_ignore. eapply logs_bind; [|intros _; logs_go].
  apply logs_when, logs_print, Hprint.
Qed.

Lemma logs_remove_old target old new :
  (forall p, P (Unlink p)) -> logs I P (remove_old target old new) I.
Proof.
  intros Hun. unfold remove_old. apply logs_for_each. intros p.
  eapply logs_bind; [by apply logs_must_ignore|intros skip].
  destruct skip; [logs_go|]. by apply logs_unlink.
Qed.

End LogsOfWorld.

Set Default Proof Using "Type".

Section LogsOfGit.
Import Py PurePath.
Variable E : environment.
Context (P : event -> Prop) (I : world -> Prop).
Hypothesis HS : stable I.
Set Default Proof Using "All".

Lemma logs_shutil_copy b rel dst :
  P (Copy (joinpath b rel) dst) -> logs I P (shutil_copy E b rel dst) I.
Proof. intros. unfold shutil_copy. logs_go. Qed.

Lemma logs_subprocess_run cmd check :
  P (Run cmd) -> logs I P (subprocess_run E cmd check) I.
Proof. intros. unfold subprocess_run. logs_go. Qed.

(** The calls that run git and do nothing else. *)
Hypothesis Hgit : forall cmd, P (Run (lit "git" :: cmd)).

Lemma logs_git self cmd check : logs I P (_git E self cmd check) I.
Proof. apply logs_subprocess_run, Hgit. Qed.

Lemma logs_get_hash_for_version self v :
  logs I P (get_hash_for_version E self v) I.
Proof.
  unfold get_hash_for_version.
  eapply logs_bind; [apply logs_git|intros r].
  eapply logs_bind; [by apply logs_first_line|intros l]. logs_go.
Qed.

Lemma logs_git_ref_name_for_version self v :
  logs I P (git_ref_name_for_version E self v) I.
Proof.
  unfold git_ref_name_for_version.
  eapply logs_bind; [apply logs_git|intros r].
  eapply logs_bind; [by apply logs_first_line|intros l]. logs_go.
Qed.

Lemma logs_get_files self v ps : logs I P (get_files E self v ps) I.
Proof.
  unfold get_files. eapply logs_bind; [apply logs_git|intros r]. logs_go.
Qed.

Lemma logs_assert_no_uncommitted_changes self :
  logs I P (assert_no_uncommitted_changes E self) I.
Proof.
  unfold assert_no_uncommitted_changes.
  eapply logs_bind; [apply logs_git|intros r].
  eapply logs_bind; [logs_go|intros _].
  eapply logs_bind; [apply logs_git|intros r']. logs_go.
Qed.

Lemma logs_add self p : logs I P (add E self p) I.
Proof. unfold add. eapply logs_bind; [apply logs_git|intros r]. logs_go. Qed.

Lemma logs_commit self msg e a : logs I P (commit E self msg e a) I.
Proof.
  unfold commit. eapply logs_bind; [apply logs_git|intros r]. logs_go.
Qed.

Lemma logs_sparse_depth1_clone self url v ps force :
  (forall p, P (Mkdir p)) ->
  (force = true -> forall p, P (Rmtree p)) ->
  logs I P (sparse_depth1_clone E self url v ps force) I.
Proof.
  intros Hmk Hrm. unfold sparse_depth1_clone.
  eapply logs_bind; [by apply logs_mkdir|intros _].
  eapply logs_bind; [logs_go|intros there].
  eapply logs_bind.
  { destruct force; [|apply logs_ret]. destruct there; [|apply logs_ret].
    by apply logs_rmtree, Hrm. }
  intros _. eapply logs_bind; [logs_go|intros there'].
  destruct there'; [logs_go|]. destruct url as [u|]; [|logs_go].
  eapply logs_bind; [apply logs_subprocess_run, Hgit|intros _].
  eapply logs_bind; [logs_go|intros _].
  destruct (bool_decide (ps = [])); [logs_go|].
  eapply logs_bind; [apply logs_git|intros _]. logs_go.
Qed.

(** The copy loop of [main]. *)
Hypothesis Hprint : forall s, P (Print s).

Lemma logs_copy_new tg ng target new :
  (forall p, P (Mkdir p)) -> (forall s d, P (Copy s d)) ->
  logs I P (copy_new E tg ng target new) I.
Proof.
  intros Hmk Hcp. unfold copy_new. apply logs_for_each. intros p.
  eapply logs_bind; [by apply logs_must_ignore|intros skip].
  destruct skip; [logs_go|].
  eapply logs_bind; [by apply logs_mkdir|intros _].
  eapply logs_bind; [by apply logs_shutil_copy|intros _]. apply logs_add.
Qed.

End LogsOfGit.

Set Default Proof Using "Type".

Section LogsOfMain.
Import Py PurePath.
Variable E : environment.

Lemma stable_record_at mp : stable (record_at mp).
Proof. unfold stable, record_at. congruence. Qed.

Lemma stable_True : stable (fun _ => True).
Proof. done. Qed.

Lemma logs_init P I mp : logs I P (AndroidMetadata_init mp) (record_at mp).
Proof.
  intros w _. unfold AndroidMetadata_init, bind, get, modify, raise. simpl.
  destruct (path_exists mp w); simpl.
  - split; [exists []; by rewrite app_nil_r|done].
  - split; [exists []; by rewrite app_nil_r|done].
Qed.

Lemma logs_write_content (P : event -> Prop) mp :
  (forall text, P (WriteText mp text)) ->
  logs (record_at mp) P _write_content (record_at mp).
Proof.
  intros HP w Hw. unfold _write_content, bind, get. simpl.
  destruct (_content (meta w)) as [text|]; simpl.
  - split; [|done]. exists [WriteText (_metadata_path (meta w)) text].
    split; [done|]. rewrite Hw. by repeat constructor.
  - split; [exists []; by rewrite app_nil_r|done].
Qed.

Lemma logs_update (P : event -> Prop) mp v :
  (forall text, P (WriteText mp text)) ->
  logs (record_at mp) P (update_version_and_import_date E v) (record_at mp).
Proof.
  intros HP. pose proof (stable_record_at mp) as HS.
  unfold update_version_and_import_date.
  eapply logs_bind; [by apply logs_read_content|intros _].
  eapply logs_bind; [by apply logs_content|intros text].
  eapply logs_bind; [logs_go|intros text1].
  eapply logs_bind; [logs_go|intros _].
  eapply logs_bind; [logs_go|intros text2].
  eapply logs_bind; [logs_go|intros _].
  by apply logs_write_content.
Qed.

Lemma stable_and (C : Prop) mp : stable (fun w => C /\ record_at mp w).
Proof. unfold stable, record_at. intros w w' Hm [? ?]. split; congruence. Qed.

Lemma assert_returns self w a :
  outcome_of (assert_no_uncommitted_changes E self w) = Ok a ->
  clean_tree E (base self).
Proof.
  unfold assert_no_uncommitted_changes, _git, subprocess_run, when, bind, emit,
    sys_exit, ret, outcome_of, clean_tree, diff_files_cmd, diff_index_cmd.
  simpl.
  repeat match goal with
         | |- context [(?rc =? 0)%Z] =>
             let H := fresh "H" in destruct (rc =? 0)%Z eqn:H; simpl
         end; try done.
  intros _. split; by apply Z.eqb_eq.
Qed.

Lemma init_returns mp w a :
  outcome_of (AndroidMetadata_init mp w) = Ok a ->
  record_at mp (world_of (AndroidMetadata_init mp w)).
Proof.
  unfold AndroidMetadata_init, bind, get, modify, raise, outcome_of, world_of.
  simpl. by destruct (path_exists mp w).
Qed.

Lemma logs_step_returns {A} I (P : event -> Prop) J (m : M A) w a w' :
  logs I P m J -> I w -> m w = (Ok a, w') -> J w'.
Proof.
  intros Hm HI Hrun. destruct (Hm w HI) as [_ HJ].
  specialize (HJ a). rewrite Hrun in HJ. by apply HJ.
Qed.

(** The update that returns has written the text the object holds. *)
Lemma update_returns mp v w a :
  record_at mp w ->
  outcome_of (update_version_and_import_date E v w) = Ok a ->
  exists evs text,
    events (world_of (update_version_and_import_date E v w))
    = evs ++ [WriteText mp text]
    /\ files (world_of (update_version_and_import_date E v w)) !! mp = Some text.
Proof.
  intros Hw Hok. pose proof (stable_record_at mp) as HS.
  destruct (update_version_and_import_date E v w) as [o w'] eqn:Hrun.
  unfold outcome_of, world_of in *. cbn [fst snd] in *. subst o.
  unfold update_version_and_import_date in Hrun.
  apply bind_inv_Ok in Hrun as (? & w1 & H1 & Hrun).
  apply (logs_step_returns _ (fun _ => True) _ _ _ _ _
           (logs_read_content _ _ HS) Hw) in H1.
  apply bind_inv_Ok in Hrun as (text & w2 & H2 & Hrun).
  apply (logs_step_returns _ (fun _ => True) _ _ _ _ _
           (logs_content _ _ HS) H1) in H2.
  apply bind_inv_Ok in Hrun as (text1 & w3 & H3 & Hrun).
  apply (logs_step_returns _ (fun _ => True) _ _ _ _ _
           (logs_lift _ _ _) H2) in H3.
  apply bind_inv_Ok in Hrun as (? & w4 & H4 & Hrun).
  injection H4 as _ <-.
  apply bind_inv_Ok in Hrun as (text2 & w5 & H5 & Hrun).
  unfold lift in H5. injection H5 as _ <-.
  apply bind_inv_Ok in Hrun as (? & w6 & H6 & Hrun).
  injection H6 as _ <-.
  unfold _write_content, bind, get, emit, modify in Hrun. cbn in Hrun.
  injection Hrun as _ <-. cbn. unfold record_at in H3. rewrite H3.
  exists (events w3), text2. split; [done|]. apply lookup_insert_eq.
Qed.

(** A git command that returns has been logged and has changed no file. *)
Lemma git_returns self cmd w a :
  outcome_of ((_git E self cmd true >> ret tt) w) = Ok a ->
  world_of ((_git E self cmd true >> ret tt) w)
  = log (Run ([lit "git"; lit "-C"; to_str (base self)] ++ cmd)) w.
Proof.
  unfold _git, subprocess_run, bind, emit, raise, ret, outcome_of, world_of.
  simpl. by destruct (_ =? 0)%Z.
Qed.

(** Every event of a run of [main] is one of those [main_event] lists;
    a run that returns has found the tree clean and ends with the write
    of the record, its staging and the commit. *)
Lemma main_logs args :
  logs (fun _ => True) (main_event args) (main E args)
       (fun w => clean_tree E (script_dir args) /\ completed args w).
Proof.
  set (C := clean_tree E (script_dir args)).
  set (I := fun w => C /\ record_at (metadata_path_of args) w).
  pose proof stable_True as HT.
  assert (stable (fun _ : world => C)) as HC by (by intros ? ? _ ?).
  pose proof (stable_and C (metadata_path_of args)) as HS. fold I in HS.
  assert (forall cmd, main_event args (Run (lit "git" :: cmd))) as Hgit by done.
  assert (forall s, main_event args (Print s)) as Hprint by done.
  assert (forall p, main_event args (Mkdir p)) as Hmk by done.
  assert (forall s d, main_event args (Copy s d)) as Hcp by done.
  assert (forall text, main_event args (WriteText (metadata_path_of args) text))
    as Hwr by done.
  assert (force_clean args = true -> forall p, main_event args (Rmtree p))
    as Hrm by done.
  unfold main.
  eapply logs_bind; [logs_go|intros there].
  apply (logs_bind _ _ (fun _ => True)); [destruct there; logs_go|intros _].
  eapply logs_bind; [by apply logs_print|intros _].
  apply (logs_bind _ _ (fun _ => C)).
  { eapply logs_returns; [by apply logs_assert_no_uncommitted_changes|].
    intros w a _. apply assert_returns. }
  intros _. fold (metadata_path_of args).
  apply (logs_bind _ _ I).
  { eapply logs_returns; [by apply (logs_init _ (fun _ => C))|].
    intros w a HCw Ha. split; [exact HCw|by apply (init_returns _ _ a)]. }
  intros _.
  eapply logs_bind; [by apply logs_git_url|intros url].
  eapply logs_bind; [by apply logs_print|intros _].
  eapply logs_bind; [by apply logs_git_url|intros url'].
  eapply logs_bind; [by apply logs_git_paths|intros paths].
  eapply logs_bind; [by apply logs_sparse_depth1_clone|intros _].
  eapply logs_bind; [by apply logs_get_hash_for_version|intros hash].
  eapply logs_bind; [by apply logs_git_ref_name_for_version|intros ref].
  eapply logs_bind; [by apply logs_print|intros _].
  eapply logs_bind; [by apply logs_git_paths|intros paths'].
  eapply logs_bind; [by apply logs_get_files|intros new].
  eapply logs_bind.
  { destruct (remove_old_files args) eqn:Hflag; [|logs_go].
    eapply logs_bind; [by apply logs_git_url|intros ?].
    eapply logs_bind; [by apply logs_current_version|intros ?].
    eapply logs_bind; [by apply logs_print|intros _].
    eapply logs_bind; [by apply logs_current_version|intros ?].
    eapply logs_bind; [by apply logs_git_url|intros ?].
    eapply logs_bind; [by apply logs_current_version|intros ?].
    eapply logs_bind; [by apply logs_git_paths|intros ?].
    eapply logs_bind; [by apply logs_sparse_depth1_clone|intros _].
    eapply logs_bind; [by apply logs_current_version|intros ?].
    eapply logs_bind; [by apply logs_get_hash_for_version|intros ?].
    eapply logs_bind; [by apply logs_print|intros _].
    eapply logs_bind; [by apply logs_git_paths|intros ?].
    eapply logs_bind; [by apply logs_get_files|intros old].
    by apply logs_remove_old. }
  intros _.
  eapply logs_bind; [by apply logs_copy_new|intros _].
  set (mp := metadata_path_of args) in *.
  set (b := script_dir args) in *.
  apply (logs_bind _ _
           (fun w => C /\ exists evs text,
                       events w = evs ++ [WriteText mp text]
                       /\ files w !! mp = Some text)).
  { eapply logs_returns.
    - eapply logs_pre; [|by apply (logs_update _ mp)]. by intros w [_ ?].
    - intros w a [HCw Hw] Ha. split; [exact HCw|].
      by apply (update_returns mp _ w a). }
  intros _.
  apply (logs_bind _ _
           (fun w => C /\ exists evs text,
                       events w = evs ++ [WriteText mp text;
                                          Run (add_cmd (Repo b) mp)]
                       /\ files w !! mp = Some text)).
  { eapply logs_returns.
    { eapply logs_pre; [|by apply logs_add with (I := fun _ => True)]. done. }
    intros w a [HCw (evs & text & He & Hf)] Ha. split; [exact HCw|].
    unfold add in *. rewrite (git_returns _ _ _ _ Ha).
    exists evs, text. split; [|done]. cbn [log events]. rewrite He.
    by rewrite <- app_assoc. }
  intros _.
  eapply logs_returns.
  { eapply logs_pre; [|by apply logs_commit with (I := fun _ => True)]. done. }
  intros w a [HCw (evs & text & He & Hf)] Ha. split; [exact HCw|].
  unfold commit in *. rewrite (git_returns _ _ _ _ Ha).
  unfold completed. fold mp b.
  match goal with
  | |- context [commit_cmd ?m true true] => exists evs, text, m
  end.
  split; [|done]. cbn [log events]. rewrite He. by rewrite <- app_assoc.
Qed.

Lemma main_events args w :
  Forall (main_event args) (events_since w (world_of (main E args w))).
Proof.
  destruct (main_logs args w I) as [(evs & He & HP) _].
  by rewrite (events_since_app _ _ _ He).
Qed.

End LogsOfMain.

(** ** What [main] never does *)

Section MainNever.
Import Py PurePath.
Variable E : environment.

(** X2: whatever the arguments, the answers of the processes and the
    state of the files, and however the run ends, [main] starts no
    program but git. *)
Theorem main_runs_only_git (args : Args) (w : world) :
  Forall runs_git_only (events_since w (world_of (main E args w))).
Proof.
  eapply Forall_impl; [apply main_events|].
  by intros [].
Qed.

(** X3: with --no-remove-old-files no file is unlinked, however the run
    ends. *)
Theorem main_without_remove_old_files_unlinks_nothing (args : Args) (w : world) :
  remove_old_files args = false ->
  Forall (fun e => is_unlink e = false)
         (events_since w (world_of (main E args w))).
Proof.
  intros Hflag. eapply Forall_impl; [apply main_events|].
  intros [] He; try done. simpl in He. congruence.
Qed.

(** X4: with --no-force-clean no directory tree is removed, however the
    run ends. *)
Theorem main_without_force_clean_removes_no_tree (args : Args) (w : world) :
  force_clean args = false ->
  Forall (fun e => is_rmtree e = false)
         (events_since w (world_of (main E args w))).
Proof.
  intros Hflag. eapply Forall_impl; [apply main_events|].
  intros [] He; try done. simpl in He. congruence.
Qed.

(** X5: the only file [main] rewrites through the metadata object is
    the record of the group. *)
Theorem main_rewrites_only_the_record (args : Args) (w : world) :
  Forall (writes_only (metadata_path_of args))
         (events_since w (world_of (main E args w))).
Proof.
  eapply Forall_impl; [apply main_events|].
  by intros [].
Qed.

End MainNever.

(** The import from 1.0 to 2.0 without the deletion of old files: the
    run comes to its end and unlinks nothing, where the same run with
    the deletion unlinks old.txt. *)
Lemma main_without_remove_old_files_unlinks_nothing_witness :
  let args := MkArgs [lit "tree"] (lit "group") (lit "2.0") true false in
  let args' := MkArgs [lit "tree"] (lit "group") (lit "2.0") true true in
  remove_old_files args = false
  /\ outcome_of (main upgrade_env args upgrade_world) = Ok tt
  /\ Forall (fun e => is_unlink e = false)
       (events_since upgrade_world
          (world_of (main upgrade_env args upgrade_world)))
  /\ Unlink [lit "tree"; lit "group"; lit "old.txt"]
     ∈ events_since upgrade_world
         (world_of (main upgrade_env args' upgrade_world)).
Proof.
  intros args args'. split; [reflexivity|]. split; [by vm_compute|].
  split.
  - exact (main_without_remove_old_files_unlinks_nothing upgrade_env args
             upgrade_world eq_refl).
  - apply list_elem_of_In. vm_compute. tauto.
Defined.

(** The same import with the checkouts kept: the run comes to its end
    and removes no tree, where the same run with a clean fetch removes
    the checkout of 2.0. *)
Lemma main_without_force_clean_removes_no_tree_witness :
  let args := MkArgs [lit "tree"] (lit "group") (lit "2.0") false true in
  let args' := MkArgs [lit "tree"] (lit "group") (lit "2.0") true true in
  force_clean args = false
  /\ outcome_of (main upgrade_env args upgrade_world) = Ok tt
  /\ Forall (fun e => is_rmtree e = false)
       (events_since upgrade_world
          (world_of (main upgrade_env args upgrade_world)))
  /\ Rmtree [lit "tree"; lit ".import"; lit "group"; lit "2.0"]
     ∈ events_since upgrade_world
         (world_of (main upgrade_env args' upgrade_world)).
Proof.
  intros args args'. split; [reflexivity|]. split; [by vm_compute|].
  split.
  - exact (main_without_force_clean_removes_no_tree upgrade_env args
             upgrade_world eq_refl).
  - apply list_elem_of_In. vm_compute. tauto.
Defined.

(** ** A record that lacks a field *)

Section MissingField.
Import Re Template.

Lemma search_none p s :
  (forall j, match_at p (drop j s) = None) -> search p s = None.
Proof.
  induction s as [|a s IH]; intros Hno.
  - pose proof (Hno 0) as H0. simpl in *. by rewrite H0.
  - cbn [search]. pose proof (Hno 0) as H0. rewrite drop_0 in H0. rewrite H0.
    apply IH. intros j. apply (Hno (S j)).
Qed.

Lemma no_version_match text j :
  (forall i v, ~ version_at text i v) ->
  match_at VERSION_PATTERN (drop j text) = None.
Proof.
  intros Hno. rewrite match_at_version.
  destruct (field_at VERSION_OPENING dq (drop j text)) as [[u post]|] eqn:Hf;
    [|done].
  exfalso. apply (Hno j u). apply version_at_field. eauto.
Qed.

Lemma current_version_exits (w : world) (text : str) :
  record_of w = Some text ->
  (forall i v, ~ version_at text i v) ->
  outcome_of (current_version w)
  = Exit (current_version_msg (_metadata_path (meta w)))
  /\ files (world_of (current_version w)) = files w
  /\ events (world_of (current_version w)) = events w.
Proof.
  intros Hr Hno. unfold current_version.
  destruct (read_content_then
              (fun text => match search VERSION_PATTERN text with
                           | Some m => ret (grp1 m)
                           | None => do m <- get meta;
                                     sys_exit (current_version_msg (_metadata_path m))
                           end) w text Hr)
    as (w1 & -> & Hf & He & _ & _ & _ & _ & Hp).
  rewrite search_none by (intros j; by apply no_version_match).
  unfold bind, get, sys_exit, outcome_of, world_of. simpl.
  by rewrite Hp.
Qed.

(** X6: on a record without any version field [current_version] leaves
    through [sys.exit] with the message that names the record; no file
    is changed and nothing is logged. *)
Theorem current_version_without_field (w : world) (text : str) :
  record_of w = Some text ->
  (forall i v, ~ version_at text i v) ->
  outcome_of (current_version w)
  = Exit (current_version_msg (_metadata_path (meta w)))
  /\ files (world_of (current_version w)) = files w
  /\ events (world_of (current_version w)) = events w.
Proof. apply current_version_exits. Qed.

(** A pass that finds nothing to replace keeps the text. *)
Lemma rewrites_nothing (P : str -> Prop) r s t :
  rewrites P r s t ->
  (forall pre m post, s = pre ++ m ++ post -> ~ P m) ->
  t = s.
Proof.
  induction 1 as [|a s t _ _ IH|m s t Hm _ _]; intros Hno.
  - done.
  - f_equal. apply IH. intros pre m post ->. by apply (Hno (a :: pre) m post).
  - exfalso. by apply (Hno [] m s).
Qed.

Lemma no_version_field text :
  (forall i v, ~ version_at text i v) ->
  forall pre m post, text = pre ++ m ++ post -> ~ field VERSION_OPENING dq m.
Proof.
  intros Hno pre m post -> (body & -> & Hb).
  apply (Hno (length pre) body). exists post. split; [|done].
  rewrite drop_app_length, version_field_opening. by rewrite <- !app_assoc.
Qed.

Lemma no_date_field text :
  (forall pre body post, text <> pre ++ DATE_OPENING ++ body ++ "}"%char :: post) ->
  forall pre m post, text = pre ++ m ++ post -> ~ field DATE_OPENING "}" m.
Proof.
  intros Hno pre m post -> (body & -> & Hb).
  apply (Hno pre body post). by rewrite <- !app_assoc.
Qed.

Section Update.
Variable E : environment.

(** The update with a version free of backslashes: the two passes, the
    write and the text the object holds afterwards. *)
Lemma update_run (w : world) (text v : str) :
  record_of w = Some text ->
  backslash ∉ v ->
  let text1 := sub_go VERSION_FIELD ((fun a => TLit [a]) <$> version_field v) 0 text in
  let text2 := sub_go DATE_FIELD ((fun a => TLit [a]) <$> date_field (now E)) 0 text1 in
  exists w',
    update_version_and_import_date E v w = (Ok tt, w')
    /\ files w' = <[_metadata_path (meta w) := text2]> (files w)
    /\ events w' = events w ++ [WriteText (_metadata_path (meta w)) text2]
    /\ _content (meta w') = Some text2
    /\ _metadata_path (meta w') = _metadata_path (meta w)
    /\ rewrites (field VERSION_OPENING dq) (version_field v) text text1
    /\ rewrites (field DATE_OPENING "}") (date_field (now E)) text1 text2.
Proof.
  intros Hr Hv text1 text2. apply not_char_all in Hv.
  unfold update_version_and_import_date.
  destruct (read_content_then
              (fun text =>
                 do text1 <- lift (re_sub VERSION_FIELD (version_field v) text);
                 modify (set_meta (set_content text1)) >>
                 do text2 <- lift (re_sub DATE_FIELD (date_field (now E)) text1);
                 modify (set_meta (set_content text2)) >> _write_content)
              w text Hr) as (w1 & -> & Hf & He & _ & _ & _ & _ & Hmp).
  unfold bind at 1. unfold lift at 1.
  rewrite (re_sub_literal _ _ _ (version_field_plain v Hv)). fold text1.
  unfold bind at 1. unfold modify at 1. unfold bind at 1. unfold lift at 1.
  rewrite (re_sub_literal _ _ _ (date_field_plain (now E))). fold text2.
  unfold bind, modify, _write_content, bind, get, emit, modify, ret. simpl.
  eexists. split; [reflexivity|]. simpl. rewrite Hf, He, Hmp.
  split_and!; try done.
  - unfold text1. rewrite version_field_is_field. apply sub_field_rewrites.
    intros m. apply expand_literal.
  - unfold text2. rewrite date_field_is_field. apply sub_field_rewrites.
    intros m. apply expand_literal.
Qed.

(** X7: on a record that, as text mode reads it, has neither a version
    field nor a date block, the update with a version free of
    backslashes succeeds and writes back the text it has read, with the
    line ends it was read with: the new version is recorded nowhere, and
    [current_version] still leaves through [sys.exit] afterwards. *)
Theorem update_without_fields_records_nothing (w : world) (text v : str) :
  record_of w = Some text ->
  backslash ∉ v ->
  (forall i u, ~ version_at text i u) ->
  (forall pre body post,
     text <> pre ++ DATE_OPENING ++ body ++ "}"%char :: post) ->
  exists w',
    update_version_and_import_date E v w = (Ok tt, w')
    /\ files w' = <[_metadata_path (meta w) := text]> (files w)
    /\ events_since w w' = [WriteText (_metadata_path (meta w)) text]
    /\ outcome_of (current_version w')
       = Exit (current_version_msg (_metadata_path (meta w))).
Proof.
  intros Hr Hv Hnov Hnod.
  destruct (update_run w text v Hr Hv)
    as (w' & Hrun & Hf & He & Hc & Hmp & Hr1 & Hr2).
  apply rewrites_nothing in Hr1; [|by apply no_version_field].
  rewrite Hr1 in Hr2.
  apply rewrites_nothing in Hr2; [|by apply no_date_field].
  rewrite Hr1 in Hf, He, Hc. rewrite Hr2 in Hf, He, Hc.
  exists w'. split_and!; try done.
  - by apply events_since_app.
  - rewrite <- Hmp. apply (current_version_exits w' text); [|done].
    unfold record_of. by rewrite Hc.
Qed.

Lemma letter_escape_at c rest :
  is_ascii_letter c = true ->
  existsb (Ascii.eqb c) (lit "abfnrtvg") = false ->
  escape_at (c :: rest) = Raise ReError.
Proof.
  destruct c as [[] [] [] [] [] [] [] []]; intros H1 H2;
    vm_compute in H1; vm_compute in H2; try discriminate; reflexivity.
Qed.

Lemma parse_go_bad_escape pre rest e :
  forallb (not_char backslash) pre = true ->
  escape_at rest = Raise e ->
  parse_go 0 (pre ++ backslash :: rest) = Raise e.
Proof.
  intros Hpre Hbad. induction pre as [|a pre IH]; simpl.
  - by rewrite Hbad.
  - simpl in Hpre. apply andb_true_iff in Hpre as [Ha Hpre].
    unfold not_char in Ha. apply negb_true_iff in Ha. rewrite Ha.
    by rewrite (IH Hpre).
Qed.

(** X8: a version in which a backslash is followed by a letter that is
    no escape of a replacement template (the first backslash of the
    version) makes the update raise the error of [re.sub]; the record
    file is not written. *)
Theorem update_with_bad_escape_raises (w : world) (text a b : str) (c : ascii) :
  record_of w = Some text ->
  backslash ∉ a ->
  is_ascii_letter c = true ->
  existsb (Ascii.eqb c) (lit "abfnrtvg") = false ->
  let r := update_version_and_import_date E (a ++ backslash :: c :: b) w in
  outcome_of r = Raise ReError
  /\ files (world_of r) = files w
  /\ events (world_of r) = events w.
Proof.
  intros Hr Ha Hc1 Hc2. cbn zeta. apply not_char_all in Ha.
  unfold update_version_and_import_date.
  destruct (read_content_then
              (fun text =>
                 do text1 <- lift (re_sub VERSION_FIELD
                                     (version_field (a ++ backslash :: c :: b)) text);
                 modify (set_meta (set_content text1)) >>
                 do text2 <- lift (re_sub DATE_FIELD (date_field (now E)) text1);
                 modify (set_meta (set_content text2)) >> _write_content)
              w text Hr) as (w1 & -> & Hf & He & _).
  unfold bind at 1. unfold lift at 1.
  assert (re_sub VERSION_FIELD (version_field (a ++ backslash :: c :: b)) text
          = Raise ReError) as ->; [|done].
  unfold re_sub, parse_template, version_field.
  replace (lit "version: " ++ [dq] ++ (a ++ backslash :: c :: b) ++ [dq])
    with ((lit "version: " ++ [dq] ++ a) ++ backslash :: c :: (b ++ [dq]))
    by (by rewrite <- !app_assoc).
  rewrite (parse_go_bad_escape _ _ ReError); [done| |by apply letter_escape_at].
  rewrite !forallb_app, Ha. by vm_compute.
Qed.

End Update.

End MissingField.

(** A record that holds a name and nothing else. *)
Lemma current_version_without_field_witness :
  let text := lit "name: wayland" in
  record_of (record_world text) = Some text
  /\ outcome_of (current_version (record_world text))
     = Exit (current_version_msg [lit "METADATA"]).
Proof.
  intros text.
  assert (record_of (record_world text) = Some text) as Hr by (by vm_compute).
  split; [exact Hr|].
  refine (proj1 (current_version_without_field (record_world text) text Hr _)).
  intros i v (post & Heq & _).
  do 14 (destruct i as [|i]; [vm_compute in Heq; discriminate|]).
  vm_compute in Heq. discriminate.
Defined.

(** A record with a name only, updated to version 2.0. *)
Lemma update_without_fields_records_nothing_witness :
  let text := lit "name: wayland" in
  record_of (record_world text) = Some text
  /\ (backslash ∉ lit "2.0")
  /\ exists w',
       update_version_and_import_date quiet_env (lit "2.0") (record_world text)
       = (Ok tt, w')
       /\ files w' = <[ [lit "METADATA"] := text ]> (files (record_world text)).
Proof.
  intros text.
  assert (record_of (record_world text) = Some text) as Hr by (by vm_compute).
  assert (backslash ∉ lit "2.0") as Hv by (apply not_in_plain; by vm_compute).
  split; [exact Hr|]. split; [exact Hv|].
  destruct (update_without_fields_records_nothing quiet_env (record_world text)
              text (lit "2.0") Hr Hv) as (w' & Hrun & Hf & _).
  - intros i v (post & Heq & _).
    do 14 (destruct i as [|i]; [vm_compute in Heq; discriminate|]).
    vm_compute in Heq. discriminate.
  - intros pre body post Heq.
    apply (f_equal length) in Heq. rewrite !length_app in Heq.
    change (length text) with 13 in Heq.
    change (length DATE_OPENING) with 19 in Heq. lia.
  - by exists w'.
Defined.

(** The version 2.0 followed by a backslash and the letter x. *)
Lemma update_with_bad_escape_raises_witness :
  let text := version_field (lit "1.0") in
  record_of (record_world text) = Some text
  /\ outcome_of (update_version_and_import_date quiet_env
                   (lit "2.0" ++ backslash :: "x"%char :: [])
                   (record_world text))
     = Raise ReError.
Proof.
  intros text.
  assert (record_of (record_world text) = Some text) as Hr by (by vm_compute).
  split; [exact Hr|].
  refine (proj1 (update_with_bad_escape_raises quiet_env (record_world text) text
                   (lit "2.0") [] "x"%char Hr _ eq_refl eq_refl)).
  apply not_in_plain. by vm_compute.
Defined.

(** ** A working tree that is not clean *)

Section Unclean.
Import PurePath.
Variable E : environment.

Lemma assert_dirty self w :
  returncode (process E (diff_files_cmd (base self))) <> 0%Z ->
  assert_no_uncommitted_changes E self w
  = (Exit (lit "Error: Your tree is dirty"),
     log (Run (diff_files_cmd (base self))) w).
Proof.
  intros Hrc. apply Z.eqb_neq in Hrc.
  unfold assert_no_uncommitted_changes, _git, subprocess_run, when, bind, emit,
    sys_exit, ret. simpl.
  unfold diff_files_cmd in Hrc. simpl in Hrc. by rewrite Hrc.
Qed.

Lemma assert_staged self w :
  returncode (process E (diff_files_cmd (base self))) = 0%Z ->
  returncode (process E (diff_index_cmd (base self))) <> 0%Z ->
  assert_no_uncommitted_changes E self w
  = (Exit (lit "Error: You have staged changes"),
     log (Run (diff_index_cmd (base self)))
         (log (Run (diff_files_cmd (base self))) w)).
Proof.
  intros Hrc1 Hrc2. apply Z.eqb_eq in Hrc1. apply Z.eqb_neq in Hrc2.
  unfold assert_no_uncommitted_changes, _git, subprocess_run, when, bind, emit,
    sys_exit, ret. simpl.
  unfold diff_files_cmd in Hrc1. unfold diff_index_cmd in Hrc2.
  simpl in Hrc1, Hrc2. by rewrite Hrc1, Hrc2.
Qed.

Lemma assert_clean self w :
  returncode (process E (diff_files_cmd (base self))) = 0%Z ->
  returncode (process E (diff_index_cmd (base self))) = 0%Z ->
  assert_no_uncommitted_changes E self w
  = (Ok tt,
     log (Run (diff_index_cmd (base self)))
         (log (Run (diff_files_cmd (base self))) w)).
Proof.
  intros Hrc1 Hrc2. apply Z.eqb_eq in Hrc1. apply Z.eqb_eq in Hrc2.
  unfold assert_no_uncommitted_changes, _git, subprocess_run, when, bind, emit,
    sys_exit, ret. simpl.
  unfold diff_files_cmd in Hrc1. unfold diff_index_cmd in Hrc2.
  simpl in Hrc1, Hrc2. by rewrite Hrc1, Hrc2.
Qed.

(** X9: when git diff-files reports changes, [main] leaves through
    [sys.exit] with the message of a dirty tree, having printed its
    banner and run that one command; no file is changed. *)
Theorem main_stops_on_dirty_tree (args : Args) (w : world) :
  path_exists (script_dir args) w = true ->
  returncode (process E (diff_files_cmd (script_dir args))) <> 0%Z ->
  outcome_of (main E args w) = Exit (lit "Error: Your tree is dirty")
  /\ events_since w (world_of (main E args w))
     = [banner args; Run (diff_files_cmd (script_dir args))]
  /\ files (world_of (main E args w)) = files w.
Proof.
  intros Hbase Hrc. unfold main. cbn zeta.
  rewrite (bind_Ok _ _ w true w) by (unfold get; by rewrite Hbase).
  rewrite (bind_Ok _ _ w tt w) by done.
  rewrite (bind_Ok _ _ w tt (log (banner args) w)) by done.
  rewrite (bind_Exit _ _ _ _ _
             (assert_dirty (Repo (script_dir args)) (log (banner args) w) Hrc)).
  split; [done|]. split; [|done].
  apply events_since_app. simpl. by rewrite <- app_assoc.
Qed.

(** X10: when git diff-files reports nothing and git diff-index reports
    staged changes, [main] leaves through [sys.exit] with the message of
    staged changes, having run the two commands only; no file is
    changed. *)
Theorem main_stops_on_staged_changes (args : Args) (w : world) :
  path_exists (script_dir args) w = true ->
  returncode (process E (diff_files_cmd (script_dir args))) = 0%Z ->
  returncode (process E (diff_index_cmd (script_dir args))) <> 0%Z ->
  outcome_of (main E args w) = Exit (lit "Error: You have staged changes")
  /\ events_since w (world_of (main E args w))
     = [banner args; Run (diff_files_cmd (script_dir args));
        Run (diff_index_cmd (script_dir args))]
  /\ files (world_of (main E args w)) = files w.
Proof.
  intros Hbase Hrc1 Hrc2. unfold main. cbn zeta.
  rewrite (bind_Ok _ _ w true w) by (unfold get; by rewrite Hbase).
  rewrite (bind_Ok _ _ w tt w) by done.
  rewrite (bind_Ok _ _ w tt (log (banner args) w)) by done.
  rewrite (bind_Exit _ _ _ _ _
             (assert_staged (Repo (script_dir args)) (log (banner args) w)
                Hrc1 Hrc2)).
  split; [done|]. split; [|done].
  apply events_since_app. simpl. by rewrite <- !app_assoc.
Qed.

End Unclean.

(** A tree with changes that are not staged: every git command returns 1. *)
Lemma main_stops_on_dirty_tree_witness :
  let E := Environment (fun _ => Completed 1 []) (fun _ => ∅) (Date 2024 11 4) in
  let args := MkArgs [lit "tree"] (lit "group") (lit "2.0") true true in
  let w := World ∅ {[ [lit "tree"] ]} (Metadata [] None None None) [] in
  path_exists (script_dir args) w = true
  /\ outcome_of (main E args w) = Exit (lit "Error: Your tree is dirty").
Proof.
  intros E args w.
  assert (path_exists (script_dir args) w = true) as Hb by (by vm_compute).
  split; [exact Hb|].
  refine (proj1 (main_stops_on_dirty_tree E args w Hb _)).
  by vm_compute.
Defined.

(** A tree with staged changes: git diff-index returns 1, every other
    command 0. *)
Lemma main_stops_on_staged_changes_witness :
  let E := Environment
             (fun cmd => Completed (if bool_decide (lit "diff-index" ∈ cmd)
                                    then 1 else 0) [])
             (fun _ => ∅) (Date 2024 11 4) in
  let args := MkArgs [lit "tree"] (lit "group") (lit "2.0") true true in
  let w := World ∅ {[ [lit "tree"] ]} (Metadata [] None None None) [] in
  path_exists (script_dir args) w = true
  /\ outcome_of (main E args w) = Exit (lit "Error: You have staged changes").
Proof.
  intros E args w.
  assert (path_exists (script_dir args) w = true) as Hb by (by vm_compute).
  split; [exact Hb|].
  refine (proj1 (main_stops_on_staged_changes E args w Hb _ _)).
  - by vm_compute.
  - by vm_compute.
Defined.

(** ** Reading what git prints *)

Section Lines.
Import PurePath.

Lemma splitlines_go_line cur l rest :
  one_line l ->
  splitlines_go cur (l ++ nl :: rest) = (rev cur ++ l) :: splitlines_go [] rest.
Proof.
  intros Hl. revert cur. induction Hl as [|a l Ha _ IH]; intros cur.
  - simpl. rewrite app_nil_r. by destruct rest.
  - cbn [app splitlines_go]. rewrite Ha, IH. simpl. by rewrite <- app_assoc.
Qed.

Lemma splitlines_line l rest :
  one_line l -> splitlines (l ++ nl :: rest) = l :: splitlines rest.
Proof. intros Hl. unfold splitlines. by rewrite splitlines_go_line. Qed.

Lemma splitlines_printed lines :
  Forall one_line lines -> splitlines (printed lines) = lines.
Proof.
  induction 1 as [|l lines Hl _ IH]; [done|].
  unfold printed. rewrite fmap_cons, concat_cons, <- app_assoc. simpl.
  rewrite splitlines_line by done. f_equal. exact IH.
Qed.

Lemma lstrip_head s :
  (forall c, head s = Some c -> isspace c = false) -> lstrip s = s.
Proof. destruct s as [|a s]; [done|]. intros H. simpl. by rewrite (H a). Qed.

Lemma head_rev (s : str) : head (rev s) = last s.
Proof.
  induction s as [|a s IH] using rev_ind; [done|].
  by rewrite rev_app_distr, last_snoc.
Qed.

Lemma strip_trimmed s :
  (forall c, head s = Some c -> isspace c = false) ->
  (forall c, last s = Some c -> isspace c = false) ->
  strip s = s.
Proof.
  intros Hh Hl. unfold strip. rewrite (lstrip_head s Hh).
  rewrite lstrip_head by (intros c; rewrite head_rev; apply Hl).
  apply rev_involutive.
Qed.

Lemma linebreak_is_space c : is_linebreak c = true -> isspace c = true.
Proof.
  destruct c as [[] [] [] [] [] [] [] []]; intros H; vm_compute in H;
    try discriminate; reflexivity.
Qed.

Lemma no_space_one_line s : Forall (fun c => isspace c = false) s -> one_line s.
Proof.
  intros Hs. eapply Forall_impl; [exact Hs|]. intros c Hc. simpl.
  destruct (is_linebreak c) eqn:Hl; [|done].
  apply linebreak_is_space in Hl. congruence.
Qed.

Lemma strip_no_space s : Forall (fun c => isspace c = false) s -> strip s = s.
Proof.
  intros Hs. rewrite Forall_forall in Hs.
  apply strip_trimmed; intros c Hc; apply Hs.
  - destruct s; simplify_eq/=. by left.
  - by apply last_Some_elem_of.
Qed.

Variable E : environment.

(** X11: when git ls-tree prints one path per line, [get_files] returns
    these paths in the order of the lines; when git fails it raises
    CalledProcessError. *)
Theorem get_files_returns_the_lines
    (self : GitRepo) (version : str) (paths : list str) (lines : list str)
    (w : world) :
  stdout (process E (ls_tree_cmd self version paths)) = printed lines ->
  Forall one_line lines ->
  outcome_of (get_files E self version paths w)
  = if (returncode (process E (ls_tree_cmd self version paths)) =? 0)%Z
    then Ok (of_str <$> lines)
    else Raise CalledProcessError.
Proof.
  intros Hout Hlines.
  unfold get_files, _git, subprocess_run, bind, emit, raise, ret, outcome_of.
  unfold ls_tree_cmd in *. simpl in *.
  destruct (_ =? 0)%Z; simpl; [|done].
  by rewrite Hout, splitlines_printed.
Qed.

(** X12: [get_hash_for_version] returns the first line git show-ref
    prints, when that line holds no white space; when git fails it raises
    CalledProcessError. *)
Theorem get_hash_for_version_first_line
    (self : GitRepo) (version hash more : str) (w : world) :
  stdout (process E (show_ref_cmd self version)) = hash ++ nl :: more ->
  Forall (fun c => isspace c = false) hash ->
  outcome_of (get_hash_for_version E self version w)
  = if (returncode (process E (show_ref_cmd self version)) =? 0)%Z
    then Ok hash
    else Raise CalledProcessError.
Proof.
  intros Hout Hhash.
  unfold get_hash_for_version, _git, subprocess_run, first_line, bind, emit,
    raise, ret, outcome_of.
  unfold show_ref_cmd in *. simpl in *.
  destruct (_ =? 0)%Z; simpl; [|done].
  rewrite Hout, splitlines_line by (by apply no_space_one_line). simpl.
  by rewrite strip_no_space.
Qed.

(** X13: when the first line git describe prints is tags/ or heads/
    followed by a name, [git_ref_name_for_version] returns that name,
    whatever the return code of git. *)
Theorem git_ref_name_for_version_tag_or_branch
    (self : GitRepo) (version kind name more : str) (w : world) :
  kind = lit "tags/" \/ kind = lit "heads/" ->
  stdout (process E (describe_cmd self version)) = kind ++ name ++ nl :: more ->
  one_line name ->
  (forall c, last name = Some c -> isspace c = false) ->
  outcome_of (git_ref_name_for_version E self version w) = Ok (Some name).
Proof.
  intros Hkind Hout Hname Hlast.
  assert (one_line (kind ++ name)) as Hline.
  { apply Forall_app. split; [|done].
    destruct Hkind as [->| ->]; unfold lit; simpl; by repeat constructor. }
  assert (strip (kind ++ name) = kind ++ name) as Hstrip.
  { apply strip_trimmed.
    - intros c Hc. destruct Hkind as [->| ->]; vm_compute in Hc; by simplify_eq.
    - intros c Hc. destruct name as [|a name] using rev_ind.
      + rewrite app_nil_r in Hc.
        destruct Hkind as [->| ->]; vm_compute in Hc; by simplify_eq.
      + rewrite app_assoc, last_snoc in Hc. apply Hlast. by rewrite last_snoc. }
  unfold git_ref_name_for_version, _git, subprocess_run, first_line, bind, emit,
    raise, ret, outcome_of.
  unfold describe_cmd in *. simpl in *.
  rewrite Hout, app_assoc, splitlines_line by done. simpl.
  rewrite Hstrip.
  destruct Hkind as [->| ->].
  - rewrite startswith_app. unfold removeprefix. by rewrite strip_prefix_app.
  - replace (startswith (lit "heads/" ++ name) (lit "tags/")) with false
      by reflexivity.
    rewrite startswith_app. unfold removeprefix. by rewrite strip_prefix_app.
Qed.

End Lines.

(** Two paths and a subdirectory, as git ls-tree prints them. *)
Lemma get_files_returns_the_lines_witness :
  let lines := [lit "a.txt"; lit "sub/b.txt"] in
  let E := Environment (fun _ => Completed 0 (printed lines)) (fun _ => ∅)
                       (Date 2024 11 4) in
  let self := Repo [lit "tree"] in
  stdout (process E (ls_tree_cmd self (lit "abc") [])) = printed lines
  /\ Forall one_line lines
  /\ outcome_of (get_files E self (lit "abc") [] empty_world)
     = Ok [[lit "a.txt"]; [lit "sub"; lit "b.txt"]].
Proof.
  intros lines E self.
  assert (Forall one_line lines) as Hl
    by (unfold lines, one_line, lit; simpl; by repeat constructor).
  split; [reflexivity|]. split; [exact Hl|].
  exact (get_files_returns_the_lines E self (lit "abc") [] lines empty_world
           eq_refl Hl).
Defined.

(** Two refs of the same name: the hash of the first one is taken. *)
Lemma get_hash_for_version_first_line_witness :
  let E := Environment
             (fun _ => Completed 0 (lit "0a1b2c" ++ nl :: lit "3d4e5f" ++ [nl]))
             (fun _ => ∅) (Date 2024 11 4) in
  let self := Repo [lit "tree"] in
  stdout (process E (show_ref_cmd self (lit "1.0")))
  = lit "0a1b2c" ++ nl :: lit "3d4e5f" ++ [nl]
  /\ outcome_of (get_hash_for_version E self (lit "1.0") empty_world)
     = Ok (lit "0a1b2c").
Proof.
  intros E self. split; [reflexivity|].
  refine (get_hash_for_version_first_line E self (lit "1.0") (lit "0a1b2c")
            (lit "3d4e5f" ++ [nl]) empty_world eq_refl _).
  unfold lit; simpl; by repeat constructor.
Defined.

(** The tag 1.32. *)
Lemma git_ref_name_for_version_tag_or_branch_witness :
  let E := Environment (fun _ => Completed 0 (lit "tags/" ++ lit "1.32" ++ [nl]))
                       (fun _ => ∅) (Date 2024 11 4) in
  let self := Repo [lit "tree"] in
  stdout (process E (describe_cmd self (lit "1.32")))
  = lit "tags/" ++ lit "1.32" ++ [nl]
  /\ outcome_of (git_ref_name_for_version E self (lit "1.32") empty_world)
     = Ok (Some (lit "1.32")).
Proof.
  intros E self. split; [reflexivity|].
  refine (git_ref_name_for_version_tag_or_branch E self (lit "1.32")
            (lit "tags/") (lit "1.32") [] empty_world (or_introl eq_refl)
            eq_refl _ _).
  - unfold one_line, lit; simpl; by repeat constructor.
  - intros c Hc. vm_compute in Hc. by simplify_eq.
Defined.

(** ** A checkout that does not exist yet *)

Section FreshClone.
Import PurePath.
Variable E : environment.

Lemma ancestors_length (p q : path) : q ∈ ancestors p -> length q <= length p.
Proof.
  revert q; induction p as [|c p IH]; intros q; simpl.
  - intros ->%list_elem_of_singleton. done.
  - intros [->|Hq]%elem_of_cons; [simpl; lia|].
    apply list_elem_of_fmap in Hq as (q' & -> & Hq'). simpl.
    apply IH in Hq'. lia.
Qed.

Lemma path_exists_mkdir_parent (b : path) w :
  b <> [] -> path_exists b w = false ->
  path_exists b (world_of (mkdir (parent b) w)) = false.
Proof.
  intros Hb. unfold path_exists, mkdir, world_of. simpl.
  intros [H1 H2]%orb_false_iff. apply orb_false_iff. split; [|done].
  apply bool_decide_eq_false in H1. apply bool_decide_eq_false.
  intros [H|H]%elem_of_union; [done|].
  apply elem_of_list_to_set, ancestors_length in H.
  unfold parent in H. rewrite removelast_firstn_len, length_take in H.
  destruct b; [done|]. simpl in H. lia.
Qed.

(** X14: when the checkout does not exist, [sparse_depth1_clone] runs
    the clone whether or not a clean fetch is asked for, and removes
    nothing; no file of the working tree is changed; when it returns the
    checkout exists; without a URL it raises TypeError. *)
Theorem sparse_depth1_clone_fresh
    (self : GitRepo) (url version : option str) (paths : list str)
    (force : bool) (w : world) :
  base self <> [] ->
  path_exists (base self) w = false ->
  let r := sparse_depth1_clone E self url version paths force w in
  events_since w (world_of r)
  = Mkdir (parent (base self)) :: clone_events E self url version paths
  /\ files (world_of r) = files w
  /\ (outcome_of r = Ok tt -> path_exists (base self) (world_of r) = true)
  /\ (url = None -> outcome_of r = Raise TypeError).
Proof.
  intros Hb Hw. cbn zeta.
  pose proof (path_exists_mkdir_parent _ w Hb Hw) as H1.
  unfold sparse_depth1_clone.
  rewrite (bind_Ok _ _ w tt (world_of (mkdir (parent (base self)) w))) by done.
  assert (events (world_of (mkdir (parent (base self)) w))
          = events w ++ [Mkdir (parent (base self))]) as Hev by done.
  assert (files (world_of (mkdir (parent (base self)) w)) = files w) as Hf by done.
  set (w1 := world_of (mkdir (parent (base self)) w)) in *. clearbody w1.
  rewrite (bind_Ok _ _ w1 false w1) by (unfold get; by rewrite H1).
  rewrite (bind_Ok _ _ w1 tt w1) by (by rewrite andb_false_r).
  rewrite (bind_Ok _ _ w1 false w1) by (unfold get; by rewrite H1).
  destruct url as [u|]; simpl.
  2: { split_and!; try done. apply events_since_app. by rewrite Hev. }
  unfold subprocess_run, _git, subprocess_run, bind, emit, raise, ret, modify,
    world_of, outcome_of.
  destruct (returncode (process E (clone_cmd self u version paths)) =? 0)%Z;
    simpl.
  2: { split_and!; try done. apply events_since_app. simpl.
       by rewrite Hev, <- app_assoc. }
  assert (forall w2, existing w2 = existing w1 ∪ {[ base self ]} ->
            path_exists (base self) w2 = true) as Hthere.
  { intros w2 He. unfold path_exists. apply orb_true_iff. left.
    apply bool_decide_eq_true. rewrite He.
    by apply elem_of_union_r, elem_of_singleton. }
  destruct (bool_decide (paths = [])); simpl.
  { split_and!; try done.
    - apply events_since_app. simpl. by rewrite Hev, <- app_assoc.
    - intros _. by apply Hthere. }
  match goal with
  | |- context [if ?b then _ else _] => destruct b
  end; simpl.
  - split_and!; try done.
    apply events_since_app. simpl. by rewrite Hev, <- !app_assoc.
  - split_and!; try done.
    + apply events_since_app. simpl. by rewrite Hev, <- !app_assoc.
    + intros _. by apply Hthere.
Qed.

End FreshClone.

(** The first import of version 1.0. *)
Lemma sparse_depth1_clone_fresh_witness :
  let repo := Repo [lit "tree"; lit ".import"; lit "group"; lit "1.0"] in
  base repo <> []
  /\ path_exists (base repo) empty_world = false
  /\ events_since empty_world
       (world_of (sparse_depth1_clone quiet_env repo
                    (Some (lit "https://example.org/repo"))
                    (Some (lit "1.0")) [] false empty_world))
     = Mkdir (PurePath.parent (base repo))
       :: clone_events quiet_env repo (Some (lit "https://example.org/repo"))
            (Some (lit "1.0")) [].
Proof.
  intros repo.
  assert (base repo <> []) as Hb by done.
  assert (path_exists (base repo) empty_world = false) as Hw by (by vm_compute).
  split; [exact Hb|]. split; [exact Hw|].
  exact (proj1 (sparse_depth1_clone_fresh quiet_env repo
                  (Some (lit "https://example.org/repo")) (Some (lit "1.0")) []
                  false empty_world Hb Hw)).
Defined.

(** ** The files after the deletion and the copy *)

Section SyncEffect.
Import PurePath.
Variable E : environment.

Lemma write_all_snoc (ws : list (path * str)) (k : path) (v : str)
    (m : gmap path str) :
  write_all (ws ++ [(k, v)]) m = <[k:=v]> (write_all ws m).
Proof. unfold write_all. by rewrite foldl_app. Qed.

(** A key that is only ever written with one text holds that text. *)
Lemma lookup_write_all_Some (ws : list (path * str)) (m : gmap path str)
    (k : path) (v : str) :
  (k, v) ∈ ws -> (forall v', (k, v') ∈ ws -> v' = v) ->
  write_all ws m !! k = Some v.
Proof.
  induction ws as [|[k' v'] ws IH] using rev_ind; intros Hin Hfun.
  - by apply elem_of_nil in Hin.
  - rewrite write_all_snoc. destruct (decide (k' = k)) as [->|Hne].
    + rewrite (Hfun v') by (apply elem_of_app; right; by left).
      apply lookup_insert_eq.
    + rewrite lookup_insert_ne by done. apply IH.
      * apply elem_of_app in Hin as [Hin|Hin]; [done|].
        apply list_elem_of_singleton in Hin. congruence.
      * intros v'' Hv. apply Hfun. apply elem_of_app. by left.
Qed.

Lemma copy_plan_ok tg ng target (l : list path) :
  (copy_plan E tg ng target l).1.1 = Ok tt ->
  forall p, p ∈ l -> ignored p = false ->
    exists text,
      checkout E (base ng) !! p = Some text
      /\ (joinpath target p, text) ∈ (copy_plan E tg ng target l).2.
Proof.
  induction l as [|p0 l IH]; intros Hok p Hin Hp.
  - by apply elem_of_nil in Hin.
  - cbn [copy_plan] in *. destruct (ignored p0) eqn:Hi.
    + apply elem_of_cons in Hin as [->|Hin]; [congruence|]. by apply IH.
    + destruct (checkout E (base ng) !! p0) as [text0|] eqn:Hc; [|done].
      destruct (returncode _ =? 0)%Z; [|done]. cbn [fst snd] in *.
      apply elem_of_cons in Hin as [->|Hin].
      * exists text0. split; [done|]. by left.
      * destruct (IH Hok p Hin Hp) as (text & ? & ?). exists text.
        split; [done|]. by right.
Qed.

Lemma copy_plan_values tg ng target (l : list path) (k : path) (v : str) :
  (k, v) ∈ (copy_plan E tg ng target l).2 ->
  exists p, k = joinpath target p /\ checkout E (base ng) !! p = Some v.
Proof.
  induction l as [|p0 l IH]; intros Hin.
  - by apply elem_of_nil in Hin.
  - cbn [copy_plan] in Hin. destruct (ignored p0); [by apply IH|].
    destruct (checkout E (base ng) !! p0) as [text0|] eqn:Hc;
      [|by apply elem_of_nil in Hin].
    destruct (returncode _ =? 0)%Z; cbn [snd] in Hin.
    + apply elem_of_cons in Hin as [[= -> ->]|Hin]; [by exists p0|by apply IH].
    + apply list_elem_of_singleton in Hin as [= -> ->]. by exists p0.
Qed.

(** X15: in a working tree where the paths of the two file sets are
    places for files (none is a directory, none lies below a file, and
    no path of the new set lies below another), when the deletion and
    the copy come to their end every file of the new set that is not
    protected holds the text it has in the checkout, every file of the
    old set that the new set lacks and that is not protected is gone,
    and every other file is what it was.  The hypotheses on the places
    are the ones under which [shutil.copy], [unlink] and [mkdir] meet no
    directory where they expect a file and no file where they expect a
    directory. *)
Theorem sync_effect_on_files
    (tg ng : GitRepo) (target : path) (old new : list path) (w : world) :
  file_places w target (old ++ new) ->
  prefix_free new ->
  outcome_of (sync E tg ng target old new w) = Ok tt ->
  let after := files (world_of (sync E tg ng target old new w)) in
  (forall p, p ∈ new -> ignored p = false ->
     is_Some (checkout E (base ng) !! p)
     /\ after !! joinpath target p = checkout E (base ng) !! p)
  /\ (forall p, p ∈ old -> p ∉ new -> ignored p = false ->
        after !! joinpath target p = None)
  /\ (forall q,
        (forall p, q = joinpath target p ->
                   ignored p = true \/ ((p ∉ old) /\ (p ∉ new))) ->
        after !! q = files w !! q).
Proof.
  intros _ _.
  destruct (sync_run E tg ng target old new w) as (w' & Hrun & _ & Hf).
  rewrite Hrun. unfold outcome_of, world_of. cbn [fst snd]. intros Hok.
  rewrite Hf. split_and!.
  - intros p Hin Hp.
    destruct (copy_plan_ok tg ng target new Hok p Hin Hp) as (text & Hc & Hw).
    rewrite Hc. split; [eauto|].
    apply lookup_write_all_Some; [done|].
    intros v' (p' & Heq & Hc')%copy_plan_values.
    apply joinpath_inj in Heq as <-. congruence.
  - intros p Ho Hn Hp. rewrite lookup_write_all_other, lookup_unlink_all.
    + rewrite bool_decide_eq_true_2; [done|].
      apply elem_of_unlinked. exists p. split; [done|].
      split; [by apply elem_of_removed|done].
    + intros (p' & Heq & Hin & _)%written_key.
      apply joinpath_inj in Heq as <-. done.
  - intros q Hq. rewrite lookup_write_all_other, lookup_unlink_all.
    + rewrite bool_decide_eq_false_2; [done|].
      intros (p & -> & [Ho Hn]%elem_of_removed & Hp)%elem_of_unlinked.
      destruct (Hq p eq_refl) as [?|[? ?]]; [congruence|done].
    + intros (p & -> & Hin & Hp)%written_key.
      destruct (Hq p eq_refl) as [?|[? ?]]; [congruence|done].
Qed.

(** A tree that records no directory and whose files all lie at one
    depth has a place for a file at every path of that depth. *)
Lemma file_places_flat (w : world) (target : path) (l : list path) (n : nat) :
  existing w = ∅ ->
  (forall k, is_Some (files w !! k) -> length k = n) ->
  (forall p, p ∈ l -> length (joinpath target p) = n) ->
  file_places w target l.
Proof.
  intros Hx Hkeys Hlen p Hin _. specialize (Hlen p Hin). split.
  - intros [Hd|(k & Hk & Hpre & Hne)].
    + rewrite Hx in Hd. by apply elem_of_empty in Hd.
    + apply Hne, prefix_length_eq; [done|]. rewrite (Hkeys k Hk). lia.
  - intros d Hpre Hne. destruct (files w !! d) as [text|] eqn:Hd; [|done].
    exfalso. apply Hne, prefix_length_eq; [done|].
    rewrite (Hkeys d) by eauto. lia.
Qed.

Lemma prefix_free_same_length (l : list path) (n : nat) :
  (forall p, p ∈ l -> length p = n) -> prefix_free l.
Proof.
  intros Hlen p q Hp Hq Hpre. apply prefix_length_eq; [done|].
  rewrite (Hlen p Hp), (Hlen q Hq). lia.
Qed.

End SyncEffect.

(** The import from version 1.0 to version 2.0, all files at the top of
    the group directory: b.txt holds its new text. *)
Lemma sync_effect_on_files_witness :
  let target := [lit "tree"; lit "group"] in
  let old := [[lit "a.txt"]; [lit "b.txt"]] in
  let new := [[lit "b.txt"]; [lit "c.txt"]] in
  let tg := Repo [lit "tree"] in
  let ng := Repo [lit "tree"; lit ".import"; lit "group"; lit "2.0"] in
  let r := sync scenario_env tg ng target old new scenario_world in
  file_places scenario_world target (old ++ new)
  /\ prefix_free new
  /\ outcome_of r = Ok tt
  /\ files (world_of r) !! PurePath.joinpath target [lit "b.txt"]
     = checkout scenario_env (base ng) !! [lit "b.txt"].
Proof.
  intros target old new tg ng r.
  assert (file_places scenario_world target (old ++ new)) as Hplaces.
  { apply (file_places_flat _ _ _ 3); [done| |].
    - intros k [text Hk]. unfold scenario_world in Hk. cbn [files] in Hk.
      apply lookup_insert_Some in Hk as [[<- _]|[_ Hk]]; [done|].
      by apply lookup_singleton_Some in Hk as [<- _].
    - intros p Hp. unfold PurePath.joinpath. rewrite length_app.
      repeat (apply elem_of_cons in Hp as [->|Hp]; [done|]).
      by apply elem_of_nil in Hp. }
  assert (prefix_free new) as Hfree.
  { apply (prefix_free_same_length _ 1). intros p Hp.
    repeat (apply elem_of_cons in Hp as [->|Hp]; [done|]).
    by apply elem_of_nil in Hp. }
  assert (outcome_of r = Ok tt) as Hok by (by vm_compute).
  split; [exact Hplaces|]. split; [exact Hfree|]. split; [exact Hok|].
  destruct (sync_effect_on_files scenario_env tg ng target old new
              scenario_world Hplaces Hfree Hok) as (Hnew & _ & _).
  apply (Hnew [lit "b.txt"]); [by left|by vm_compute].
Defined.

(** ** A run that comes to its end *)

Section Completed.
Variable E : environment.

(** X16: a run of [main] that returns has found the working tree clean,
    and the last three things it did are the write of the record, the
    staging of the record and the commit, made with --allow-empty and
    -a; the record file holds the text written. *)
Theorem main_returns_after_record_and_commit (args : Args) (w : world) :
  outcome_of (main E args w) = Ok tt ->
  clean_tree E (script_dir args) /\ completed args (world_of (main E args w)).
Proof.
  intros Hok. destruct (main_logs E args w I) as [_ H]. by apply (H tt).
Qed.

End Completed.

(** The first import of the scenario runs to its end. *)
Lemma main_returns_after_record_and_commit_witness :
  outcome_of (main import_env import_args import_world) = Ok tt
  /\ clean_tree import_env (script_dir import_args)
  /\ completed import_args (world_of (main import_env import_args import_world)).
Proof.
  assert (outcome_of (main import_env import_args import_world) = Ok tt) as Hok
    by (by vm_compute).
  split; [exact Hok|].
  exact (main_returns_after_record_and_commit import_env import_args
           import_world Hok).
Defined.

(** ** A record that names no URL *)

Section NoUrl.
Import PurePath.
Variable E : environment.

Lemma read_raw_without_url w text :
  record_of w = Some text -> _url (meta w) = None ->
  Re.findall URL_PATTERN text = [] ->
  exists w',
    _read_raw_git_urls w = (Ok tt, w')
    /\ files w' = files w /\ events w' = events w /\ existing w' = existing w
    /\ _url (meta w') = None /\ _paths (meta w') = Some []
    /\ record_of w' = Some text.
Proof.
  intros Hr Hu Hnone. unfold _read_raw_git_urls. unfold bind at 1. unfold get at 1.
  rewrite Hu.
  destruct (read_content_then
              (fun text => do paths <- urls_loop (Re.findall URL_PATTERN text) [];
                           modify (set_meta (set_paths paths)))
              w text Hr) as (w1 & -> & Hf & He & Hx & Hc & Hu1 & _ & Hmp).
  rewrite Hnone. exists (set_meta (set_paths []) w1).
  split; [done|]. unfold record_of. simpl. rewrite Hc, Hu1, Hu. done.
Qed.

Lemma git_url_without_url w text :
  record_of w = Some text -> _url (meta w) = None ->
  Re.findall URL_PATTERN text = [] ->
  exists w',
    git_url w = (Ok None, w')
    /\ files w' = files w /\ events w' = events w /\ existing w' = existing w
    /\ _url (meta w') = None /\ record_of w' = Some text.
Proof.
  intros Hr Hu Hnone.
  destruct (read_raw_without_url w text Hr Hu Hnone)
    as (w' & Hraw & Hf & He & Hx & Hu' & Hp & Hr').
  exists w'. unfold git_url. rewrite !(bind_Ok _ _ _ _ _ Hraw).
  unfold bind, get, ret. simpl. by rewrite Hu'.
Qed.

Lemma git_paths_without_url w text :
  record_of w = Some text -> _url (meta w) = None ->
  Re.findall URL_PATTERN text = [] ->
  exists w',
    git_paths w = (Ok [], w')
    /\ files w' = files w /\ events w' = events w /\ existing w' = existing w.
Proof.
  intros Hr Hu Hnone.
  destruct (read_raw_without_url w text Hr Hu Hnone)
    as (w' & Hraw & Hf & He & Hx & Hu' & Hp & Hr').
  exists w'. unfold git_paths. rewrite !(bind_Ok _ _ _ _ _ Hraw).
  unfold bind, get, ret. simpl. by rewrite Hp.
Qed.

Lemma clone_without_url self version paths force w :
  base self <> [] ->
  force = true \/ path_exists (base self) w = false ->
  exists w',
    sparse_depth1_clone E self None version paths force w = (Raise TypeError, w')
    /\ events w'
       = events w ++ Mkdir (parent (base self))
         :: (if path_exists (base self) w then [Rmtree (base self)] else []).
Proof.
  intros Hb Hor. unfold sparse_depth1_clone.
  rewrite (bind_Ok _ _ w tt (world_of (mkdir (parent (base self)) w))) by done.
  assert (events (world_of (mkdir (parent (base self)) w))
          = events w ++ [Mkdir (parent (base self))]) as Hev by done.
  destruct (path_exists (base self) w) eqn:Hw.
  - destruct Hor as [->|?]; [|done].
    pose proof (path_exists_mkdir _ (parent (base self)) _ Hw) as H1.
    set (w1 := world_of (mkdir (parent (base self)) w)) in *. clearbody w1.
    rewrite (bind_Ok _ _ w1 true w1) by (unfold get; by rewrite H1).
    rewrite (bind_Ok _ _ w1 tt (world_of (rmtree (base self) w1))) by done.
    pose proof (path_exists_rmtree (base self) w1) as H2.
    assert (events (world_of (rmtree (base self) w1))
            = events w1 ++ [Rmtree (base self)]) as Hev2 by done.
    set (w2 := world_of (rmtree (base self) w1)) in *. clearbody w2.
    rewrite (bind_Ok _ _ w2 false w2) by (unfold get; by rewrite H2).
    exists w2. split; [done|]. by rewrite Hev2, Hev, <- app_assoc.
  - pose proof (path_exists_mkdir_parent _ w Hb Hw) as H1.
    set (w1 := world_of (mkdir (parent (base self)) w)) in *. clearbody w1.
    rewrite (bind_Ok _ _ w1 false w1) by (unfold get; by rewrite H1).
    rewrite (bind_Ok _ _ w1 tt w1) by (by rewrite andb_false_r).
    rewrite (bind_Ok _ _ w1 false w1) by (unfold get; by rewrite H1).
    exists w1. done.
Qed.

(** X17: when the record names no URL, the tree is clean, and a clean
    fetch is asked for or the new version has no checkout yet, [main]
    raises TypeError where it would clone: it has printed that it clones
    None and removed the checkout it found, and has run no clone. *)
Theorem main_without_url_raises (args : Args) (w : world) (text : str) :
  path_exists (script_dir args) w = true ->
  clean_tree E (script_dir args) ->
  universal_newlines <$> files w !! metadata_path_of args = Some text ->
  Re.findall URL_PATTERN text = [] ->
  force_clean args = true \/ path_exists (scratch_of args) w = false ->
  outcome_of (main E args w) = Raise TypeError
  /\ events_since w (world_of (main E args w))
     = [banner args; Run (diff_files_cmd (script_dir args));
        Run (diff_index_cmd (script_dir args)); cloning_none args;
        Mkdir (parent (scratch_of args))]
       ++ (if path_exists (scratch_of args) w then [Rmtree (scratch_of args)]
           else []).
Proof.
  intros Hbase [Hrc1 Hrc2] Hfile Hnone Hor. unfold main. cbn zeta.
  fold (metadata_path_of args). fold (scratch_of args).
  destruct (files w !! metadata_path_of args) as [raw|] eqn:Hraw; [|done].
  rewrite (bind_Ok _ _ w true w) by (unfold get; by rewrite Hbase).
  rewrite (bind_Ok _ _ w tt w) by done.
  rewrite (bind_Ok _ _ w tt (log (banner args) w)) by done.
  rewrite (bind_Ok _ _ _ _ _
             (assert_clean E (Repo (script_dir args)) (log (banner args) w)
                Hrc1 Hrc2)).
  cbn [base].
  set (w1 := log (Run (diff_index_cmd (script_dir args)))
               (log (Run (diff_files_cmd (script_dir args)))
                    (log (banner args) w))).
  set (w2 := set_meta (fun _ => Metadata (metadata_path_of args) None None None) w1).
  assert (AndroidMetadata_init (metadata_path_of args) w1 = (Ok tt, w2)) as Hinit.
  { unfold AndroidMetadata_init, bind, get, modify, path_exists.
    cbn [w1 log files]. rewrite Hraw.
    rewrite (bool_decide_eq_true_2 (is_Some (Some raw))) by eauto.
    by rewrite orb_true_r. }
  rewrite (bind_Ok _ _ _ _ _ Hinit).
  assert (record_of w2 = Some text) as Hr2.
  { unfold record_of, w2. cbn [set_meta meta _content _metadata_path w1 log files].
    by rewrite Hraw. }
  destruct (git_url_without_url w2 text Hr2 eq_refl Hnone)
    as (w3 & Hurl & Hf3 & He3 & Hx3 & Hu3 & Hr3).
  rewrite (bind_Ok _ _ _ _ _ Hurl).
  rewrite (bind_Ok _ _ w3 tt (log (cloning_none args) w3)) by done.
  set (w4 := log (cloning_none args) w3).
  destruct (git_url_without_url w4 text Hr3 Hu3 Hnone)
    as (w5 & Hurl5 & Hf5 & He5 & Hx5 & Hu5 & Hr5).
  rewrite (bind_Ok _ _ _ _ _ Hurl5).
  destruct (git_paths_without_url w5 text Hr5 Hu5 Hnone)
    as (w6 & Hpaths & Hf6 & He6 & Hx6).
  rewrite (bind_Ok _ _ _ _ _ Hpaths).
  assert (path_exists (scratch_of args) w6 = path_exists (scratch_of args) w)
    as Hsame.
  { unfold path_exists. rewrite Hf6, Hx6, Hf5, Hx5.
    cbn [w4 log files existing]. by rewrite Hf3, Hx3. }
  assert (events w6 = events w ++ [banner args;
                                   Run (diff_files_cmd (script_dir args));
                                   Run (diff_index_cmd (script_dir args));
                                   cloning_none args]) as Hev6.
  { rewrite He6, He5. cbn [w4 log events]. rewrite He3.
    cbn [w2 w1 set_meta log events]. by rewrite <- !app_assoc. }
  destruct (clone_without_url (Repo (scratch_of args)) (Some (version args)) []
              (force_clean args) w6) as (w7 & Hclone & He7).
  { unfold scratch_of, joinpath. cbn [base]. intros H.
    apply (f_equal length) in H. rewrite !length_app in H. simpl in H. lia. }
  { cbn [base]. by rewrite Hsame. }
  rewrite (bind_Raise _ _ _ _ _ Hclone). split; [done|].
  apply events_since_app. unfold world_of. cbn [snd base] in *.
  rewrite He7, Hev6, Hsame. by rewrite <- app_assoc.
Qed.

End NoUrl.

(** The first import with a record that holds a version and no URL. *)
Lemma main_without_url_raises_witness :
  let text := version_field (lit "1.0") ++ [nl] in
  let w := World {[ metadata_path_of import_args := text ]} {[ [lit "tree"] ]}
                 (Metadata [] None None None) [] in
  path_exists (script_dir import_args) w = true
  /\ universal_newlines <$> files w !! metadata_path_of import_args = Some text
  /\ Re.findall URL_PATTERN text = []
  /\ outcome_of (main import_env import_args w) = Raise TypeError.
Proof.
  intros text w.
  assert (path_exists (script_dir import_args) w = true) as Hb by (by vm_compute).
  assert (universal_newlines <$> files w !! metadata_path_of import_args
          = Some text) as Hf by (by vm_compute).
  assert (Re.findall URL_PATTERN text = []) as Hn by (by vm_compute).
  split; [exact Hb|]. split; [exact Hf|]. split; [exact Hn|].
  refine (proj1 (main_without_url_raises import_env import_args w text Hb _ Hf Hn
                   (or_introl eq_refl))).
  split; reflexivity.
Defined.

(** ** A URL with the delimiter twice *)

Section DelimiterTwice.

Lemma split_go_not_nil sep ms k s : split_go sep ms k s <> [].
Proof.
  revert ms k; induction s as [|a s IH]; intros ms k; [done|].
  cbn [split_go]. destruct k as [|k]; [|apply IH].
  destruct ms as [[|n]|]; [done| |].
  - destruct (startswith (a :: s) sep); [done|].
    specialize (IH (Some (S n)) 0). by destruct (split_go sep (Some (S n)) 0 s).
  - destruct (startswith (a :: s) sep); [done|].
    specialize (IH None 0). by destruct (split_go sep None 0 s).
Qed.

Lemma split_url_delimiter_twice a b c :
  first_here TREE a = true -> first_here TREE b = true ->
  split_url (a ++ TREE ++ b ++ TREE ++ c) = Raise ValueError.
Proof.
  intros Ha Hb. unfold split_url; cbn zeta.
  change (lit "/-/tree/") with TREE.
  rewrite contains_here. unfold split.
  rewrite split_first by done. cbn [fmap option_fmap option_map].
  rewrite split_first by done. cbn [fmap option_fmap option_map].
  pose proof (split_go_not_nil TREE None 0 c) as Hne.
  by destruct (split_go TREE None 0 c).
Qed.

(** X18: a URL entry in which the delimiter /-/tree/ occurs twice makes
    [git_url] and [git_paths] raise ValueError at the first unpacking,
    whatever follows the second delimiter. *)
Theorem git_url_delimiter_twice
    (w : world) (text a b c : str) (more : list str) :
  record_of w = Some text ->
  _url (meta w) = None ->
  Re.findall URL_PATTERN text = (a ++ TREE ++ b ++ TREE ++ c) :: more ->
  first_here TREE a = true ->
  first_here TREE b = true ->
  outcome_of (git_url w) = Raise ValueError
  /\ outcome_of (git_paths w) = Raise ValueError.
Proof.
  intros Hr Hu Hall Ha Hb.
  destruct (read_raw_run w text Hr Hu) as (w1 & Hrun & _ & _ & _ & Hu1 & _).
  assert (_read_raw_git_urls w = (Raise ValueError, w1)) as Hraw.
  { rewrite Hrun, Hall. cbn [urls_loop]. unfold bind at 1 2. unfold lift.
    by rewrite (split_url_delimiter_twice a b c Ha Hb). }
  unfold git_url, git_paths. by rewrite !(bind_Raise _ _ _ _ _ Hraw).
Qed.

End DelimiterTwice.

(** A URL that names a directory called tree below a ref. *)
Lemma git_url_delimiter_twice_witness :
  let a := lit "https://example.org/repo" in
  let b := lit "main/sub" in
  let c := lit "dir" in
  let text := url_entry (a ++ TREE ++ b ++ TREE ++ c) in
  record_of (record_world text) = Some text
  /\ Re.findall URL_PATTERN text = [a ++ TREE ++ b ++ TREE ++ c]
  /\ outcome_of (git_url (record_world text)) = Raise ValueError.
Proof.
  intros a b c text.
  assert (record_of (record_world text) = Some text) as Hr by (by vm_compute).
  assert (Re.findall URL_PATTERN text = [a ++ TREE ++ b ++ TREE ++ c]) as Hall
    by (by vm_compute).
  split; [exact Hr|]. split; [exact Hall|].
  refine (proj1 (git_url_delimiter_twice (record_world text) text a b c [] Hr
                   eq_refl Hall _ _)); by vm_compute.
Defined.

(** ** OWNERS and Android.bp at the top level *)

Section TopLevel.
Import PurePath.
Variable E : environment.

Lemma copy_plan_ok_copies tg ng target (l : list path) :
  (copy_plan E tg ng target l).1.1 = Ok tt ->
  forall p, p ∈ l -> ignored p = false ->
    Copy (joinpath (base ng) p) (joinpath target p)
    ∈ (copy_plan E tg ng target l).1.2.
Proof.
  induction l as [|p0 l IH]; intros Hok p Hin Hp.
  - by apply elem_of_nil in Hin.
  - cbn [copy_plan] in *. destruct (ignored p0) eqn:Hi.
    + apply elem_of_cons in Hin as [->|Hin]; [congruence|].
      cbn [fst snd] in *. right. by apply IH.
    + destruct (checkout E (base ng) !! p0) as [text0|] eqn:Hc; [|done].
      destruct (returncode _ =? 0)%Z; [|done]. cbn [fst snd] in *.
      apply elem_of_cons in Hin as [->|Hin].
      * right. by left.
      * do 3 right. by apply IH.
Qed.

(** The deletion loop takes exactly the files it is meant to take: each
    path of the old file set that the new one lacks and that
    [must_ignore] does not skip holds no file afterwards, and every other
    file is what it was. *)
Lemma remove_old_deletes_exactly (target : path) (old new : list path) (w : world) :
  let after := world_of (remove_old target old new w) in
  (forall p, p ∈ old -> p ∉ new -> ignored p = false ->
     files after !! joinpath target p = None)
  /\ (forall q,
        (forall p, q = joinpath target p ->
                   ignored p = true \/ p ∉ old \/ p ∈ new) ->
        files after !! q = files w !! q).
Proof.
  destruct (remove_old_run target old new w) as (w1 & Hrun & _ & Hf).
  cbn zeta. rewrite Hrun. unfold world_of. cbn [snd]. rewrite Hf. split.
  - intros p Ho Hn Hp. rewrite lookup_unlink_all, bool_decide_eq_true_2; [done|].
    apply elem_of_unlinked. exists p. split; [done|].
    split; [by apply elem_of_removed|done].
  - intros q Hq. rewrite lookup_unlink_all, bool_decide_eq_false_2; [done|].
    intros (p & -> & [Ho Hn]%elem_of_removed & Hp)%elem_of_unlinked.
    destruct (Hq p eq_refl) as [?|[?|?]]; [congruence|done|done].
Qed.

(** C1, the code at the failing input: a file named OWNERS or Android.bp
    at the top level of the file sets is not protected.  When the old
    file set has it and the new one lacks it, the deletion loop unlinks
    it and the file is gone; when the new file set has it and the step
    comes to its end, the copy loop has copied the upstream file onto
    it. *)
Theorem top_level_owners_deleted_and_overwritten
    (tg ng : GitRepo) (target : path) (old new : list path) (name : str)
    (w : world) :
  name = lit "OWNERS" \/ name = lit "Android.bp" ->
  let after_deletion := world_of (remove_old target old new w) in
  let after_step := world_of (sync E tg ng target old new w) in
  ([name] ∈ old -> [name] ∉ new ->
     Unlink (joinpath target [name]) ∈ events_since w after_deletion
     /\ files after_deletion !! joinpath target [name] = None
     /\ Unlink (joinpath target [name]) ∈ events_since w after_step)
  /\ ([name] ∈ new -> outcome_of (sync E tg ng target old new w) = Ok tt ->
      Copy (joinpath (base ng) [name]) (joinpath target [name])
      ∈ events_since w after_step).
Proof.
  intros Hname. cbn zeta.
  assert (ignored [name] = false) as Hi by (by destruct Hname as [->| ->]).
  destruct (remove_old_run target old new w) as (w1 & Hrun1 & Hev1 & Hf1).
  destruct (sync_run E tg ng target old new w) as (w' & Hrun & Hev & Hf).
  rewrite Hrun1, Hrun. unfold outcome_of, world_of. cbn [fst snd].
  rewrite (events_since_app _ _ _ Hev1), Hev.
  split.
  - intros Ho Hn.
    assert (joinpath target [name]
            ∈ unlinked target
                (elements (list_to_set old ∖ list_to_set new : gset path))) as Hin.
    { apply elem_of_unlinked. exists [name]. split; [done|].
      split; [by apply elem_of_removed|done]. }
    split_and!.
    + by apply remove_events_unlink.
    + rewrite Hf1, lookup_unlink_all. by rewrite bool_decide_eq_true_2.
    + apply elem_of_app. left. by apply remove_events_unlink.
  - intros Hn Hok. apply elem_of_app. right.
    by apply copy_plan_ok_copies.
Qed.

End TopLevel.

(** An upstream tree that loses its OWNERS file and gains an Android.bp:
    the local OWNERS is unlinked and the local Android.bp is overwritten
    with the upstream text. *)
Lemma top_level_owners_deleted_and_overwritten_witness :
  let target := [lit "tree"; lit "group"] in
  let old := [[lit "OWNERS"]] in
  let new := [[lit "Android.bp"]] in
  let tg := Repo [lit "tree"] in
  let ng := Repo [lit "tree"; lit ".import"; lit "group"; lit "2.0"] in
  let E := Environment (fun _ => Completed 0 [])
                       (fun _ => {[ [lit "Android.bp"] := lit "upstream rules" ]})
                       (Date 2024 11 4) in
  let w := World {[ [lit "tree"; lit "group"; lit "OWNERS"] := lit "local owners";
                    [lit "tree"; lit "group"; lit "Android.bp"] := lit "local rules" ]}
                 ∅ (Metadata [] None None None) [] in
  let after := world_of (sync E tg ng target old new w) in
  Unlink (PurePath.joinpath target [lit "OWNERS"]) ∈ events_since w after
  /\ files after !! [lit "tree"; lit "group"; lit "OWNERS"] = None
  /\ Copy (PurePath.joinpath (base ng) [lit "Android.bp"])
          (PurePath.joinpath target [lit "Android.bp"]) ∈ events_since w after
  /\ files after !! [lit "tree"; lit "group"; lit "Android.bp"]
     = Some (lit "upstream rules").
Proof.
  intros target old new tg ng E w after.
  destruct (top_level_owners_deleted_and_overwritten E tg ng target old new
              (lit "OWNERS") w (or_introl eq_refl)) as [Hdel _].
  destruct (top_level_owners_deleted_and_overwritten E tg ng target old new
              (lit "Android.bp") w (or_intror eq_refl)) as [_ Hcopy].
  destruct Hdel as (_ & _ & Hun).
  { by left. }
  { intros H. apply list_elem_of_singleton in H. vm_compute in H. discriminate. }
  split; [exact Hun|]. split; [by vm_compute|].
  split; [|by vm_compute].
  apply Hcopy; [by left|by vm_compute].
Defined.
